(** * gitbook-convert: the DocBook converter (src/converters/xml.js)

    A shallow embedding of [DocbookConverter] and [processHTML].

    Conventions of the embedding.

    - An HTML text handled by the converter ([this._html], [chapter.content],
      the readme's content) is a string, a list of bytes in UTF-8.
      [Dom.outerHTML] is cheerio's serializer ([$.html()], dom-serializer
      0.1.1 with entities' encodeXML): numeric entities outside ASCII, the
      bare name of an attribute whose value is empty, XML rules from an
      [svg] element downwards, the content of [script], [style], [xmp],
      [iframe], [noembed], [noframes], [plaintext] and [noscript] written
      as it is.
    - cheerio's parser and css-select's reading of a selector text are not
      embedded: [Converter] takes them as the section variables [load] and
      [css].  [css] gives no selector for a text that css-what refuses, and
      [extractHTML] then throws.  What a theorem needs of the two is among
      its hypotheses ([ReadBack.reads_back], [ReadBack.anchors_read]);
      [Sample] has a small reader of tags, attributes, entities and text on
      which the hypotheses are checked by computation.
    - Queries over a loaded document (the table of contents, selection,
      removal) are functions over node forests.
    - [parseList] allocates [Chapter] objects that refer to each other
      (parent, previous, next): they live in an object heap addressed by
      allocation order.  Every method of the converter is a computation in
      a state-and-exception monad over [this._html] and the heap.
    - [InMemory] is not the converter but an abstraction of it, in which the
      document stays loaded; [Refinement] relates the two, and the facts
      about the order of extraction are proved on [InMemory] and carried
      over to [Converter].
    - [processHTML] moves and re-parents node handles inside an [each] loop:
      its DOM is a node store addressed by handle, and every cheerio call is
      one step of a state-and-exception monad. *)

From Stdlib Require Import String Ascii List Arith NArith Lia Bool.
From stdpp Require Import base option list sets strings.

Local Open Scope string_scope.
Local Open Scope list_scope.
Local Open Scope nat_scope.

#[global] Set Warnings "-clear-no-such-hyp".

(** ** HTML forests *)

Module Dom.

#[local] Set Warnings "-register-all".

Inductive node : Type :=
| Text (data : string)
| Comment (data : string)
| Elem (name : string) (attribs : list (string * string)) (children : list node).

(** The induction principle that reaches the children of an element. *)
Fixpoint node_forall_ind (P : node → Prop)
    (HT : ∀ s, P (Text s)) (HC : ∀ s, P (Comment s))
    (HE : ∀ t a ks, Forall P ks → P (Elem t a ks)) (n : node) {struct n} : P n :=
  match n with
  | Text s => HT s
  | Comment s => HC s
  | Elem t a ks =>
      HE t a ks
        ((fix go (l : list node) : Forall P l :=
            match l with
            | [] => @List.Forall_nil _ P
            | k :: l' => @List.Forall_cons _ P k l' (node_forall_ind P HT HC HE k) (go l')
            end) ks)
  end.

Definition is_tag (n : node) : bool :=
  match n with Elem _ _ _ => true | _ => false end.

Definition tagName (n : node) : string :=
  match n with Elem t _ _ => t | _ => "" end.

Definition kids (n : node) : list node :=
  match n with Elem _ _ ks => ks | _ => [] end.

(** [attribs] is a JS object: at most one value per name, in insertion order. *)
Fixpoint assoc (k : string) (l : list (string * string)) : option string :=
  match l with
  | [] => None
  | (k', v) :: l' => if String.eqb k k' then Some v else assoc k l'
  end.

Fixpoint assoc_set (k v : string) (l : list (string * string)) : list (string * string) :=
  match l with
  | [] => [(k, v)]
  | (k', v') :: l' =>
      if String.eqb k k' then (k', v) :: l' else (k', v') :: assoc_set k v l'
  end.

Fixpoint assoc_del (k : string) (l : list (string * string)) : list (string * string) :=
  match l with
  | [] => []
  | (k', v') :: l' =>
      if String.eqb k k' then assoc_del k l' else (k', v') :: assoc_del k l'
  end.

(** [$(el).attr(name)]: [None] is JS [undefined]. *)
Definition attr (k : string) (n : node) : option string :=
  match n with Elem _ a _ => assoc k a | _ => None end.

(** JS truthiness of an attribute value: [undefined] and [''] are falsy. *)
Definition truthy (v : option string) : bool :=
  match v with
  | None => false
  | Some s => negb (String.eqb s "")
  end.

(** *** Class lists

    css-select tests a class [c] with the regular expression
    [(?:^|\s)c(?:$|\s)]: the class attribute is cut at the characters of
    [\s].  A string is the UTF-8 form of a JS string, so the characters of
    [\s] outside ASCII take two or three bytes. *)

(** The ASCII characters of [\s]. *)
Definition is_space (c : ascii) : bool :=
  match nat_of_ascii c with
  | 32 | 9 | 10 | 11 | 12 | 13 => true
  | _ => false
  end.

(** The number of bytes of the [\s] character [s] starts with, 0 when it
    starts with none: the ASCII ones, U+00A0, U+1680, U+2000 to U+200A,
    U+2028, U+2029, U+202F, U+205F, U+3000 and U+FEFF. *)
Definition space_width (s : string) : nat :=
  match s with
  | EmptyString => 0
  | String c r =>
      let a := nat_of_ascii c in
      let b := match r with String d _ => nat_of_ascii d | _ => 256 end in
      let e := match r with String _ (String d _) => nat_of_ascii d | _ => 256 end in
      if is_space c then 1
      else if (a =? 194) && (b =? 160) then 2
      else if (a =? 225) && (b =? 154) && (e =? 128) then 3
      else if (a =? 226) && (b =? 128) &&
              ((128 <=? e) && (e <=? 138) || (e =? 168) || (e =? 169) || (e =? 175))
           then 3
      else if (a =? 226) && (b =? 129) && (e =? 159) then 3
      else if (a =? 227) && (b =? 128) && (e =? 128) then 3
      else if (a =? 239) && (b =? 187) && (e =? 191) then 3
      else 0
  end.

(** Split at white space; [cur] is the word being read, reversed, and
    [skip] counts the bytes left of a white-space character. *)
Fixpoint words_aux (s : string) (cur : list ascii) (skip : nat) : list string :=
  let flush := match cur with [] => [] | _ => [string_of_list_ascii (rev cur)] end in
  match s with
  | EmptyString => flush
  | String c s' =>
      match skip with
      | S k => words_aux s' cur k
      | 0 =>
          match space_width s with
          | 0 => words_aux s' (c :: cur) 0
          | S k => flush ++ words_aux s' [] k
          end
      end
  end.

Definition words (s : string) : list string := words_aux s [] 0.

Definition mem_string (x : string) (l : list string) : bool :=
  existsb (String.eqb x) l.

Definition has_class (c : string) (n : node) : bool :=
  match attr "class" n with
  | Some v => mem_string c (words v)
  | None => false
  end.

(** *** The selectors the converter uses *)

Inductive selector : Type :=
| SelAny                                  (* [*] *)
| SelTag (t : string)                     (* [t] *)
| SelClass (c : string)                   (* [.c] *)
| SelTagClass (t c : string)              (* [t.c] *)
| SelIdEq (v : string)                    (* [*[id="v"]] *)
| SelHeader                               (* [:header] *)
| SelOr (a b : selector).                 (* [a, b] *)

Definition is_header_name (t : string) : bool :=
  mem_string t ["h1"; "h2"; "h3"; "h4"; "h5"; "h6"].

Fixpoint matches (s : selector) (n : node) : bool :=
  is_tag n &&
  match s with
  | SelAny => true
  | SelTag t => String.eqb (tagName n) t
  | SelClass c => has_class c n
  | SelTagClass t c => String.eqb (tagName n) t && has_class c n
  | SelIdEq v => match attr "id" n with Some i => String.eqb i v | None => false end
  | SelHeader => is_header_name (tagName n)
  | SelOr a b => matches a n || matches b n
  end.

(** [$(selector)] below a node: the matching elements, the node itself
    included, in document order. *)
Fixpoint select (s : selector) (n : node) : list node :=
  match n with
  | Elem t a ks => (if matches s n then [n] else []) ++ flat_map (select s) ks
  | _ => []
  end.

(** [$(selector)] over a loaded document. *)
Definition select_all (s : selector) (doc : list node) : list node :=
  flat_map (select s) doc.


(** [$x.children(selector)]: matching element children of the elements of [$x]. *)
Definition children_sel (s : selector) (sel : list node) : list node :=
  flat_map (fun n => List.filter (matches s) (kids n)) sel.

(** [$x.attr(name)] reads the first element of the selection. *)
Definition sel_attr (k : string) (sel : list node) : option string :=
  match sel with
  | [] => None
  | n :: _ => attr k n
  end.

(** [$x.text()]: the text of the selection, comments left out. *)
Fixpoint text_of (n : node) : string :=
  match n with
  | Text s => s
  | Comment _ => ""
  | Elem _ _ ks => fold_right (fun k acc => text_of k +:+ acc) "" ks
  end.

Definition sel_text (sel : list node) : string :=
  fold_right (fun k acc => text_of k +:+ acc) "" sel.

(** [$x.remove()] for [$x = $(selector)]: the document without the matching
    elements (and so without anything below them). *)
Fixpoint detach (s : selector) (n : node) : list node :=
  if matches s n then []
  else match n with
       | Elem t a ks => [Elem t a (flat_map (detach s) ks)]
       | _ => [n]
       end.

Definition detach_all (s : selector) (doc : list node) : list node :=
  flat_map (detach s) doc.

(** *** Parsing

    What the parser makes of an HTML text kept as a forest: no empty text
    node, no two text nodes in a row. *)
Definition text_cons (n : node) (acc : list node) : list node :=
  match n, acc with
  | Text EmptyString, _ => acc
  | Text a, Text b :: rest => Text (a +:+ b) :: rest
  | _, _ => n :: acc
  end.

Fixpoint reparse_node (n : node) : node :=
  match n with
  | Elem t a ks => Elem t a (fold_right (fun k acc => text_cons (reparse_node k) acc) [] ks)
  | _ => n
  end.

Definition reparse (f : list node) : list node :=
  fold_right (fun k acc => text_cons (reparse_node k) acc) [] f.

(** *** Serialization ([$.html()])

    The serializer of cheerio (dom-serializer 0.1.1 with [entities]'
    [encodeXML]).  Text and attribute values are written with their five
    markup characters as named entities and every character outside ASCII
    as a numeric entity; text inside [style], [script] and the like is
    written as it is.  An attribute with the empty value is written as its
    bare name.  The void elements get no end tag.  From an [svg] element
    downwards the serializer is in XML mode: every attribute gets its value,
    an element without children is written [<t/>], and every other element
    gets its end tag. *)

Definition void_tags : list string :=
  ["area"; "base"; "basefont"; "br"; "col"; "command"; "embed"; "frame"; "hr";
   "img"; "input"; "isindex"; "keygen"; "link"; "meta"; "param"; "source";
   "track"; "wbr"].

Definition unencoded_tags : list string :=
  ["style"; "script"; "xmp"; "iframe"; "noembed"; "noframes"; "plaintext"; "noscript"].

(** [n.toString(16).toUpperCase()]. *)
Definition hex_digit (d : N) : ascii :=
  match String.get (N.to_nat d) "0123456789ABCDEF" with
  | Some c => c
  | None => "0"%char
  end.

Fixpoint hex_from (fuel : nat) (n : N) (acc : string) : string :=
  match fuel with
  | 0 => acc
  | S fuel' =>
      let acc' := String (hex_digit (n mod 16)) acc in
      if (n / 16 =? 0)%N then acc' else hex_from fuel' (n / 16) acc'
  end.

Definition hex (n : N) : string := hex_from 6 n "".

Definition numeric_entity (codePoint : N) : string :=
  "&#x" +:+ hex codePoint +:+ ";".

Definition escape_ascii (c : ascii) : string :=
  match nat_of_ascii c with
  | 38 => "&amp;"
  | 60 => "&lt;"
  | 62 => "&gt;"
  | 34 => "&quot;"
  | 39 => "&apos;"
  | _ => String c EmptyString
  end.

(** [encodeXML] over the UTF-8 form of a string: [need] bytes are still to
    come of the character being read, whose bits so far are [acc]. *)
Fixpoint encodeXML (need : nat) (acc : N) (s : string) : string :=
  match s with
  | EmptyString => EmptyString
  | String c s' =>
      let n := N_of_ascii c in
      match need with
      | S k =>
          let acc' := (acc * 64 + N.land n 63)%N in
          match k with
          | 0 => numeric_entity acc' +:+ encodeXML 0 0 s'
          | _ => encodeXML k acc' s'
          end
      | 0 =>
          if (n <? 128)%N then escape_ascii c +:+ encodeXML 0 0 s'
          else if (n <? 224)%N then encodeXML 1 (N.land n 31) s'
          else if (n <? 240)%N then encodeXML 2 (N.land n 15) s'
          else encodeXML 3 (N.land n 7) s'
      end
  end.

Definition escape (s : string) : string := encodeXML 0 0 s.

(** The double quote character. *)
Definition dquote : string := String (ascii_of_nat 34) EmptyString.

Definition render_attr (xml : bool) (kv : string * string) : string :=
  if String.eqb (snd kv) "" && negb xml
  then " " +:+ fst kv
  else " " +:+ fst kv +:+ "=" +:+ dquote +:+ escape (snd kv) +:+ dquote.

Definition render_attrs (xml : bool) (a : list (string * string)) : string :=
  fold_right (fun kv acc => render_attr xml kv +:+ acc) "" a.

(** [xml]: the serializer is in XML mode; [raw]: the node is a child of an
    element whose text is not encoded. *)
Fixpoint outer_in (xml raw : bool) (n : node) : string :=
  match n with
  | Text s => if raw then s else escape s
  | Comment s => "<!--" +:+ s +:+ "-->"
  | Elem t a ks =>
      let xml' := xml || String.eqb t "svg" in
      "<" +:+ t +:+ render_attrs xml' a +:+
      (if xml' && match ks with [] => true | _ => false end
       then "/>"
       else
         ">" +:+
         fold_right (fun k acc => outer_in xml' (mem_string t unencoded_tags) k +:+ acc)
                    "" ks +:+
         (if mem_string t void_tags && negb xml' then "" else "</" +:+ t +:+ ">"))
  end.

Definition outer (n : node) : string := outer_in false false n.

Definition outerHTML (f : list node) : string :=
  fold_right (fun k acc => outer k +:+ acc) "" f.

(** HTML text written with single quotes around attribute values, as a
    string with double quotes. *)
Fixpoint html_text (s : string) : string :=
  match s with
  | EmptyString => EmptyString
  | String c s' =>
      String (if Nat.eqb (nat_of_ascii c) 39 then ascii_of_nat 34 else c) (html_text s')
  end.

(** All [id] attribute values below a node, in document order. *)
Fixpoint ids (n : node) : list string :=
  match n with
  | Elem t a ks =>
      (match assoc "id" a with Some i => [i] | None => [] end) ++ flat_map ids ks
  | _ => []
  end.

Definition ids_all (doc : list node) : list string := flat_map ids doc.


(** *** Element handles inside a loaded document

    Where a loop only rewrites attributes the shape of the document is
    fixed, and an element handle is the path of child indexes leading to
    it. *)

Definition path : Type := list nat.

(** The handles of [$(selector)] below [n], relative to [n], in document
    order; [[]] is [n] itself. *)
Fixpoint paths (s : selector) (n : node) : list path :=
  match n with
  | Elem t a ks =>
      (if matches s n then [[]] else []) ++
      (fix below (i : nat) (l : list node) : list path :=
         match l with
         | [] => []
         | k :: l' => map (cons i) (paths s k) ++ below (S i) l'
         end) 0 ks
  | _ => []
  end.

Fixpoint paths_from (s : selector) (i : nat) (l : list node) : list path :=
  match l with
  | [] => []
  | k :: l' => map (cons i) (paths s k) ++ paths_from s (S i) l'
  end.

(** [$(selector)] over a loaded document, as handles. *)
Definition paths_all (s : selector) (doc : list node) : list path :=
  paths_from s 0 doc.

(** [$(n).find(selector)], as handles relative to [n]. *)
Definition find_paths (s : selector) (n : node) : list path :=
  paths_from s 0 (kids n).

Fixpoint get (p : path) (n : node) : option node :=
  match p with
  | [] => Some n
  | i :: p' => match kids n !! i with Some k => get p' k | None => None end
  end.

Definition get_all (p : path) (doc : list node) : option node :=
  match p with
  | [] => None
  | i :: p' => match doc !! i with Some k => get p' k | None => None end
  end.

(** Run [f] on the element behind a handle. *)
Fixpoint apply_at (f : node → node) (p : path) (n : node) : node :=
  match p with
  | [] => f n
  | i :: p' =>
      match n with
      | Elem t a ks => Elem t a (alter (apply_at f p') i ks)
      | _ => n
      end
  end.

Definition apply_at_all (f : node → node) (p : path) (doc : list node) : list node :=
  match p with
  | [] => doc
  | i :: p' => alter (apply_at f p') i doc
  end.

(** [$(el).attr(name, value)] and [$(el).removeAttr(name)]. *)
Definition setAttr (k v : string) (n : node) : node :=
  match n with Elem t a ks => Elem t (assoc_set k v a) ks | _ => n end.

Definition removeAttr (k : string) (n : node) : node :=
  match n with Elem t a ks => Elem t (assoc_del k a) ks | _ => n end.

End Dom.

(** ** The converter: table of contents, chapters, extraction *)

Module Converter.
Import Dom.

(** A [Chapter] object is known by its address in the object heap. *)
Abbreviation addr := nat (only parsing).

(** Modelled from the spec: the [Chapter] class (src/converters/types/chapter.js
    is not part of the sources).  The fields are those of the spec's
    OutlineNode; [parent], [previous] and [next] are references to other
    chapter objects, [None] standing for an unset reference; [content] is an
    HTML text, empty until the extraction has run. *)
Record Chapter : Type := mkChapter {
  level : nat;
  parent : option addr;
  type : option string;
  titleId : string;
  title : string;
  num : nat;
  children : list addr;
  content : string;
  previous : option addr;
  next : option addr
}.

Definition set_children (v : list addr) (c : Chapter) : Chapter :=
  mkChapter (level c) (parent c) (type c) (titleId c) (title c) (num c)
            v (content c) (previous c) (next c).

Definition set_content (v : string) (c : Chapter) : Chapter :=
  mkChapter (level c) (parent c) (type c) (titleId c) (title c) (num c)
            (children c) v (previous c) (next c).

Definition set_previous (v : option addr) (c : Chapter) : Chapter :=
  mkChapter (level c) (parent c) (type c) (titleId c) (title c) (num c)
            (children c) (content c) v (next c).

Definition set_next (v : option addr) (c : Chapter) : Chapter :=
  mkChapter (level c) (parent c) (type c) (titleId c) (title c) (num c)
            (children c) (content c) (previous c) v.

(** What the converter mutates: the text [this._html] and the chapter
    objects. *)
Record state : Type := mkState {
  _html : string;
  heap : list Chapter
}.

(** A method returns a value or throws; either way [this] and the chapter
    objects are as the call left them. *)
Inductive res (A : Type) : Type :=
| Ok (x : A) (st : state)
| Throw (e : string) (st : state).

Arguments Ok {A} x st.
Arguments Throw {A} e st.

Definition M (A : Type) : Type := state → res A.

Definition ret {A} (x : A) : M A := fun st => Ok x st.

Definition throw {A} (e : string) : M A := fun st => Throw e st.

Definition bind {A B} (m : M A) (k : A → M B) : M B :=
  fun st =>
    match m st with
    | Ok x st' => k x st'
    | Throw e st' => Throw e st'
    end.

#[local] Notation "x <- m ;; k" := (bind m (fun x => k))
  (at level 100, m at next level, right associativity).
#[local] Notation "m ;;; k" := (bind m (fun _ => k))
  (at level 100, right associativity).

(** [arr.each] / [arr.forEach] with an accumulator threaded through. *)
Fixpoint foldM {A B} (f : A → B → M A) (acc : A) (l : list B) : M A :=
  match l with
  | [] => ret acc
  | x :: l' => acc' <- f acc x ;; foldM f acc' l'
  end.

(** [arr.map((x, index) => ...)] run for its effects. *)
Fixpoint eachi {B} (f : nat → B → M unit) (index : nat) (l : list B) : M unit :=
  match l with
  | [] => ret tt
  | x :: l' => f index x ;;; eachi f (S index) l'
  end.

(** [new Chapter(...)]: a fresh object. *)
Definition newChapter (c : Chapter) : M addr :=
  fun st => Ok (length (heap st)) (mkState (_html st) (heap st ++ [c])).

(** A field assignment [chapter.f = v]. *)
Definition assign (a : addr) (f : Chapter → Chapter) : M unit :=
  fun st => Ok tt (mkState (_html st) (alter f a (heap st))).

(** The body of the [$('section').each] callback of [setTitlesId],
    xml.js 185-198, run on the section element behind the handle. *)
Definition reconcile (section : node) : node :=
  let sectionId := attr "id" section in
  if negb (truthy sectionId) then section            (* if (!sectionId) return *)
  else
    (* $h = $(section).find(':header').first() *)
    let h := head (find_paths SelHeader section) in
    let hId :=                                       (* $h.attr('id') *)
      match h with
      | Some hp => match get hp section with Some hn => attr "id" hn | None => None end
      | None => None
      end in
    if negb (truthy hId) then
      (* $h.attr('id', sectionId): nothing to set when $h is empty *)
      let section1 :=
        match h with
        | Some hp => apply_at (setAttr "id" (default "" sectionId)) hp section
        | None => section
        end in
      removeAttr "id" section1                       (* $(section).removeAttr('id') *)
    else section.

(** The loop of [setTitlesId] over one loaded content, xml.js 185-198: the
    callback runs on every section handle of the document, in document
    order. *)
Definition setIds (doc : list node) : list node :=
  fold_left (fun doc p => apply_at_all reconcile p doc)
            (paths_all (SelTag "section") doc) doc.

(** Modelled from the spec: [Chapter.getChildrenDeep]
    (src/converters/types/chapter.js is not part of the sources), the
    pre-order sequence of a chapter's descendants ("each node followed
    immediately by the flattened sequence of its children"). *)
Fixpoint getChildrenDeep (fuel : nat) (h : list Chapter) (a : addr) : list addr :=
  match fuel with
  | 0 => []
  | S fuel' =>
      match h !! a with
      | Some c => flat_map (fun k => k :: getChildrenDeep fuel' h k) (children c)
      | None => []
      end
  end.

(** The [Readme] object built from the remaining HTML. *)
Record Readme : Type := mkReadme {
  readme_title : string;
  readme_content : string
}.

(** [this.chapters] once [parseChapters] has put the readme in front. *)
Record book : Type := mkBook {
  book_readme : Readme;
  book_chapters : list addr
}.

Record titleInfo : Type := mkInfo {
  info_type : option string;
  info_titleId : string;
  info_title : string
}.

(** [getChapterSelector], xml.js 230-232: the text [*[id="${titleId}"]]. *)
Definition getChapterSelector (i : titleInfo) : string :=
  "*[id=" +:+ dquote +:+ info_titleId i +:+ dquote +:+ "]".

Section WithCheerio.

(** cheerio, as far as the converter's methods go through it with a text
    of their own making.

    [load] is [cheerio.load]: the document (the children of its root) that
    the parser reads from a text.

    [css] is the reading of a selector text by [$(selector)] and
    [$.html(selector)]: [None] when the text is no selector (css-what throws
    a [SyntaxError]), the selector it stands for otherwise.  The selectors
    that xml.js writes out in full ([div.toc], [section], [:header], ...)
    are given as selectors. *)
Variable load : string → list node.
Variable css : string → option selector.

(** [extractHTML(selector)], xml.js 165-173. *)
Definition extractHTML (selector : string) : M string :=
  fun st =>
    let doc := load (_html st) in                        (* cheerio.load(this._html) *)
    match css selector with                               (* $(selector) *)
    | None => Throw "SyntaxError" st
    | Some s =>
        let elementHTML := outerHTML (select_all s doc) in  (* $.html(selector) *)
        let doc' := detach_all s doc in                     (* $element.remove() *)
        Ok elementHTML (mkState (outerHTML doc') (heap st)) (* this._html = $.html() *)
    end.

(** [setTitlesId], xml.js 180-203, over the readme and every chapter: the
    content is loaded, the loop runs, and [$.html()] is stored. *)
Definition setTitlesId (b : book) : M book :=
  let r := book_readme b in
  foldM (fun _ a =>
           assign a (fun c => set_content (outerHTML (setIds (load (content c)))) c))
        tt (book_chapters b) ;;;
  ret (mkBook (mkReadme (readme_title r) (outerHTML (setIds (load (readme_content r)))))
              (book_chapters b)).

(** [utils.idFromRef] (src/converters/utils.js is not part of the sources):
    from the [href] of a TOC link, [None] when the link or the attribute is
    missing, to the anchor id. *)
Variable idFromRef : option string → string.

(** [extractTOCTitleInfo], xml.js 213-222. *)
Definition extractTOCTitleInfo (li : list node) : titleInfo :=
  let span := children_sel (SelTag "span") li in
  let link := children_sel (SelTag "a") span in
  mkInfo (sel_attr "class" span) (idFromRef (sel_attr "href" link)) (sel_text link).

(** The body of the [each] callback of [parseList], xml.js 118-140;
    [rec] is [this.parseList].  The record given to [newChapter] is the
    object after the assignments of xml.js 121-129; [children], [content],
    [previous] and [next] start out as the constructor leaves them
    (modelled from the spec: empty, and no sibling). *)
Definition parseItem (rec : list node → nat → option addr → M (list addr))
    (lvl : nat) (par : option addr) (chapters : list addr) (li : node) : M (list addr) :=
  let info := extractTOCTitleInfo [li] in
  chapter <- newChapter
    (mkChapter lvl par (info_type info) (info_titleId info) (info_title info)
               (length chapters + 1) [] "" None None) ;;
  let sub := children_sel (SelTag "ul") [li] in
  subs <- rec sub (lvl + 1) (Some chapter) ;;
  assign chapter (set_children subs) ;;;
  html <- extractHTML (getChapterSelector info) ;;
  assign chapter (set_content html) ;;;
  ret (chapters ++ [chapter]).

(** "Set siblings", xml.js 143-153. *)
Definition linkSibling (chapters : list addr) (index : nat) (chapter : addr) : M unit :=
  (if Nat.ltb 0 index
   then assign chapter (set_previous (chapters !! (index - 1)))
   else ret tt) ;;;
  (if Nat.ltb (index + 1) (length chapters)
   then assign chapter (set_next (chapters !! (index + 1)))
   else ret tt).

Definition setSiblings (chapters : list addr) : M unit :=
  eachi (linkSibling chapters) 0 chapters.

(** [parseList], xml.js 110-156.  The recursion follows the nesting of the
    TOC list; [fuel] bounds that nesting.  (The document that xml.js 117
    loads is used for nothing but wrapping the list items.) *)
Fixpoint parseList_fuel (fuel : nat) (ul : list node) (lvl : nat) (par : option addr)
    : M (list addr) :=
  match fuel with
  | 0 => ret []
  | S fuel' =>
      chapters <- foldM (parseItem (parseList_fuel fuel') lvl par) []
                        (children_sel (SelTag "li") ul) ;;
      setSiblings chapters ;;;
      ret chapters
  end.

Fixpoint height (n : node) : nat :=
  match n with
  | Elem _ _ ks => S (fold_right (fun k m => Nat.max (height k) m) 0 ks)
  | _ => 0
  end.

Definition height_all (f : list node) : nat :=
  fold_right (fun k m => Nat.max (height k) m) 0 f.

Definition parseList (ul : list node) (lvl : nat) (par : option addr) : M (list addr) :=
  parseList_fuel (height_all ul) ul lvl par.

(** Modelled from the spec: [Readme.addTitleToContent]
    (src/converters/types/readme.js is not part of the sources) puts the
    document title into the front-matter content. *)
Variable addTitleToContent : string → string → string.

(** The flattening of [parseChapters], xml.js 85-88. *)
Definition flatten (chapters : list addr) : M (list addr) :=
  fun st =>
    Ok (flat_map (fun a => a :: getChildrenDeep (length (heap st)) (heap st) a) chapters) st.

(** [parseChapters] up to the point where the readme is put in front of the
    chapters, xml.js 66-98: the contents are still as extracted.  Filenames
    are the business of an external collaborator and are left out. *)
Definition collectChapters (documentTitle : string) : M book :=
  fun st =>
    let doc := load (_html st) in                                      (* $ *)
    let toc := select_all (SelTagClass "div" "toc") doc in             (* $toc *)
    let st1 := mkState (outerHTML (detach_all (SelTagClass "div" "toc") doc)) (heap st) in
    let tocList := children_sel (SelTagClass "ul" "toc") toc in
    (chapters <- parseList tocList 0 None ;;
     chapters <- flatten chapters ;;
     fun st2 =>
       Ok (mkBook (mkReadme documentTitle (addTitleToContent documentTitle (_html st2)))
                  chapters) st2) st1.

(** [parseChapters], xml.js 66-100. *)
Definition parseChapters (documentTitle : string) : M book :=
  b <- collectChapters documentTitle ;;
  setTitlesId b.

End WithCheerio.

End Converter.

(** ** When the converter's texts are read back as they were written

    [extractHTML] and [setTitlesId] write a document out and the next call
    loads the text again.  What the claims about extraction say of the
    document holds as long as every such text is read back as the document
    it was written from, and every selector text is read as the id test it
    was written for; these are conditions on the input document and on its
    table of contents. *)

Module ReadBack.
Import Dom Converter.

(** The documents the converter makes of the document [D] on its way: what
    is left and what is taken when the element with some id is extracted,
    what the parser makes of a document written out (its text nodes
    merged), what the loop of [setTitlesId] makes of a content, and the
    document of the empty text. *)
Inductive made_of (D : list node) : list node → Prop :=
| made_whole : made_of D D
| made_empty : made_of D []
| made_reparse f : made_of D f → made_of D (reparse f)
| made_detach v f : made_of D f → made_of D (detach_all (SelIdEq v) f)
| made_select v f : made_of D f → made_of D (select_all (SelIdEq v) f)
| made_setIds f : made_of D f → made_of D (setIds f).

(** [load] reads every document made of [D] back from its text: the
    serializer's text for it gives the document again, adjacent text nodes
    merged and empty ones dropped as the parser does. *)
Definition reads_back (load : string → list node) (D : list node) : Prop :=
  ∀ f, made_of D f → load (outerHTML f) = reparse f.

(** [css] reads the selector text made for the TOC item [li] as the test
    [id = titleId]. *)
Definition anchor_read (css : string → option selector)
    (idFromRef : option string → string) (li : node) : Prop :=
  css (getChapterSelector (extractTOCTitleInfo idFromRef [li]))
  = Some (SelIdEq (info_titleId (extractTOCTitleInfo idFromRef [li]))).

(** So it is for every item of the TOC list [ul], at any depth. *)
Definition anchors_read (css : string → option selector)
    (idFromRef : option string → string) (ul : list node) : Prop :=
  ∀ li, li ∈ select_all (SelTag "li") ul → anchor_read css idFromRef li.

(** [css] reads the selector text made for the TOC item [li] as a selector,
    whichever: css-what does not refuse it. *)
Definition selector_read (css : string → option selector)
    (idFromRef : option string → string) (li : node) : Prop :=
  is_Some (css (getChapterSelector (extractTOCTitleInfo idFromRef [li]))).

Definition selectors_read (css : string → option selector)
    (idFromRef : option string → string) (ul : list node) : Prop :=
  ∀ li, li ∈ select_all (SelTag "li") ul → selector_read css idFromRef li.

(** The document [parseChapters] loads, its TOC container taken out, and
    the top-level TOC list. *)
Definition body (doc : list node) : list node :=
  detach_all (SelTagClass "div" "toc") doc.

Definition tocList (doc : list node) : list node :=
  children_sel (SelTagClass "ul" "toc") (select_all (SelTagClass "div" "toc") doc).

End ReadBack.

(** ** A parser and a selector reader for the examples

    The examples run [Converter] with [read] for [cheerio.load] and
    [id_css] for the reading of selector texts.  [read] reads HTML as the
    serializer writes it: tags with their attributes, values in double
    quotes or none, comments, text with the five named entities; every
    element that is not void runs to its end tag.  Like cheerio's parser it
    knows nothing special about [noscript]: what stands between its tags is
    markup like any other.  [id_css] reads [*[id="v"]] for a [v] without
    quote, backslash, angle bracket or line break as the test [id = v], and
    takes no other text: css-what ends the value at a quote, and throws
    when what follows is no selector. *)

Module Sample.
Import Dom.

(** The longest prefix of [s] without a character satisfying [stop], and
    the rest. *)
Fixpoint span (stop : ascii → bool) (s : string) : string * string :=
  match s with
  | EmptyString => (EmptyString, EmptyString)
  | String c r =>
      if stop c then (EmptyString, s)
      else let (a, b) := span stop r in (String c a, b)
  end.

Fixpoint skip_spaces (s : string) : string :=
  match s with
  | String c r => if is_space c then skip_spaces r else s
  | EmptyString => EmptyString
  end.

Definition is_char (n : nat) (c : ascii) : bool := Nat.eqb (nat_of_ascii c) n.

(** Text with [&amp;], [&lt;], [&gt;], [&quot;] and [&apos;] decoded. *)
Fixpoint unescape (s : string) : string :=
  match s with
  | EmptyString => EmptyString
  | String c r =>
      if is_char 38 c then
        match r with
        | String "a" (String "m" (String "p" (String ";" r'))) =>
            String c (unescape r')
        | String "l" (String "t" (String ";" r')) =>
            String (ascii_of_nat 60) (unescape r')
        | String "g" (String "t" (String ";" r')) =>
            String (ascii_of_nat 62) (unescape r')
        | String "q" (String "u" (String "o" (String "t" (String ";" r')))) =>
            String (ascii_of_nat 34) (unescape r')
        | String "a" (String "p" (String "o" (String "s" (String ";" r')))) =>
            String (ascii_of_nat 39) (unescape r')
        | _ => String c (unescape r)
        end
      else String c (unescape r)
  end.

(** A comment's data, up to [-->], and what follows. *)
Fixpoint comment_end (s : string) : string * string :=
  match s with
  | EmptyString => (EmptyString, EmptyString)
  | String c r =>
      match s with
      | String "-" (String "-" (String ">" r')) => (EmptyString, r')
      | _ => let (a, b) := comment_end r in (String c a, b)
      end
  end.

Definition tail (s : string) : string :=
  match s with String _ r => r | EmptyString => EmptyString end.

(** The attributes of a start tag, and what follows its [>]. *)
Fixpoint read_attrs (fuel : nat) (s : string) : list (string * string) * string :=
  match fuel with
  | 0 => ([], s)
  | S fuel' =>
      match skip_spaces s with
      | EmptyString => ([], EmptyString)
      | String c r =>
          if is_char 62 c then ([], r)
          else if is_char 47 c then read_attrs fuel' r
          else
            let (name, s1) :=
              span (fun x => is_space x || is_char 61 x || is_char 62 x || is_char 47 x)
                   (String c r) in
            match s1 with
            | String e s2 =>
                if is_char 61 e then
                  match s2 with
                  | String q s3 =>
                      if is_char 34 q then
                        let (v, s4) := span (is_char 34) s3 in
                        let (rest, s5) := read_attrs fuel' (tail s4) in
                        ((name, unescape v) :: rest, s5)
                      else
                        let (v, s4) := span (fun x => is_space x || is_char 62 x) s2 in
                        let (rest, s5) := read_attrs fuel' s4 in
                        ((name, unescape v) :: rest, s5)
                  | EmptyString => ([(name, EmptyString)], EmptyString)
                  end
                else
                  let (rest, s5) := read_attrs fuel' s1 in
                  ((name, EmptyString) :: rest, s5)
            | EmptyString => ([(name, EmptyString)], EmptyString)
            end
      end
  end.

(** The nodes up to the end tag of the element being read (or the end of
    the text), and what follows them. *)
Fixpoint read_nodes (fuel : nat) (s : string) : list node * string :=
  match fuel with
  | 0 => ([], s)
  | S fuel' =>
      match s with
      | EmptyString => ([], EmptyString)
      | String c r =>
          if is_char 60 c then
            match r with
            | String "/" _ => ([], s)
            | String "!" (String "-" (String "-" r1)) =>
                let (data, r2) := comment_end r1 in
                let (ns, r3) := read_nodes fuel' r2 in
                (Comment data :: ns, r3)
            | _ =>
                let (name, r1) :=
                  span (fun x => is_space x || is_char 62 x || is_char 47 x) r in
                let (attrs, r2) := read_attrs fuel' r1 in
                if mem_string name void_tags then
                  let (ns, r3) := read_nodes fuel' r2 in
                  (Elem name attrs [] :: ns, r3)
                else
                  let (ks, r3) := read_nodes fuel' r2 in
                  let (_, r4) := span (is_char 62) r3 in
                  let (ns, r5) := read_nodes fuel' (tail r4) in
                  (Elem name attrs ks :: ns, r5)
            end
          else
            let (t, r1) := span (is_char 60) s in
            let (ns, r2) := read_nodes fuel' r1 in
            (Text (unescape t) :: ns, r2)
      end
  end.

Definition read (s : string) : list node :=
  (read_nodes (String.length s) s).1.

(** The anchor inside [*[id="v"]]. *)
Fixpoint drop_last2 (s : string) : string :=
  match s with
  | String c ((String _ (String _ _)) as r) => String c (drop_last2 r)
  | _ => EmptyString
  end.

Definition plain_char (c : ascii) : bool :=
  negb (is_char 34 c || is_char 92 c || is_char 60 c || is_char 62 c ||
        is_char 10 c || is_char 13 c) &&
  Nat.ltb (nat_of_ascii c) 128.

Fixpoint plain (s : string) : bool :=
  match s with
  | EmptyString => true
  | String c r => plain_char c && plain r
  end.

Definition id_css (text : string) : option selector :=
  match text with
  | String "*" (String "[" (String "i" (String "d" (String "=" (String q r))))) =>
      let v := drop_last2 r in
      if is_char 34 q && String.eqb r (v +:+ dquote +:+ "]") && plain v
      then Some (SelIdEq v)
      else None
  | _ => None
  end.

(** An [idFromRef]: the part of the reference after its ['#'], the empty id
    when there is no reference. *)
Definition idAfterHash (href : option string) : string :=
  match href with
  | Some (String c rest) => if Ascii.eqb c "#" then rest else String c rest
  | _ => ""
  end.

(** An [addTitleToContent] that leaves the content as it is. *)
Definition keepContent (documentTitle : string) (content : string) : string :=
  content.

(** Equality of documents, decided. *)
Fixpoint attrs_eqb (a b : list (string * string)) : bool :=
  match a, b with
  | [], [] => true
  | (k, v) :: a', (k', v') :: b' => String.eqb k k' && String.eqb v v' && attrs_eqb a' b'
  | _, _ => false
  end.

Fixpoint node_eqb (m n : node) : bool :=
  match m, n with
  | Text x, Text y => String.eqb x y
  | Comment x, Comment y => String.eqb x y
  | Elem t a ks, Elem t' a' ks' =>
      String.eqb t t' && attrs_eqb a a' &&
      (fix all (l l' : list node) : bool :=
         match l, l' with
         | [], [] => true
         | k :: l1, k' :: l1' => node_eqb k k' && all l1 l1'
         | _, _ => false
         end) ks ks'
  | _, _ => false
  end.

Fixpoint forest_eqb (f g : list node) : bool :=
  match f, g with
  | [], [] => true
  | m :: f', n :: g' => node_eqb m n && forest_eqb f' g'
  | _, _ => false
  end.

End Sample.

(** ** The converter over a document that stays loaded

    The algorithm of [Converter] with the serializer and the parser taken
    out: [this._html] and the contents are documents, a selector text is the
    id test it was written for, and nothing throws.  This is what xml.js
    computes as long as every text it writes is read back as the document
    it was written from ([Refinement]); the facts about extraction order are
    proved on it and carried over to [Converter]. *)

Module InMemory.
Import Dom.

(** A [Chapter] object is known by its address in the object heap. *)
Abbreviation addr := nat (only parsing).

(** Modelled from the spec: the [Chapter] class (src/converters/types/chapter.js
    is not part of the sources).  The fields are those of the spec's
    OutlineNode; [parent], [previous] and [next] are references to other
    chapter objects, [None] standing for an unset reference; [content] is an
    HTML text. *)
Record Chapter : Type := mkChapter {
  level : nat;
  parent : option addr;
  type : option string;
  titleId : string;
  title : string;
  num : nat;
  children : list addr;
  content : list node;
  previous : option addr;
  next : option addr
}.

Definition set_children (v : list addr) (c : Chapter) : Chapter :=
  mkChapter (level c) (parent c) (type c) (titleId c) (title c) (num c)
            v (content c) (previous c) (next c).

Definition set_content (v : list node) (c : Chapter) : Chapter :=
  mkChapter (level c) (parent c) (type c) (titleId c) (title c) (num c)
            (children c) v (previous c) (next c).

Definition set_previous (v : option addr) (c : Chapter) : Chapter :=
  mkChapter (level c) (parent c) (type c) (titleId c) (title c) (num c)
            (children c) (content c) v (next c).

Definition set_next (v : option addr) (c : Chapter) : Chapter :=
  mkChapter (level c) (parent c) (type c) (titleId c) (title c) (num c)
            (children c) (content c) (previous c) v.

(** What the converter mutates: [this._html] and the chapter objects. *)
Record state : Type := mkState {
  _html : list node;
  heap : list Chapter
}.

Definition M (A : Type) : Type := state → A * state.

Definition ret {A} (x : A) : M A := fun st => (x, st).

Definition bind {A B} (m : M A) (k : A → M B) : M B :=
  fun st => let (x, st') := m st in k x st'.

Notation "x <- m ;; k" := (bind m (fun x => k))
  (at level 100, m at next level, right associativity).
Notation "m ;;; k" := (bind m (fun _ => k))
  (at level 100, right associativity).

(** [arr.each] / [arr.forEach] with an accumulator threaded through. *)
Fixpoint foldM {A B} (f : A → B → M A) (acc : A) (l : list B) : M A :=
  match l with
  | [] => ret acc
  | x :: l' => acc' <- f acc x ;; foldM f acc' l'
  end.

(** [arr.map((x, index) => ...)] run for its effects. *)
Fixpoint eachi {B} (f : nat → B → M unit) (index : nat) (l : list B) : M unit :=
  match l with
  | [] => ret tt
  | x :: l' => f index x ;;; eachi f (S index) l'
  end.

(** [new Chapter(...)]: a fresh object. *)
Definition newChapter (c : Chapter) : M addr :=
  fun st => (length (heap st), mkState (_html st) (heap st ++ [c])).

(** A field assignment [chapter.f = v]. *)
Definition assign (a : addr) (f : Chapter → Chapter) : M unit :=
  fun st => (tt, mkState (_html st) (alter f a (heap st))).

(** [extractHTML(selector)] on the loaded document. *)
Definition extractHTML (selector : Dom.selector) : M (list node) :=
  fun st =>
    let doc := _html st in                         (* cheerio.load(this._html) *)
    let elementHTML := select_all selector doc in   (* $.html(selector) *)
    let doc' := detach_all selector doc in          (* $element.remove() *)
    (elementHTML, mkState doc' (heap st)).          (* this._html = $.html() *)

Abbreviation reconcile := Converter.reconcile (only parsing).
Abbreviation setIds := Converter.setIds (only parsing).

(** Modelled from the spec: [Chapter.getChildrenDeep]
    (src/converters/types/chapter.js is not part of the sources), the
    pre-order sequence of a chapter's descendants ("each node followed
    immediately by the flattened sequence of its children"). *)
Fixpoint getChildrenDeep (fuel : nat) (h : list Chapter) (a : addr) : list addr :=
  match fuel with
  | 0 => []
  | S fuel' =>
      match h !! a with
      | Some c => flat_map (fun k => k :: getChildrenDeep fuel' h k) (children c)
      | None => []
      end
  end.

(** The [Readme] object built from the remaining HTML. *)
Record Readme : Type := mkReadme {
  readme_title : string;
  readme_content : list node
}.

(** [this.chapters] once [parseChapters] has put the readme in front. *)
Record book : Type := mkBook {
  book_readme : Readme;
  book_chapters : list addr
}.

Record titleInfo : Type := mkInfo {
  info_type : option string;
  info_titleId : string;
  info_title : string
}.

(** The selector that [getChapterSelector] writes. *)
Definition getChapterSelector (i : titleInfo) : Dom.selector :=
  SelIdEq (info_titleId i).

Section WithUtils.

(** [utils.idFromRef] (src/converters/utils.js is not part of the sources):
    from the [href] of a TOC link, [None] when the link or the attribute is
    missing, to the anchor id. *)
Variable idFromRef : option string → string.

(** [extractTOCTitleInfo], xml.js 213-222. *)
Definition extractTOCTitleInfo (li : list node) : titleInfo :=
  let span := children_sel (SelTag "span") li in
  let link := children_sel (SelTag "a") span in
  mkInfo (sel_attr "class" span) (idFromRef (sel_attr "href" link)) (sel_text link).

(** The body of the [each] callback of [parseList], xml.js 118-140;
    [rec] is [this.parseList].  The record given to [newChapter] is the
    object after the assignments of xml.js 121-129; [children], [content],
    [previous] and [next] start out as the constructor leaves them
    (modelled from the spec: empty, and no sibling). *)
Definition parseItem (rec : list node → nat → option addr → M (list addr))
    (lvl : nat) (par : option addr) (chapters : list addr) (li : node) : M (list addr) :=
  let info := extractTOCTitleInfo [li] in
  chapter <- newChapter
    (mkChapter lvl par (info_type info) (info_titleId info) (info_title info)
               (length chapters + 1) [] [] None None) ;;
  let sub := children_sel (SelTag "ul") [li] in
  subs <- rec sub (lvl + 1) (Some chapter) ;;
  assign chapter (set_children subs) ;;;
  html <- extractHTML (getChapterSelector info) ;;
  assign chapter (set_content html) ;;;
  ret (chapters ++ [chapter]).

(** "Set siblings", xml.js 143-153. *)
Definition linkSibling (chapters : list addr) (index : nat) (chapter : addr) : M unit :=
  (if Nat.ltb 0 index
   then assign chapter (set_previous (chapters !! (index - 1)))
   else ret tt) ;;;
  (if Nat.ltb (index + 1) (length chapters)
   then assign chapter (set_next (chapters !! (index + 1)))
   else ret tt).

Definition setSiblings (chapters : list addr) : M unit :=
  eachi (linkSibling chapters) 0 chapters.

(** [parseList], xml.js 110-156.  The recursion follows the nesting of the
    TOC list; [fuel] bounds that nesting. *)
Fixpoint parseList_fuel (fuel : nat) (ul : list node) (lvl : nat) (par : option addr)
    : M (list addr) :=
  match fuel with
  | 0 => ret []
  | S fuel' =>
      chapters <- foldM (parseItem (parseList_fuel fuel') lvl par) []
                        (children_sel (SelTag "li") ul) ;;
      setSiblings chapters ;;;
      ret chapters
  end.

Abbreviation height := Converter.height (only parsing).
Abbreviation height_all := Converter.height_all (only parsing).

Definition parseList (ul : list node) (lvl : nat) (par : option addr) : M (list addr) :=
  parseList_fuel (height_all ul) ul lvl par.

(** Modelled from the spec: [Readme.addTitleToContent]
    (src/converters/types/readme.js is not part of the sources) puts the
    document title into the front-matter content. *)
Variable addTitleToContent : string → list node → list node.

(** The flattening of [parseChapters], xml.js 85-88. *)
Definition flatten (chapters : list addr) : M (list addr) :=
  fun st =>
    (flat_map (fun a => a :: getChildrenDeep (length (heap st)) (heap st) a) chapters, st).

(** [parseChapters] up to the point where the readme is put in front of the
    chapters, xml.js 66-98: the contents are still as extracted.  Filenames
    are the business of an external collaborator and are left out. *)
Definition collectChapters (documentTitle : string) : M book :=
  fun st =>
    let toc := select_all (SelTagClass "div" "toc") (_html st) in      (* $toc *)
    let st1 := mkState (detach_all (SelTagClass "div" "toc") (_html st)) (heap st) in
    let tocList := children_sel (SelTagClass "ul" "toc") toc in
    (chapters <- parseList tocList 0 None ;;
     chapters <- flatten chapters ;;
     fun st2 =>
       (mkBook (mkReadme documentTitle (addTitleToContent documentTitle (_html st2)))
               chapters, st2)) st1.

End WithUtils.

End InMemory.

(** ** cheerio over a node store, and [processHTML] *)

Module Cheerio.
Import Dom.

(** A DOM node as cheerio holds it: its kind, its attributes and the
    handles of its children.  A node is in the children of at most one
    other node, its parent (or the root of its fragment); a node that is in
    nobody's children is detached. *)
Inductive kind : Type :=
| KRoot
| KText (data : string)
| KComment (data : string)
| KTag (name : string).

Record dnode : Type := mkD {
  kind_of : kind;
  attribs_of : list (string * string);
  children_of : list nat
}.

(** The store: a handle is an index, a new node gets the next index. *)
Abbreviation store := (list dnode) (only parsing).

(** A cheerio call returns, or throws (a [TypeError]). *)
Inductive res (A : Type) : Type :=
| Ok (x : A) (σ : store)
| Throw (e : string).
Arguments Ok {A} x σ.
Arguments Throw {A} e.

Definition M (A : Type) : Type := store → res A.

Definition ret {A} (x : A) : M A := fun σ => Ok x σ.

Definition throw {A} (e : string) : M A := fun _ => Throw e.

Definition bind {A B} (m : M A) (k : A → M B) : M B :=
  fun σ => match m σ with
           | Ok x σ' => k x σ'
           | Throw e => Throw e
           end.

Notation "x <- m ;; k" := (bind m (fun x => k))
  (at level 100, m at next level, right associativity).
Notation "m ;;; k" := (bind m (fun _ => k))
  (at level 100, right associativity).

Definition gets {A} (f : store → A) : M A := fun σ => Ok (f σ) σ.

Definition modify (f : store → store) : M unit := fun σ => Ok tt (f σ).

(** [$x.each(...)]. *)
Fixpoint each {B} (l : list B) (f : B → M unit) : M unit :=
  match l with
  | [] => ret tt
  | x :: l' => f x ;;; each l' f
  end.

Fixpoint foldM {A B} (f : A → B → M A) (acc : A) (l : list B) : M A :=
  match l with
  | [] => ret acc
  | x :: l' => acc' <- f acc x ;; foldM f acc' l'
  end.

(** *** Reading the store *)

Definition children (σ : store) (h : nat) : list nat :=
  match σ !! h with Some d => children_of d | None => [] end.

(** The node behind a handle, without what is below it. *)
Definition shallow (σ : store) (h : nat) : node :=
  match σ !! h with
  | Some (mkD (KTag t) a _) => Elem t a []
  | Some (mkD (KText s) _ _) => Text s
  | Some (mkD (KComment s) _ _) => Comment s
  | _ => Text ""
  end.

Definition isTag (σ : store) (h : nat) : bool := is_tag (shallow σ h).

Definition mem (h : nat) (l : list nat) : bool := existsb (Nat.eqb h) l.

(** [el.parent || el.root]: the node that has [h] among its children. *)
Fixpoint find_parent (h : nat) (i : nat) (l : list dnode) : option nat :=
  match l with
  | [] => None
  | d :: l' => if mem h (children_of d) then Some i else find_parent h (S i) l'
  end.

Definition parent_of (σ : store) (h : nat) : option nat := find_parent h 0 σ.

(** [array.indexOf(h)]; the length of the array stands for "not found". *)
Fixpoint index_of (h : nat) (l : list nat) : nat :=
  match l with
  | [] => 0
  | x :: l' => if Nat.eqb h x then 0 else S (index_of h l')
  end.

Definition without (h : nat) (l : list nat) : list nat :=
  List.filter (fun x => negb (Nat.eqb h x)) l.

(** The proper descendants of [h] in document order.  [fuel] bounds the
    depth; no tree in a store is deeper than the store is long. *)
Fixpoint descendants (fuel : nat) (σ : store) (h : nat) : list nat :=
  match fuel with
  | 0 => []
  | S fuel' => flat_map (fun c => c :: descendants fuel' σ c) (children σ h)
  end.

(** The tree below a handle, as a value. *)
Fixpoint snapshot (fuel : nat) (σ : store) (h : nat) : node :=
  match fuel with
  | 0 => shallow σ h
  | S fuel' =>
      match σ !! h with
      | Some (mkD (KTag t) a cs) => Elem t a (map (snapshot fuel' σ) cs)
      | _ => shallow σ h
      end
  end.

(** The HTML of the children of [h]. *)
Definition inner (σ : store) (h : nat) : list node :=
  map (snapshot (length σ) σ) (children σ h).

(** *** Writing the store *)

Definition set_children (h : nat) (cs : list nat) (σ : store) : store :=
  alter (fun d => mkD (kind_of d) (attribs_of d) cs) h σ.

Definition set_attribs (h : nat) (f : list (string * string) → list (string * string))
    (σ : store) : store :=
  alter (fun d => mkD (kind_of d) (f (attribs_of d)) (children_of d)) h σ.

(** Take [h] out of the children of its parent, if it has one. *)
Definition detach_node (h : nat) (σ : store) : store :=
  match parent_of σ h with
  | Some p => set_children p (without h (children σ p)) σ
  | None => σ
  end.

(** Put the tree [t] into the store; the result is its handle. *)
Fixpoint build (t : node) (σ : store) : nat * store :=
  match t with
  | Text s => (length σ, σ ++ [mkD (KText s) [] []])
  | Comment s => (length σ, σ ++ [mkD (KComment s) [] []])
  | Elem name a ks =>
      let '(hs, σ') :=
        (fix build_all (l : list node) (σ : store) : list nat * store :=
           match l with
           | [] => ([], σ)
           | k :: l' =>
               let '(h, σ1) := build k σ in
               let '(hs, σ2) := build_all l' σ1 in
               (h :: hs, σ2)
           end) ks σ in
      (length σ', σ' ++ [mkD (KTag name) a hs])
  end.

Fixpoint build_all (l : list node) (σ : store) : list nat * store :=
  match l with
  | [] => ([], σ)
  | k :: l' =>
      let '(h, σ1) := build k σ in
      let '(hs, σ2) := build_all l' σ1 in
      (h :: hs, σ2)
  end.

(** [cheerio.load(html)]: the document root is handle 0. *)
Definition load (html : list node) : store :=
  let '(hs, σ) := build_all (reparse html) [mkD KRoot [] []] in
  set_children 0 hs σ.

(** *** The cheerio calls [processHTML] makes

    A cheerio object is the list of the handles it wraps. *)

(** [$(selector)]. *)
Definition select_ (s : selector) : M (list nat) :=
  gets (fun σ => List.filter (fun h => matches s (shallow σ h))
                             (descendants (length σ) σ 0)).

(** [$x.find(selector)]. *)
Definition find_ (s : selector) (x : list nat) : M (list nat) :=
  gets (fun σ => flat_map (fun el => List.filter (fun h => matches s (shallow σ h))
                                                 (descendants (length σ) σ el)) x).

(** [$x.first()]. *)
Definition first_ (x : list nat) : list nat := take 1 x.

(** [$x.children()]: the element children. *)
Definition children_ (x : list nat) : M (list nat) :=
  gets (fun σ => flat_map (fun el => List.filter (isTag σ) (children σ el)) x).

(** [$x.is(selector)]. *)
Definition is_ (s : selector) (x : list nat) : M bool :=
  gets (fun σ => existsb (fun h => matches s (shallow σ h)) x).

(** [$('<tag></tag>')]: a new element in a fragment of its own. *)
Definition create (tag : string) : M (list nat) :=
  fun σ =>
    let el := length σ in
    Ok [el] (σ ++ [mkD (KTag tag) [] []; mkD KRoot [] [el]]).

(** [$x.html()]: [None] is [null], what an empty [$x] gives. *)
Definition html_get (x : list nat) : M (option (list node)) :=
  gets (fun σ => match x with
                 | [] => None
                 | el :: _ => Some (inner σ el)
                 end).

(** [$x.html(str)].  For every element of [$x] the call evaluates
    [str.cheerio], which throws when [str] is [null]; then the children are
    let go and the parsed [str] takes their place. *)
Definition html_set (x : list nat) (str : option (list node)) : M unit :=
  each x (fun el =>
    match str with
    | None => throw "TypeError: Cannot read property 'cheerio' of null"
    | Some f =>
        fun σ =>
          let '(hs, σ1) := build_all (reparse f) σ in
          Ok tt (set_children el hs σ1)
    end).

(** [str.trim()], which throws on [null].  On an HTML text kept as a forest,
    trimming takes the white space off the leading and the trailing text
    node. *)
Fixpoint trim_left (s : string) : string :=
  match s with
  | String c s' => if is_space c || Nat.eqb (nat_of_ascii c) 11 then trim_left s' else s
  | EmptyString => s
  end.

Definition string_rev (s : string) : string :=
  string_of_list_ascii (rev (list_ascii_of_string s)).

Definition trim_right (s : string) : string := string_rev (trim_left (string_rev s)).

Definition text_or_nothing (s : string) (rest : list node) : list node :=
  match s with
  | EmptyString => rest
  | _ => Text s :: rest
  end.

Definition trim_first (f : list node) : list node :=
  match f with
  | Text s :: rest => text_or_nothing (trim_left s) rest
  | _ => f
  end.

Definition trim_last (f : list node) : list node :=
  match rev f with
  | Text s :: rest => rev (text_or_nothing (trim_right s) rest)
  | _ => f
  end.

Definition trim (str : option (list node)) : M (list node) :=
  match str with
  | None => throw "TypeError: Cannot read property 'trim' of null"
  | Some f => ret (trim_last (trim_first (reparse f)))
  end.

(** [$x.text(str)]: one text node takes the place of the children. *)
Definition text_set (x : list nat) (str : string) : M unit :=
  each x (fun el =>
    fun σ => Ok tt (set_children el [length σ] (σ ++ [mkD (KText str) [] []]))).

(** [$x.attr(name)]: [None] is [undefined]. *)
Definition attr_get (name : string) (x : list nat) : M (option string) :=
  gets (fun σ => match x with
                 | [] => None
                 | el :: _ => attr name (shallow σ el)
                 end).

(** [$x.attr(name, value)]; with [value] undefined the call is the getter
    and sets nothing. *)
Definition attr_set (name : string) (value : option string) (x : list nat) : M unit :=
  match value with
  | None => ret tt
  | Some v => each x (fun el => modify (set_attribs el (assoc_set name v)))
  end.

(** [$x.removeAttr(name)]. *)
Definition removeAttr_ (name : string) (x : list nat) : M unit :=
  each x (fun el => modify (set_attribs el (assoc_del name))).

(** [$x.remove()]. *)
Definition remove_ (x : list nat) : M unit :=
  each x (fun el => modify (detach_node el)).

(** [$x.clone()]. *)
Definition clone_ (x : list nat) : M (list nat) :=
  fun σ =>
    let '(hs, σ') := build_all (map (snapshot (length σ) σ) x) σ in
    Ok hs σ'.

(** cheerio's [uniqueSplice(parent.children, index, count, elems, parent)]:
    the new elements leave the children they are in, then take the place of
    [count] children of [parent] from [index] on. *)
Definition splice (parent index count : nat) (elems : list nat) : M unit :=
  index' <- foldM (fun index el =>
              fun σ =>
                match parent_of σ el with
                | Some old =>
                    let at_ := index_of el (children σ old) in
                    Ok (if Nat.eqb old parent && Nat.ltb at_ index then index - 1 else index)
                       (set_children old (without el (children σ old)) σ)
                | None => Ok index σ
                end) index elems ;;
  modify (fun σ =>
    let cs := children σ parent in
    set_children parent (take index' cs ++ elems ++ drop (index' + count) cs) σ).

(** [$x.append($content)] and [$x.prepend($content)]: the content goes to
    the last element of [$x], clones of it to the others. *)
Fixpoint insert_each (where_ : store → nat → nat) (x content : list nat) : M unit :=
  match x with
  | [] => ret tt
  | el :: x' =>
      dom <- match x' with [] => ret content | _ => clone_ content end ;;
      index <- gets (fun σ => where_ σ el) ;;
      splice el index 0 dom ;;;
      insert_each where_ x' content
  end.

Definition append_ (x content : list nat) : M unit :=
  insert_each (fun σ el => length (children σ el)) x content.

Definition prepend_ (x content : list nat) : M unit :=
  insert_each (fun _ _ => 0) x content.

(** [$x.replaceWith($content)]. *)
Definition replaceWith_ (x content : list nat) : M unit :=
  each x (fun el =>
    p <- gets (fun σ => parent_of σ el) ;;
    match p with
    | None => ret tt
    | Some parent =>
        each content (fun c => modify (detach_node c)) ;;;
        index <- gets (fun σ => index_of el (children σ parent)) ;;
        splice parent index 1 content
    end).

(** [$x.wrap($wrapper)]: every element of [$x] becomes the only child of
    the wrapper (of a clone of it, but for the last element), which takes
    the element's place. *)
Fixpoint wrap_ (x wrapper : list nat) : M unit :=
  match x with
  | [] => ret tt
  | el :: x' =>
      p <- gets (fun σ => parent_of σ el) ;;
      match p with
      | None => throw "TypeError: Cannot read property 'children' of null"
      | Some parent =>
          dom <- match x' with [] => ret wrapper | _ => clone_ wrapper end ;;
          index <- gets (fun σ => index_of el (children σ parent)) ;;
          match dom with
          | [] => ret tt
          | w :: _ =>
              modify (detach_node el) ;;;
              modify (set_children w [el]) ;;;
              splice parent index 0 [w]
          end ;;;
          wrap_ x' wrapper
      end
  end.

(** [$x.insertBefore($target)]: [$x] is removed and a clone of it is put
    before every target; the clones are returned. *)
Definition insertBefore_ (x target : list nat) : M (list nat) :=
  remove_ x ;;;
  foldM (fun clones el =>
           cloned <- clone_ x ;;
           p <- gets (fun σ => parent_of σ el) ;;
           match p with
           | None => throw "TypeError: Cannot read property 'children' of null"
           | Some parent =>
               index <- gets (fun σ => index_of el (children σ parent)) ;;
               splice parent index 0 cloned ;;;
               ret (clones ++ cloned)
           end) [] target.

(** [$x.prev()]: the element sibling just before. *)
Definition prev_tag (σ : store) (el : nat) : list nat :=
  match parent_of σ el with
  | Some parent =>
      let before := take (index_of el (children σ parent)) (children σ parent) in
      take 1 (rev (List.filter (isTag σ) before))
  | None => []
  end.

Definition prev_ (x : list nat) : M (list nat) :=
  gets (fun σ => flat_map (prev_tag σ) x).

(** [$.html()]. *)
Definition html_doc : M (list node) := gets (fun σ => inner σ 0).

(** What [s1 + s2] is for two results of [.html()]: a [null] operand reads
    as the text [null] next to a string. *)
Definition html_plus (a b : option (list node)) : option (list node) :=
  match a, b with
  | Some f, Some g => Some (f ++ g)
  | Some f, None => Some (f ++ [Text "null"])
  | None, Some g => Some (Text "null" :: g)
  | None, None => Some [Text "0"]
  end.

(** The upward arrow [&#8593;], in UTF-8. *)
Definition upwards_arrow : string :=
  String (ascii_of_nat 226) (String (ascii_of_nat 134) (String (ascii_of_nat 145) "")).

(** *** [processHTML], xml.js 241-331, rule by rule *)

(** xml.js 246-253. *)
Definition literallayout_rule : M unit :=
  els <- select_ (SelClass "literallayout") ;;
  each els (fun el =>
    code <- create "code" ;;
    p <- find_ (SelTag "p") [el] ;;
    h <- html_get (first_ p) ;;
    t <- trim h ;;
    html_set code (Some t) ;;;
    pre <- create "pre" ;;
    wrap_ code pre ;;;
    replaceWith_ [el] pre).

(** xml.js 256-261. *)
Definition programlisting_callback (el : nat) : M unit :=
  code <- create "code" ;;
  h <- html_get [el] ;;
  html_set code h ;;;
  html_set [el] (Some []) ;;;
  append_ [el] code.

Definition programlisting_rule : M unit :=
  els <- select_ (SelOr (SelTagClass "pre" "programlisting") (SelTagClass "pre" "screen")) ;;
  each els programlisting_callback.

(** xml.js 264-278. *)
Definition example_rule : M unit :=
  els <- select_ (SelTagClass "div" "example") ;;
  each els (fun el =>
    id <- attr_get "id" [el] ;;
    removeAttr_ "id" [el] ;;;
    h6 <- create "h6" ;;
    attr_set "id" id h6 ;;;
    divTitle <- find_ (SelTagClass "div" "example-title") [el] ;;
    h <- html_get divTitle ;;
    html_set h6 h ;;;
    replaceWith_ divTitle h6).

(** xml.js 281-303. *)
Definition footnote_ref_callback (el : nat) : M unit :=
  children <- children_ [el] ;;
  if negb (Nat.eqb (length children) 1) then ret tt
  else
    let sup := first_ children in
    is_sup <- is_ (SelTag "sup") sup ;;
    if negb is_sup then ret tt
    else
      insertBefore_ sup [el] ;;;
      sup <- prev_ [el] ;;
      h <- html_get sup ;;
      html_set [el] h ;;;
      text_set sup "" ;;;
      append_ sup [el].

Definition footnote_ref_rule : M unit :=
  els <- select_ (SelOr (SelTagClass "a" "footnote") (SelTagClass "a" "footnoteref")) ;;
  each els footnote_ref_callback.

(** xml.js 306-328. *)
Definition footnote_rule : M unit :=
  els <- select_ (SelTagClass "div" "footnote") ;;
  each els (fun el =>
    p <- find_ (SelTag "p") [el] ;;
    a <- find_ (SelTag "a") [el] ;;
    sup <- find_ (SelTag "sup") [el] ;;
    let p := first_ p in
    let a := first_ a in
    let sup := first_ sup in
    id <- attr_get "id" [el] ;;
    attr_set "id" id sup ;;;
    removeAttr_ "id" [el] ;;;
    remove_ a ;;;
    hs <- html_get sup ;;
    hp <- html_get p ;;
    html_set sup (html_plus hs hp) ;;;
    html_set p (Some []) ;;;
    prepend_ p sup ;;;
    html_set a (Some [Text upwards_arrow]) ;;;
    append_ sup a).

(** [processHTML(html)]: the rewritten HTML text, or the exception that
    ended the pass. *)
Definition processHTML (html : list node) : res (list node) :=
  (literallayout_rule ;;;
   programlisting_rule ;;;
   example_rule ;;;
   footnote_ref_rule ;;;
   footnote_rule ;;;
   html_doc) (load html).

(** The text a pass returns, where it returns. *)
Definition returned (r : res (list node)) : option string :=
  match r with
  | Ok f _ => Some (outerHTML f)
  | Throw _ => None
  end.

End Cheerio.

(** ** Facts about forests *)

Module DomFacts.
Import Dom.

(** What a document is made of, once the nesting is set aside: its
    elements, each as its tag and attributes, its comments, and the
    characters of its text. *)
Inductive label : Type :=
| LChar (c : ascii)
| LComment (data : string)
| LElem (name : string) (attribs : list (string * string)).

Fixpoint labels (n : node) : list label :=
  match n with
  | Text s => map LChar (list_ascii_of_string s)
  | Comment s => [LComment s]
  | Elem t a ks => LElem t a :: flat_map labels ks
  end.

Definition labels_all (f : list node) : list label := flat_map labels f.

Lemma matches_tag s n : matches s n = true → is_tag n = true.
Proof. destruct s; simpl; intros H; apply andb_true_iff in H; tauto. Qed.

Lemma matches_IdEq v t a ks :
  matches (SelIdEq v) (Elem t a ks) = true ↔ assoc "id" a = Some v.
Proof.
  simpl. destruct (assoc "id" a) as [i|]; [|split; discriminate].
  destruct (String.eqb_spec i v); split; congruence.
Qed.

Lemma flat_map_nil {A B} (f : A → list B) (l : list A) :
  Forall (fun x => f x = []) l → flat_map f l = [].
Proof. induction 1 as [|x l Hx _ IH]; simpl; [done|]. by rewrite Hx, IH. Qed.

Lemma flat_map_id_singleton {A} (f : A → list A) (l : list A) :
  Forall (fun x => f x = [x]) l → flat_map f l = l.
Proof. induction 1 as [|x l Hx _ IH]; simpl; [done|]. by rewrite Hx, IH. Qed.

Lemma elem_of_flat_map {A B} (f : A → list B) (l : list A) (y : B) :
  y ∈ flat_map f l ↔ ∃ x, x ∈ l ∧ y ∈ f x.
Proof.
  rewrite !list_elem_of_In, in_flat_map.
  split; intros (x & H1 & H2); exists x; by rewrite ?list_elem_of_In in *.
Qed.

Lemma ids_all_app f g : ids_all (f ++ g) = ids_all f ++ ids_all g.
Proof. apply flat_map_app. Qed.

Lemma ids_all_cons n f : ids_all (n :: f) = ids n ++ ids_all f.
Proof. done. Qed.

Lemma ids_Elem t a ks :
  ids (Elem t a ks) =
  match assoc "id" a with Some i => [i] | None => [] end ++ ids_all ks.
Proof. done. Qed.

(** Selecting or removing elements never brings in a new id. *)
Lemma ids_select s n : ids_all (select s n) ⊆ ids n.
Proof.
  induction n as [| |t a ks IH] using node_forall_ind; try done.
  assert (Hks : ids_all (flat_map (select s) ks) ⊆ ids_all ks).
  { clear -IH. induction IH as [|k ks Hk _ IHks]; [done|].
    cbn [flat_map]. rewrite ids_all_app, ids_all_cons. set_solver. }
  cbn [select]. rewrite ids_all_app.
  destruct (matches s (Elem t a ks)).
  - rewrite ids_all_cons. change (ids_all []) with (@nil string).
    rewrite app_nil_r. rewrite ids_Elem in *. set_solver.
  - rewrite ids_Elem. set_solver.
Qed.

Lemma ids_select_all s doc : ids_all (select_all s doc) ⊆ ids_all doc.
Proof.
  induction doc as [|n doc IH]; [done|].
  unfold select_all in *. cbn [flat_map]. rewrite ids_all_app, ids_all_cons.
  pose proof (ids_select s n). set_solver.
Qed.

Lemma ids_detach_sublist s n : ids_all (detach s n) `sublist_of` ids n.
Proof.
  induction n as [| |t a ks IH] using node_forall_ind;
    try (cbn; destruct s; done).
  assert (Hks : ids_all (flat_map (detach s) ks) `sublist_of` ids_all ks).
  { clear -IH. induction IH as [|k ks Hk _ IHks]; [done|].
    cbn [flat_map]. rewrite ids_all_app, ids_all_cons. by apply sublist_app. }
  cbn [detach]. destruct (matches s (Elem t a ks)).
  - apply sublist_nil_l.
  - rewrite ids_all_cons. change (ids_all []) with (@nil string).
    rewrite app_nil_r, !ids_Elem. by apply sublist_app.
Qed.

Lemma ids_detach_all_sublist s doc :
  ids_all (detach_all s doc) `sublist_of` ids_all doc.
Proof.
  induction doc as [|n doc IH]; [done|].
  unfold detach_all in *. cbn [flat_map]. rewrite ids_all_app, ids_all_cons.
  apply sublist_app; [apply ids_detach_sublist | done].
Qed.

Lemma ids_detach_all s doc : ids_all (detach_all s doc) ⊆ ids_all doc.
Proof. apply sublist_subseteq, ids_detach_all_sublist. Qed.

(** After the removal no element carries the id that was selected. *)
Lemma detach_removes_id v n : v ∉ ids_all (detach (SelIdEq v) n).
Proof.
  induction n as [| |t a ks IH] using node_forall_ind; try (cbn; set_solver).
  cbn [detach]. destruct (matches (SelIdEq v) (Elem t a ks)) eqn:Hm.
  - set_solver.
  - assert (Hks : v ∉ ids_all (flat_map (detach (SelIdEq v)) ks)).
    { clear -IH. induction IH as [|k ks Hk _ IHks]; [set_solver|].
      cbn [flat_map]. rewrite ids_all_app. set_solver. }
    rewrite ids_all_cons. change (ids_all []) with (@nil string).
    rewrite app_nil_r, ids_Elem.
    intros Hin. apply elem_of_app in Hin as [Hin|Hin]; [|done].
    destruct (assoc "id" a) as [i|] eqn:Ha; [|set_solver].
    apply list_elem_of_singleton in Hin. subst i.
    apply (matches_IdEq v t a ks) in Ha. congruence.
Qed.

Lemma detach_all_removes_id v doc : v ∉ ids_all (detach_all (SelIdEq v) doc).
Proof.
  induction doc as [|n doc IH]; [set_solver|].
  unfold detach_all in *. cbn [flat_map]. rewrite ids_all_app.
  pose proof (detach_removes_id v n). set_solver.
Qed.

Lemma matches_missing v t a ks :
  v ∉ ids (Elem t a ks) → matches (SelIdEq v) (Elem t a ks) = false.
Proof.
  intros Hv. destruct (matches _ _) eqn:Hm; [|done]. apply matches_IdEq in Hm.
  rewrite ids_Elem, Hm in Hv. set_solver.
Qed.

(** An id that no element carries selects nothing and removes nothing. *)
Lemma select_missing v n : v ∉ ids n → select (SelIdEq v) n = [].
Proof.
  induction n as [| |t a ks IH] using node_forall_ind; try done.
  intros Hv. cbn [select]. rewrite (matches_missing _ _ _ _ Hv).
  cbn [app]. apply flat_map_nil.
  rewrite ids_Elem in Hv. apply not_elem_of_app in Hv as [_ Hv].
  clear -IH Hv. induction IH as [|k ks Hk _ IHks]; [done|].
  rewrite ids_all_cons in Hv. apply not_elem_of_app in Hv as [??].
  constructor; auto.
Qed.

Lemma select_all_missing v doc :
  v ∉ ids_all doc → select_all (SelIdEq v) doc = [].
Proof.
  intros Hv. apply flat_map_nil. induction doc as [|n doc IH]; [done|].
  rewrite ids_all_cons in Hv. apply not_elem_of_app in Hv as [??].
  constructor; [by apply select_missing | by apply IH].
Qed.

Lemma detach_missing v n : v ∉ ids n → detach (SelIdEq v) n = [n].
Proof.
  induction n as [| |t a ks IH] using node_forall_ind; try done.
  intros Hv. cbn [detach]. rewrite (matches_missing _ _ _ _ Hv).
  do 2 f_equal. apply flat_map_id_singleton.
  rewrite ids_Elem in Hv. apply not_elem_of_app in Hv as [_ Hv].
  clear -IH Hv. induction IH as [|k ks Hk _ IHks]; [done|].
  rewrite ids_all_cons in Hv. apply not_elem_of_app in Hv as [??].
  constructor; auto.
Qed.

Lemma detach_all_missing v doc :
  v ∉ ids_all doc → detach_all (SelIdEq v) doc = doc.
Proof.
  intros Hv. apply flat_map_id_singleton. induction doc as [|n doc IH]; [done|].
  rewrite ids_all_cons in Hv. apply not_elem_of_app in Hv as [??].
  constructor; [by apply detach_missing | by apply IH].
Qed.

Lemma labels_all_app f g : labels_all (f ++ g) = labels_all f ++ labels_all g.
Proof. apply flat_map_app. Qed.

Lemma labels_all_cons n f : labels_all (n :: f) = labels n ++ labels_all f.
Proof. done. Qed.

Lemma labels_forest_split (s : selector) (ks : list node) :
  Forall (fun n => NoDup (ids n) →
            labels n ≡ₚ labels_all (select s n) ++ labels_all (detach s n)) ks →
  NoDup (ids_all ks) →
  labels_all ks ≡ₚ
    labels_all (flat_map (select s) ks) ++ labels_all (flat_map (detach s) ks).
Proof.
  induction 1 as [|k ks Hk _ IH]; intros Hnd; [done|].
  rewrite ids_all_cons in Hnd. apply NoDup_app in Hnd as (Hk1 & _ & Hks).
  cbn [flat_map]. rewrite !labels_all_app, labels_all_cons.
  rewrite (Hk Hk1), (IH Hks) at 1.
  rewrite <- !(assoc_L (++)). apply Permutation_app_head.
  rewrite !(assoc_L (++)). apply Permutation_app_tail, Permutation_app_comm.
Qed.

(** With pairwise distinct ids, the selected elements and what is left of
    the document hold every node of the document exactly once. *)
Lemma labels_split v n :
  NoDup (ids n) →
  labels n ≡ₚ labels_all (select (SelIdEq v) n) ++ labels_all (detach (SelIdEq v) n).
Proof.
  induction n as [s|s|t a ks IH] using node_forall_ind.
  1,2: intros _; cbn [select detach matches is_tag andb labels_all flat_map app];
       by rewrite app_nil_r.
  intros Hnd. cbn [select detach].
  destruct (matches (SelIdEq v) (Elem t a ks)) eqn:Hm.
  - apply matches_IdEq in Hm. rewrite ids_Elem, Hm in Hnd.
    apply NoDup_cons in Hnd as [Hv _].
    change (flat_map (select (SelIdEq v)) ks) with (select_all (SelIdEq v) ks).
    rewrite (select_all_missing _ _ Hv). cbn [app].
    rewrite labels_all_cons. change (labels_all []) with (@nil label).
    by rewrite !app_nil_r.
  - cbn [app]. rewrite labels_all_cons. change (labels_all []) with (@nil label).
    rewrite app_nil_r. cbn [labels].
    rewrite <- Permutation_middle. constructor.
    apply labels_forest_split; [done|].
    rewrite ids_Elem in Hnd. by apply NoDup_app in Hnd as (_ & _ & ?).
Qed.

Lemma labels_split_all v doc :
  NoDup (ids_all doc) →
  labels_all doc ≡ₚ
    labels_all (select_all (SelIdEq v) doc) ++ labels_all (detach_all (SelIdEq v) doc).
Proof.
  apply labels_forest_split, Forall_forall. intros n _. apply labels_split.
Qed.

(** *** Re-parsing

    Ids and labels read the same from a forest and from the forest with its
    text nodes merged. *)

Lemma append_assoc (a b c : string) : (a +:+ b) +:+ c = a +:+ (b +:+ c).
Proof.
  induction a as [|x a IH]; [reflexivity|].
  change (String x ((a +:+ b) +:+ c) = String x (a +:+ (b +:+ c))). by rewrite IH.
Qed.

Lemma chars_app a b :
  list_ascii_of_string (a +:+ b) = list_ascii_of_string a ++ list_ascii_of_string b.
Proof.
  induction a as [|x a IH]; [reflexivity|].
  change (x :: list_ascii_of_string (a +:+ b)
          = x :: (list_ascii_of_string a ++ list_ascii_of_string b)).
  by rewrite IH.
Qed.

Lemma ids_text_cons n acc : ids_all (text_cons n acc) = ids n ++ ids_all acc.
Proof.
  destruct n as [s| |]; try done. destruct s as [|x s]; [done|].
  by destruct acc as [|[b| |] rest].
Qed.

Lemma ids_reparse_node n : ids (reparse_node n) = ids n.
Proof.
  induction n as [| |t a ks IH] using node_forall_ind; try done.
  cbn [reparse_node]. rewrite !ids_Elem. f_equal.
  induction IH as [|k ks Hk _ IHks]; [done|].
  cbn [fold_right]. by rewrite ids_text_cons, Hk, IHks.
Qed.

Lemma ids_all_reparse f : ids_all (reparse f) = ids_all f.
Proof.
  induction f as [|k f IH]; [done|].
  cbn [reparse fold_right]. fold (reparse f).
  by rewrite ids_text_cons, ids_reparse_node, IH.
Qed.

Lemma labels_text_cons n acc : labels_all (text_cons n acc) = labels n ++ labels_all acc.
Proof.
  destruct n as [s| |]; try done. destruct s as [|x s]; [done|].
  destruct acc as [|[b| |] rest]; try done.
  cbn [text_cons]. rewrite !labels_all_cons. cbn [labels].
  by rewrite chars_app, map_app, (assoc_L (++)).
Qed.

Lemma labels_reparse_node n : labels (reparse_node n) = labels n.
Proof.
  induction n as [| |t a ks IH] using node_forall_ind; try done.
  cbn [reparse_node labels]. f_equal.
  change (labels_all (fold_right (fun k acc => text_cons (reparse_node k) acc) [] ks)
          = labels_all ks).
  induction IH as [|k ks Hk _ IHks]; [done|].
  cbn [fold_right]. by rewrite labels_text_cons, Hk, IHks.
Qed.

Lemma labels_all_reparse f : labels_all (reparse f) = labels_all f.
Proof.
  induction f as [|k f IH]; [done|].
  cbn [reparse fold_right]. fold (reparse f).
  by rewrite labels_text_cons, labels_reparse_node, IH.
Qed.

End DomFacts.


(** ** Merging text nodes commutes with selection and removal *)

Module ReparseFacts.
Import Dom DomFacts.

Lemma append_empty (a : string) : a +:+ "" = a.
Proof.
  induction a as [|x a IH]; [done|].
  change (String x (a +:+ "") = String x a). by rewrite IH.
Qed.

(** Consing two texts one after the other is consing their concatenation. *)
Lemma text_cons_twice a b W :
  text_cons (Text (a +:+ b)) W = text_cons (Text a) (text_cons (Text b) W).
Proof.
  destruct a as [|x a]; [done|]. destruct b as [|y b].
  { cbn [text_cons]. by rewrite append_empty. }
  destruct W as [|[w| |] W]; try done.
  cbn. by rewrite append_assoc.
Qed.

Lemma reparse_cons k f : reparse (k :: f) = text_cons (reparse_node k) (reparse f).
Proof. done. Qed.

Lemma text_cons_cases n X :
  (n = Text "" ∧ text_cons n X = X) ∨
  (∃ a b X', n = Text a ∧ X = Text b :: X' ∧ text_cons n X = Text (a +:+ b) :: X') ∨
  text_cons n X = n :: X.
Proof.
  destruct n as [a| |]; [|by right; right..].
  destruct a as [|x a]; [by left|].
  destruct X as [|[b| |] X']; [by right; right| |by right; right..].
  right. left. by exists (String x a), b, X'.
Qed.

Lemma fold_text_cons n X Z :
  fold_right text_cons Z (text_cons n X) = text_cons n (fold_right text_cons Z X).
Proof.
  destruct (text_cons_cases n X) as [[-> ->]|[(a & b & X' & -> & -> & ->) | ->]]; try done.
  cbn [fold_right]. apply text_cons_twice.
Qed.

(** The parse of [A ++ B] is made of the parses of [A] and of [B]. *)
Lemma reparse_app A B :
  reparse (A ++ B) = fold_right text_cons (reparse B) (reparse A).
Proof.
  induction A as [|k A IH]; [done|].
  cbn [app]. rewrite !reparse_cons, IH. by rewrite fold_text_cons.
Qed.

Lemma reparse_app_cong A A' B B' :
  reparse A = reparse A' → reparse B = reparse B' →
  reparse (A ++ B) = reparse (A' ++ B').
Proof. intros HA HB. by rewrite !reparse_app, HA, HB. Qed.

Lemma reparse_text_cons n X :
  reparse (text_cons n X) = text_cons (reparse_node n) (reparse X).
Proof.
  destruct (text_cons_cases n X) as [[-> ->]|[(a & b & X' & -> & -> & ->) | ->]]; try done.
  rewrite !reparse_cons. cbn [reparse_node]. apply text_cons_twice.
Qed.

Lemma reparse_twice_forest f :
  Forall (fun k => reparse_node (reparse_node k) = reparse_node k) f →
  reparse (reparse f) = reparse f.
Proof.
  induction 1 as [|k f Hk _ IH]; [done|].
  by rewrite reparse_cons, reparse_text_cons, Hk, IH.
Qed.

Lemma reparse_node_twice n : reparse_node (reparse_node n) = reparse_node n.
Proof.
  induction n as [| |t a ks IH] using node_forall_ind; try done.
  cbn [reparse_node]. f_equal. by apply reparse_twice_forest.
Qed.

(** *** Selection *)

Lemma matches_text s x : matches s (Text x) = false.
Proof. by destruct s. Qed.

Lemma matches_comment s x : matches s (Comment x) = false.
Proof. by destruct s. Qed.

Lemma matches_children s t a ks ks' :
  matches s (Elem t a ks) = matches s (Elem t a ks').
Proof. induction s as [| | | | | |s1 IH1 s2 IH2]; try done. cbn. by rewrite IH1, IH2. Qed.

Lemma select_all_cons s n f : select_all s (n :: f) = select s n ++ select_all s f.
Proof. done. Qed.

Lemma select_all_text_cons s n X :
  select_all s (text_cons n X) = select s n ++ select_all s X.
Proof.
  destruct (text_cons_cases n X) as [[-> ->]|[(a & b & X' & -> & -> & ->) | ->]]; done.
Qed.

Lemma select_reparse_forest s f :
  Forall (fun k => select s (reparse_node k) = map reparse_node (select s k)) f →
  select_all s (reparse f) = map reparse_node (select_all s f).
Proof.
  induction 1 as [|k f Hk _ IH]; [done|].
  by rewrite reparse_cons, select_all_text_cons, select_all_cons, map_app, Hk, IH.
Qed.

Lemma select_reparse_node s n :
  select s (reparse_node n) = map reparse_node (select s n).
Proof.
  induction n as [| |t a ks IH] using node_forall_ind; try done.
  cbn [reparse_node select]. rewrite map_app. f_equal.
  - rewrite (matches_children s t a _ ks). by destruct (matches s (Elem t a ks)).
  - by apply (select_reparse_forest s ks).
Qed.

Lemma select_all_reparse s f :
  select_all s (reparse f) = map reparse_node (select_all s f).
Proof. apply select_reparse_forest, Forall_forall. intros k _. apply select_reparse_node. Qed.

Lemma select_is_tag s n : Forall (fun m => is_tag m = true) (select s n).
Proof.
  induction n as [| |t a ks IH] using node_forall_ind; try (by constructor).
  cbn [select]. apply Forall_app. split.
  - destruct (matches s (Elem t a ks)); by repeat constructor.
  - induction IH as [|k ks Hk _ IHks]; [constructor|].
    cbn [flat_map]. by apply Forall_app.
Qed.

Lemma select_all_is_tag s f : Forall (fun m => is_tag m = true) (select_all s f).
Proof.
  induction f as [|k f IH]; [constructor|].
  rewrite select_all_cons. apply Forall_app. split; [apply select_is_tag|done].
Qed.

Lemma reparse_elements l :
  Forall (fun m => is_tag m = true) l → reparse l = map reparse_node l.
Proof.
  induction 1 as [|k l Hk _ IH]; [done|].
  rewrite reparse_cons, IH. by destruct k.
Qed.

(** What is selected in the parse of a document is the parse of what is
    selected in the document. *)
Lemma reparse_select_all s f :
  reparse (select_all s (reparse f)) = reparse (select_all s f).
Proof.
  rewrite select_all_reparse.
  rewrite (reparse_elements (select_all s f)) by apply select_all_is_tag.
  rewrite reparse_elements.
  - rewrite map_map. apply map_ext. intros k. apply reparse_node_twice.
  - apply Forall_map. eapply Forall_impl; [apply select_all_is_tag|].
    intros [| |t a ks]; done.
Qed.

(** *** Removal *)

Lemma detach_all_cons s n f : detach_all s (n :: f) = detach s n ++ detach_all s f.
Proof. done. Qed.

Lemma detach_text s x : detach s (Text x) = [Text x].
Proof. cbn [detach]. by rewrite matches_text. Qed.

Lemma reparse_detach_text_cons s n X :
  reparse (detach_all s (text_cons n X)) = reparse (detach s n ++ detach_all s X).
Proof.
  destruct (text_cons_cases n X) as [[-> ->]|[(a & b & X' & -> & -> & ->) | ->]].
  - by rewrite detach_text.
  - rewrite !detach_all_cons, !detach_text. cbn [app].
    rewrite !reparse_cons. cbn [reparse_node]. apply text_cons_twice.
  - done.
Qed.

Lemma reparse_detach_forest s f :
  Forall (fun k => reparse (detach s (reparse_node k)) = reparse (detach s k)) f →
  reparse (detach_all s (reparse f)) = reparse (detach_all s f).
Proof.
  induction 1 as [|k f Hk _ IH]; [done|].
  rewrite reparse_cons, reparse_detach_text_cons, detach_all_cons.
  by apply reparse_app_cong.
Qed.

Lemma reparse_detach_node s n :
  reparse (detach s (reparse_node n)) = reparse (detach s n).
Proof.
  induction n as [| |t a ks IH] using node_forall_ind; try done.
  cbn [reparse_node detach]. rewrite (matches_children s t a _ ks).
  destruct (matches s (Elem t a ks)); [done|].
  rewrite !reparse_cons. cbn [reparse_node]. do 2 f_equal.
  by apply (reparse_detach_forest s ks).
Qed.

(** What is left of the parse of a document is, once parsed, what is left
    of the document. *)
Lemma reparse_detach_all s f :
  reparse (detach_all s (reparse f)) = reparse (detach_all s f).
Proof. apply reparse_detach_forest, Forall_forall. intros k _. apply reparse_detach_node. Qed.

End ReparseFacts.
(** ** Facts about the chapter heap *)

Module HeapFacts.
Import Dom DomFacts Converter InMemory.

(** A sibling group [g] is a doubly linked chain in heap [h]: the member at
    position [i] points back to the member at [i - 1] and forward to the
    member at [i + 1], and to nothing where there is no such member. *)
Definition chain_ok (h : list Chapter) (g : list addr) : Prop :=
  ∀ i a, g !! i = Some a →
    ∃ c, h !! a = Some c ∧
         previous c = match i with 0 => None | S j => g !! j end ∧
         next c = g !! S i.

(** Everything of a chapter but its sibling links. *)
Definition core (c : Chapter) :=
  (level c, parent c, type c, titleId c, title c, num c, children c, content c).

(** The nodes held by the contents of all chapter objects. *)
Definition heap_labels (h : list Chapter) : list label :=
  flat_map (fun c => labels_all (content c)) h.

(** The nodes held by the shared document and by all contents. *)
Definition all_labels (st : state) : list label :=
  labels_all (_html st) ++ heap_labels (heap st).

Definition frame (lo : nat) (st st' : state) : Prop :=
  length (heap st) ≤ length (heap st') ∧
  ∀ a, a < lo → heap st' !! a = heap st !! a.

Lemma chain_ok_transfer h h' g :
  (∀ a, a ∈ g → h' !! a = h !! a) → chain_ok h g → chain_ok h' g.
Proof.
  intros Heq Hc i a Hi. destruct (Hc i a Hi) as (c & Hl & Hp & Hn).
  exists c. rewrite Heq; [done|]. by eapply list_elem_of_lookup_2.
Qed.

Lemma heap_labels_app h1 h2 : heap_labels (h1 ++ h2) = heap_labels h1 ++ heap_labels h2.
Proof. apply flat_map_app. Qed.

Lemma heap_labels_same_content h h' :
  Forall2 (fun c c' => content c = content c') h h' → heap_labels h = heap_labels h'.
Proof.
  induction 1 as [|c c' h h' Hc _ IH]; [done|].
  unfold heap_labels in *. cbn [flat_map]. by rewrite Hc, IH.
Qed.

Lemma heap_labels_alter_content (f : Chapter → Chapter) h a c v :
  h !! a = Some c → content c = [] → content (f c) = v →
  heap_labels (alter f a h) ≡ₚ heap_labels h ++ labels_all v.
Proof.
  revert a. induction h as [|c0 h IH]; intros a Ha Hc Hv; [done|].
  destruct a as [|a]; simpl in Ha.
  - injection Ha as ->. cbn [alter list_alter]. unfold heap_labels. cbn [flat_map].
    rewrite Hc, Hv. cbn [labels_all flat_map app]. apply Permutation_app_comm.
  - cbn [alter list_alter]. unfold heap_labels in *. cbn [flat_map].
    rewrite <- (assoc_L (++)). apply Permutation_app_head. by eapply IH.
Qed.

(** *** The steps of the state monad *)

Lemma bind_eq {A B} (m : M A) (k : A → M B) st :
  bind m k st = k (m st).1 (m st).2.
Proof. unfold bind. by destruct (m st). Qed.

Lemma foldM_inv {A B} (I : A → state → Prop) (f : A → B → M A) l :
  (∀ acc x st, x ∈ l → I acc st → I (f acc x st).1 (f acc x st).2) →
  ∀ acc st, I acc st → I (foldM f acc l st).1 (foldM f acc l st).2.
Proof.
  induction l as [|x l IH]; intros Hf acc st HI; [done|].
  cbn [foldM]. rewrite bind_eq. apply IH.
  - intros acc' y st' Hy. apply Hf. by right.
  - apply Hf; [by left | done].
Qed.

(** *** Setting the sibling links *)

Definition link_fn (g : list addr) (i : nat) (c : Chapter) : Chapter :=
  let c1 := if Nat.ltb 0 i then set_previous (g !! (i - 1)) c else c in
  if Nat.ltb (i + 1) (length g) then set_next (g !! (i + 1)) c1 else c1.

Lemma linkSibling_eq g i a st :
  linkSibling g i a st = (tt, mkState (_html st) (alter (link_fn g i) a (heap st))).
Proof.
  unfold linkSibling, link_fn, bind, assign, ret. destruct st as [d h].
  destruct (Nat.ltb 0 i), (Nat.ltb (i + 1) (length g)); cbn; do 2 f_equal.
  - apply list_alter_alter_eq.
  - by rewrite list_alter_id.
Qed.

Lemma link_fn_core g i c : core (link_fn g i c) = core c.
Proof.
  unfold link_fn. by destruct (Nat.ltb 0 i), (Nat.ltb (i + 1) (length g)).
Qed.

Lemma link_fn_links g i c :
  previous c = None → next c = None →
  previous (link_fn g i c) = match i with 0 => None | S j => g !! j end ∧
  next (link_fn g i c) = g !! S i.
Proof.
  intros Hp Hn. unfold link_fn.
  assert (Hout : ∀ k, ¬ k < length g → None = g !! k).
  { intros k Hk. symmetry. apply lookup_ge_None. lia. }
  destruct i as [|j].
  - change (Nat.ltb 0 0) with false. cbv iota.
    destruct (Nat.ltb_spec (0 + 1) (length g)) as [Hlt|Hge]; cbn [previous next set_next].
    + by rewrite Hp.
    + rewrite Hp, Hn. split; [done|]. apply Hout. lia.
  - change (Nat.ltb 0 (S j)) with true. cbv iota.
    replace (S j - 1) with j by lia. replace (S j + 1) with (S (S j)) by lia.
    destruct (Nat.ltb_spec (S (S j)) (length g)) as [Hlt|Hge];
      cbn [previous next set_next set_previous].
    + done.
    + rewrite Hn. split; [done|]. apply Hout. lia.
Qed.

Lemma eachi_link g l : ∀ pre st,
  g = pre ++ l → NoDup l →
  (∀ a, a ∈ l → ∃ c, heap st !! a = Some c ∧ previous c = None ∧ next c = None) →
  let st' := (eachi (linkSibling g) (length pre) l st).2 in
  _html st' = _html st ∧
  length (heap st') = length (heap st) ∧
  (∀ a, a ∉ l → heap st' !! a = heap st !! a) ∧
  (∀ a c, heap st !! a = Some c → ∃ c', heap st' !! a = Some c' ∧ core c' = core c) ∧
  (∀ j a, l !! j = Some a →
     ∃ c, heap st' !! a = Some c ∧
          previous c = match length pre + j with 0 => None | S k => g !! k end ∧
          next c = g !! S (length pre + j)).
Proof.
  induction l as [|x l IH]; intros pre st Hg Hnd Hl.
  - cbn. repeat split; try done. intros a c Ha. by exists c.
  - cbn [eachi]. rewrite bind_eq, linkSibling_eq. cbn [fst snd].
    set (st1 := mkState (_html st) (alter (link_fn g (length pre)) x (heap st))).
    apply NoDup_cons in Hnd as [Hx Hnd].
    destruct (Hl x) as (cx & Hcx & Hpx & Hnx); [by left|].
    specialize (IH (pre ++ [x]) st1).
    rewrite length_app in IH. cbn [length] in IH.
    replace (length pre + 1) with (S (length pre)) in IH by lia.
    destruct IH as (I1 & I2 & I3 & I4 & I5).
    + by rewrite <- (assoc_L (++)).
    + done.
    + intros a Ha. destruct (Hl a) as (c & Hc & ? & ?); [by right|].
      exists c. split; [|done]. cbn. rewrite list_lookup_alter_ne; [done|].
      intros ->. done.
    + split; [done|]. split; [by rewrite I2; cbn; rewrite length_alter|].
      split; [|split].
      * intros a Ha. apply not_elem_of_cons in Ha as [Hne Ha].
        rewrite (I3 a Ha). cbn. by rewrite list_lookup_alter_ne.
      * intros a c Ha.
        destruct (decide (a = x)) as [->|Hne].
        -- destruct (I4 x (link_fn g (length pre) c)) as (c' & Hc' & Hcore).
           { unfold st1. cbn [heap]. by rewrite list_lookup_alter_eq, Ha. }
           exists c'. split; [done|]. by rewrite Hcore, link_fn_core.
        -- apply I4. cbn. by rewrite list_lookup_alter_ne.
      * intros j a Hj. destruct j as [|j]; cbn in Hj.
        -- injection Hj as <-. exists (link_fn g (length pre) cx).
           split.
           { rewrite (I3 x Hx). unfold st1. cbn [heap]. by rewrite list_lookup_alter_eq, Hcx. }
           rewrite Nat.add_0_r. by apply link_fn_links.
        -- destruct (I5 j a Hj) as (c & ? & ? & ?). exists c.
           replace (length pre + S j) with (S (length pre) + j) by lia. done.
Qed.

Lemma setSiblings_spec g st :
  NoDup g →
  (∀ a, a ∈ g → ∃ c, heap st !! a = Some c ∧ previous c = None ∧ next c = None) →
  let st' := (setSiblings g st).2 in
  _html st' = _html st ∧
  length (heap st') = length (heap st) ∧
  (∀ a, a ∉ g → heap st' !! a = heap st !! a) ∧
  (∀ a c, heap st !! a = Some c → ∃ c', heap st' !! a = Some c' ∧ core c' = core c) ∧
  chain_ok (heap st') g.
Proof.
  intros Hnd Hl. unfold setSiblings.
  destruct (eachi_link g g [] st eq_refl Hnd Hl) as (I1 & I2 & I3 & I4 & I5).
  repeat split; try done.
Qed.

(** *** The pre-order listing of a group *)

(** A group followed, member by member, by the descendants of the member. *)
Definition flat (h : list Chapter) (fuel : nat) (g : list addr) : list addr :=
  flat_map (fun a => a :: getChildrenDeep fuel h a) g.

Lemma flat_map_ext_elem {A B} (f f' : A → list B) (l : list A) :
  (∀ x, x ∈ l → f x = f' x) → flat_map f l = flat_map f' l.
Proof.
  induction l as [|x l IH]; intros Hf; [done|]. cbn [flat_map].
  rewrite Hf by (by left). f_equal. apply IH. intros y Hy. apply Hf. by right.
Qed.

(** The listing below [a] only reads the [children] of the chapters between
    [lo] and [hi], when those refer to each other only. *)
Lemma getChildrenDeep_frame (h h' : list Chapter) lo hi :
  (∀ x, lo ≤ x < hi → children <$> h' !! x = children <$> h !! x) →
  (∀ x c k, lo ≤ x < hi → h !! x = Some c → k ∈ children c → x < k < hi) →
  ∀ fuel a, lo ≤ a < hi → getChildrenDeep fuel h' a = getChildrenDeep fuel h a.
Proof.
  intros Hagree Hclosed. induction fuel as [|fuel IH]; intros a Ha; [done|].
  cbn [getChildrenDeep]. specialize (Hagree a Ha).
  destruct (h !! a) as [c|] eqn:Hc, (h' !! a) as [c'|] eqn:Hc'; try done.
  cbn in Hagree. injection Hagree as Hch. rewrite Hch.
  apply flat_map_ext_elem. intros k Hk. f_equal. apply IH.
  specialize (Hclosed a c k Ha Hc Hk). lia.
Qed.

Lemma flat_frame (h h' : list Chapter) lo hi fuel g :
  (∀ x, lo ≤ x < hi → children <$> h' !! x = children <$> h !! x) →
  (∀ x c k, lo ≤ x < hi → h !! x = Some c → k ∈ children c → x < k < hi) →
  (∀ a, a ∈ g → lo ≤ a < hi) →
  flat h' fuel g = flat h fuel g.
Proof.
  intros Hagree Hclosed Hg. apply flat_map_ext_elem. intros a Ha. f_equal.
  by eapply getChildrenDeep_frame; [..|apply Hg].
Qed.

Lemma flat_app h fuel g1 g2 : flat h fuel (g1 ++ g2) = flat h fuel g1 ++ flat h fuel g2.
Proof. apply flat_map_app. Qed.

(** *** What one run of [parseList] establishes *)

Section ParseFacts.

Variable idFromRef : option string → string.

(** [D] is the shared document as it was when the outermost [parseList]
    started; the document only loses elements afterwards. *)
Variable D : list node.

(** The chapters at addresses [lo] and above are finished: their children
    were created after them, point back to them, and were extracted before
    them; their own anchors are gone from the shared document. *)
Record seg_ok (lo : nat) (st : state) : Prop := {
  so_children : ∀ a c k,
    lo ≤ a → heap st !! a = Some c → k ∈ children c →
    a < k ∧ ∃ ck, heap st !! k = Some ck ∧ parent ck = Some a ∧
                  titleId ck ∉ ids_all (content c);
  so_chain : ∀ a c,
    lo ≤ a → heap st !! a = Some c → chain_ok (heap st) (children c);
  so_gone : ∀ a c,
    lo ≤ a → heap st !! a = Some c → titleId c ∉ ids_all (_html st);
  so_missing : ∀ a c,
    lo ≤ a → heap st !! a = Some c → titleId c ∉ ids_all D → content c = []
}.

(** The invariant of the [each] loop of [parseList]: [g] is the [chapters]
    array so far, its members not linked yet. *)
Record item_inv (par : option addr) (st0 : state) (g : list addr) (st : state) : Prop := {
  ii_frame : frame (length (heap st0)) st0 st;
  ii_ids : ids_all (_html st) `sublist_of` ids_all (_html st0);
  ii_seg : seg_ok (length (heap st0)) st;
  ii_nodup : NoDup g;
  ii_group : ∀ k, k ∈ g →
    length (heap st0) ≤ k ∧
    ∃ ck, heap st !! k = Some ck ∧ parent ck = par ∧
          previous ck = None ∧ next ck = None;
  ii_labels : NoDup (ids_all (_html st0)) → all_labels st0 ≡ₚ all_labels st;
  ii_flat : ∀ fuel,
    length (heap st) - length (heap st0) ≤ fuel →
    flat (heap st) fuel g
    = seq (length (heap st0)) (length (heap st) - length (heap st0))
}.

(** What [parseList] guarantees on return. *)
Record parse_post (par : option addr) (st0 : state) (g : list addr) (st : state) : Prop := {
  pp_frame : frame (length (heap st0)) st0 st;
  pp_ids : ids_all (_html st) `sublist_of` ids_all (_html st0);
  pp_seg : seg_ok (length (heap st0)) st;
  pp_nodup : NoDup g;
  pp_group : ∀ k, k ∈ g →
    length (heap st0) ≤ k ∧ ∃ ck, heap st !! k = Some ck ∧ parent ck = par;
  pp_chain : chain_ok (heap st) g;
  pp_labels : NoDup (ids_all (_html st0)) → all_labels st0 ≡ₚ all_labels st;
  pp_flat : ∀ fuel,
    length (heap st) - length (heap st0) ≤ fuel →
    flat (heap st) fuel g
    = seq (length (heap st0)) (length (heap st) - length (heap st0))
}.

Definition rec_ok (rec : list node → nat → option addr → M (list addr)) : Prop :=
  ∀ ul lvl par st,
    ids_all (_html st) ⊆ ids_all D →
    (∀ p, par = Some p → p < length (heap st)) →
    parse_post par st (rec ul lvl par st).1 (rec ul lvl par st).2.

Lemma seg_ok_empty st : seg_ok (length (heap st)) st.
Proof.
  split; intros a c; intros; exfalso;
    match goal with H : heap st !! a = Some c |- _ => apply lookup_lt_Some in H end; lia.
Qed.

Lemma parseItem_eq rec lvl par g li st :
  let info := extractTOCTitleInfo idFromRef [li] in
  let c0 := mkChapter lvl par (info_type info) (info_titleId info) (info_title info)
                      (length g + 1) [] [] None None in
  let n := length (heap st) in
  let r := rec (children_sel (SelTag "ul") [li]) (lvl + 1) (Some n)
               (mkState (_html st) (heap st ++ [c0])) in
  let sel := SelIdEq (info_titleId info) in
  parseItem idFromRef rec lvl par g li st =
  (g ++ [n],
   mkState (detach_all sel (_html r.2))
           (alter (set_content (select_all sel (_html r.2))) n
                  (alter (set_children r.1) n (heap r.2)))).
Proof.
  cbv zeta. unfold parseItem, bind, newChapter, assign, extractHTML, ret, getChapterSelector.
  by destruct (rec _ _ _ _) as [subs st2].
Qed.

Lemma parseItem_inv rec lvl par st0 g st li :
  rec_ok rec →
  ids_all (_html st0) ⊆ ids_all D →
  item_inv par st0 g st →
  item_inv par st0 (parseItem idFromRef rec lvl par g li st).1
                   (parseItem idFromRef rec lvl par g li st).2.
Proof.
  intros Hrec HD HI. rewrite parseItem_eq. cbv zeta. cbn [fst snd].
  set (info := extractTOCTitleInfo idFromRef [li]).
  set (c0 := mkChapter lvl par (info_type info) (info_titleId info) (info_title info)
                       (length g + 1) [] [] None None).
  set (n := length (heap st)).
  set (st1 := mkState (_html st) (heap st ++ [c0])).
  set (sub := children_sel (SelTag "ul") [li]).
  destruct HI as [[HL HF] Hids Hseg Hnd Hgrp Hlab Hflat].
  assert (Hids1 : ids_all (_html st1) ⊆ ids_all D).
  { unfold st1. cbn [_html]. etrans; [|exact HD]. by apply sublist_subseteq. }
  assert (Hpar1 : ∀ p, Some n = Some p → p < length (heap st1)).
  { intros p [= <-]. unfold st1. cbn [heap]. rewrite length_app. cbn. lia. }
  specialize (Hrec sub (lvl + 1) (Some n) st1 Hids1 Hpar1).
  destruct (rec sub (lvl + 1) (Some n) st1) as [subs st2]. cbn [fst snd] in *.
  destruct Hrec as [[HL2 HF2] Hids2 Hseg2 Hnd2 Hgrp2 Hchain2 Hlab2 Hflat2].
  assert (Hlen1 : length (heap st1) = S n).
  { unfold st1. cbn [heap]. rewrite length_app. cbn. lia. }
  rewrite Hlen1 in *.
  set (sel := SelIdEq (info_titleId info)).
  set (html := select_all sel (_html st2)).
  set (c4 := set_content html (set_children subs c0)).
  set (h4 := alter (set_content html) n (alter (set_children subs) n (heap st2))).
  assert (Hn2 : heap st2 !! n = Some c0).
  { rewrite HF2 by lia. unfold st1. cbn [heap]. by rewrite list_lookup_middle. }
  assert (Hlow2 : ∀ a, a < n → heap st2 !! a = heap st !! a).
  { intros a Ha. rewrite HF2 by lia. unfold st1. cbn [heap].
    by rewrite lookup_app_l. }
  assert (H4n : h4 !! n = Some c4).
  { unfold h4. by rewrite !list_lookup_alter_eq, Hn2. }
  assert (H4ne : ∀ a, a ≠ n → h4 !! a = heap st2 !! a).
  { intros a Ha. unfold h4. by rewrite !list_lookup_alter_ne. }
  assert (H4low : ∀ a, a < n → h4 !! a = heap st !! a).
  { intros a Ha. rewrite H4ne by lia. by apply Hlow2. }
  assert (Hlen4 : length h4 = length (heap st2)).
  { unfold h4. by rewrite !length_alter. }
  assert (Hdoc42 : ids_all (detach_all sel (_html st2)) ⊆ ids_all (_html st2)).
  { apply ids_detach_all. }
  assert (Hdoc2 : ids_all (_html st2) ⊆ ids_all (_html st)).
  { by apply sublist_subseteq. }
  split; cbn [heap _html].
  - (* frame *)
    split; cbn [heap]; [rewrite Hlen4; lia|].
    intros a Ha. rewrite H4low by (unfold n; lia). by apply HF.
  - (* ids *)
    etrans; [apply ids_detach_all_sublist|]. etrans; [exact Hids2|]. exact Hids.
  - (* finished chapters *)
    split; cbn [heap _html].
    + intros a c k Hlo Ha Hk.
      destruct (lt_eq_lt_dec a n) as [[Hlt| ->]|Hgt].
      * rewrite H4low in Ha by done.
        destruct (so_children _ _ Hseg a c k Hlo Ha Hk) as (Hak & ck & Hck & Hp & Ht).
        split; [done|]. exists ck. split; [|done].
        rewrite H4low; [done|]. by apply lookup_lt_Some in Hck.
      * rewrite H4n in Ha. injection Ha as <-. cbn [children c4 set_content set_children] in Hk.
        destruct (Hgrp2 k Hk) as (Hnk & ck & Hck & Hp).
        split; [lia|]. exists ck. rewrite H4ne by lia. repeat split; try done.
        cbn [content c4 set_content]. intros Hin.
        apply ids_select_all in Hin.
        by apply (so_gone _ _ Hseg2 k ck).
      * rewrite H4ne in Ha by lia.
        destruct (so_children _ _ Hseg2 a c k ltac:(lia) Ha Hk) as (Hak & ck & Hck & Hp & Ht).
        split; [done|]. exists ck. rewrite H4ne by lia. done.
    + intros a c Hlo Ha.
      destruct (lt_eq_lt_dec a n) as [[Hlt| ->]|Hgt].
      * rewrite H4low in Ha by done.
        apply (chain_ok_transfer (heap st)); [|by eapply so_chain].
        intros k Hk. apply H4low.
        destruct (so_children _ _ Hseg a c k Hlo Ha Hk) as (_ & ck & Hck & _).
        by apply lookup_lt_Some in Hck.
      * rewrite H4n in Ha. injection Ha as <-. cbn [children c4 set_content set_children].
        apply (chain_ok_transfer (heap st2)); [|done].
        intros k Hk. apply H4ne. destruct (Hgrp2 k Hk). lia.
      * rewrite H4ne in Ha by lia.
        apply (chain_ok_transfer (heap st2)); [|eapply so_chain; [exact Hseg2| |exact Ha]; lia].
        intros k Hk. apply H4ne.
        destruct (so_children _ _ Hseg2 a c k ltac:(lia) Ha Hk). lia.
    + intros a c Hlo Ha.
      destruct (lt_eq_lt_dec a n) as [[Hlt| ->]|Hgt].
      * rewrite H4low in Ha by done. intros Hin.
        apply (so_gone _ _ Hseg a c Hlo Ha). auto.
      * rewrite H4n in Ha. injection Ha as <-.
        cbn [titleId c4 set_content set_children c0]. apply detach_all_removes_id.
      * rewrite H4ne in Ha by lia. intros Hin.
        apply (so_gone _ _ Hseg2 a c ltac:(lia) Ha). auto.
    + intros a c Hlo Ha HnD.
      destruct (lt_eq_lt_dec a n) as [[Hlt| ->]|Hgt].
      * rewrite H4low in Ha by done. by eapply so_missing.
      * rewrite H4n in Ha. injection Ha as <-.
        cbn [titleId content c4 set_content set_children c0] in *.
        apply select_all_missing. intros Hin. apply HnD. auto.
      * rewrite H4ne in Ha by lia. eapply so_missing; [exact Hseg2| |exact Ha|done]. lia.
  - (* the chapters array has no repetition *)
    apply NoDup_app. split; [done|]. split; [|apply NoDup_singleton].
    intros k Hk ->%list_elem_of_singleton.
    destruct (Hgrp n Hk) as (_ & ck & Hck & _).
    apply lookup_lt_Some in Hck. unfold n in Hck. lia.
  - (* its members are not linked yet *)
    intros k Hk. apply elem_of_app in Hk as [Hk| ->%list_elem_of_singleton].
    + destruct (Hgrp k Hk) as (Hlo & ck & Hck & Hrest).
      split; [done|]. exists ck. split; [|done].
      rewrite H4low; [done|]. by apply lookup_lt_Some in Hck.
    + split; [unfold n; lia|]. exists c4. by rewrite H4n.
  - (* no node lost, none doubled *)
    intros Hnd0. rewrite (Hlab Hnd0).
    assert (Hnd_st : NoDup (ids_all (_html st))) by (by eapply sublist_NoDup).
    assert (Hnd_2 : NoDup (ids_all (_html st2))) by (by eapply sublist_NoDup).
    assert (E1 : all_labels st = all_labels st1).
    { unfold all_labels, st1. cbn [_html heap]. rewrite heap_labels_app.
      unfold heap_labels at 3. cbn. by rewrite app_nil_r. }
    rewrite E1, (Hlab2 Hnd_st). unfold all_labels. cbn [_html heap].
    rewrite (labels_split_all (info_titleId info) (_html st2) Hnd_2).
    fold sel. fold html.
    assert (E4 : heap_labels h4 ≡ₚ heap_labels (heap st2) ++ labels_all html).
    { unfold h4. rewrite list_alter_alter_eq.
      eapply heap_labels_alter_content; [exact Hn2|done|done]. }
    rewrite E4.
    rewrite (Permutation_app_comm (labels_all html)).
    rewrite <- (assoc_L (++)). apply Permutation_app_head, Permutation_app_comm.
  - (* the pre-order listing *)
    intros fuel Hfuel. rewrite Hlen4 in *.
    assert (Hn_lo : length (heap st0) ≤ n) by (unfold n; lia).
    rewrite flat_app.
    replace (length (heap st2) - length (heap st0))
      with ((n - length (heap st0)) + S (length (heap st2) - S n)) by lia.
    rewrite seq_app. f_equal.
    + rewrite (flat_frame (heap st) h4 (length (heap st0)) n).
      * apply Hflat. unfold n. lia.
      * intros x Hx. by rewrite H4low by lia.
      * intros x c k Hx Hc Hk.
        destruct (so_children _ _ Hseg x c k ltac:(lia) Hc Hk) as (? & ck & Hck & _).
        apply lookup_lt_Some in Hck. unfold n. lia.
      * intros a Ha. destruct (Hgrp a Ha) as (? & ck & Hck & _).
        apply lookup_lt_Some in Hck. unfold n. lia.
    + replace (length (heap st0) + (n - length (heap st0))) with n by lia.
      unfold flat. cbn [flat_map]. rewrite app_nil_r. cbn [seq]. f_equal.
      destruct fuel as [|fuel]; [lia|].
      cbn [getChildrenDeep]. rewrite H4n. cbn [children c4 set_content set_children].
      change (flat_map (fun k => k :: getChildrenDeep fuel h4 k) subs)
        with (flat h4 fuel subs).
      rewrite (flat_frame (heap st2) h4 (S n) (length (heap st2))).
      * apply Hflat2. lia.
      * intros x Hx. by rewrite H4ne by lia.
      * intros x c k Hx Hc Hk.
        destruct (so_children _ _ Hseg2 x c k ltac:(lia) Hc Hk) as (? & ck & Hck & _).
        apply lookup_lt_Some in Hck. lia.
      * intros a Ha. destruct (Hgrp2 a Ha) as (? & ck & Hck & _).
        apply lookup_lt_Some in Hck. lia.
Qed.

Lemma item_inv_start par st : item_inv par st [] st.
Proof.
  split; try done.
  - apply seg_ok_empty.
  - constructor.
  - intros k Hk. by apply elem_of_nil in Hk.
  - intros fuel _. by rewrite Nat.sub_diag.
Qed.

Lemma core_fields c c' :
  core c' = core c →
  parent c' = parent c ∧ titleId c' = titleId c ∧
  children c' = children c ∧ content c' = content c.
Proof. unfold core. intros [= ? ? ? ? ? ? ? ?]. done. Qed.

Lemma parseList_fuel_ok fuel : rec_ok (parseList_fuel idFromRef fuel).
Proof.
  induction fuel as [|fuel IH]; intros ul lvl par st HD Hpar.
  - cbn. split; try done.
    + apply seg_ok_empty.
    + constructor.
    + intros k Hk. by apply elem_of_nil in Hk.
    + intros F _. by rewrite Nat.sub_diag.
  - cbn [parseList_fuel]. rewrite !bind_eq. cbn [ret fst snd].
    pose proof (foldM_inv (item_inv par st)
                  (parseItem idFromRef (parseList_fuel idFromRef fuel) lvl par)
                  (children_sel (SelTag "li") ul)
                  (fun acc x st' _ HI => parseItem_inv _ lvl par st acc st' x IH HD HI)
                  [] st (item_inv_start par st)) as HI.
    destruct (foldM _ _ _ st) as [g st1]. cbn [fst snd] in *.
    destruct HI as [[HL HF] Hids Hseg Hnd Hgrp Hlab Hflat].
    destruct (setSiblings_spec g st1 Hnd) as (S1 & S2 & S3 & S4 & S5).
    { intros a Ha. destruct (Hgrp a Ha) as (_ & c & ? & _ & ? & ?). by exists c. }
    set (st' := (setSiblings g st1).2) in *.
    assert (Hback : ∀ a c', heap st' !! a = Some c' →
                    ∃ c, heap st1 !! a = Some c ∧ core c' = core c).
    { intros a c' Ha.
      destruct (lookup_lt_is_Some_2 (heap st1) a) as [c Hc].
      { rewrite <- S2. by eapply lookup_lt_Some. }
      destruct (S4 a c Hc) as (c'' & Hc'' & Hcore). exists c.
      split; [done|]. congruence. }
    split.
    + split; [lia|]. intros a Ha. rewrite S3; [by apply HF|].
      intros Hin. destruct (Hgrp a Hin). lia.
    + by rewrite S1.
    + split.
      * intros a c' k Hlo Ha Hk.
        destruct (Hback a c' Ha) as (c & Hc & (? & ? & Hch & Hct)%core_fields).
        rewrite Hch in Hk.
        destruct (so_children _ _ Hseg a c k Hlo Hc Hk) as (Hak & ck & Hck & Hp & Ht).
        split; [done|].
        destruct (S4 k ck Hck) as (ck' & Hck' & (Hp' & Ht' & _)%core_fields).
        exists ck'. rewrite Hp', Ht', Hct. done.
      * intros a c' Hlo Ha.
        destruct (Hback a c' Ha) as (c & Hc & (? & ? & Hch & Hct)%core_fields).
        rewrite Hch. apply (chain_ok_transfer (heap st1)); [|by eapply so_chain].
        intros k Hk. apply S3. intros Hin.
        destruct (so_children _ _ Hseg a c k Hlo Hc Hk) as (_ & ck & Hck & Hp & _).
        destruct (Hgrp k Hin) as (_ & ck2 & Hck2 & Hp2 & _).
        rewrite Hck in Hck2. injection Hck2 as <-.
        rewrite Hp in Hp2. symmetry in Hp2. apply Hpar in Hp2. lia.
      * intros a c' Hlo Ha.
        destruct (Hback a c' Ha) as (c & Hc & (? & Ht' & _)%core_fields).
        rewrite S1, Ht'. by eapply so_gone.
      * intros a c' Hlo Ha Hmiss.
        destruct (Hback a c' Ha) as (c & Hc & (? & Ht' & _ & Hct)%core_fields).
        rewrite Hct. rewrite Ht' in Hmiss. by eapply so_missing.
    + done.
    + intros k Hk. destruct (Hgrp k Hk) as (Hlo & ck & Hck & Hp & _).
      split; [done|].
      destruct (S4 k ck Hck) as (ck' & Hck' & (Hp' & _)%core_fields).
      exists ck'. by rewrite Hp'.
    + done.
    + intros Hnd0. rewrite (Hlab Hnd0). unfold all_labels. rewrite S1.
      apply Permutation_app_head. apply reflexive_eq, heap_labels_same_content.
      apply Forall2_same_length_lookup_2; [done|].
      intros i c c' Hc Hc'.
      destruct (S4 i c Hc) as (c'' & Hc'' & (_ & _ & _ & Hct)%core_fields).
      congruence.
    + intros F HF'. rewrite S2 in *.
      rewrite (flat_frame (heap st1) (heap st') (length (heap st)) (length (heap st1))).
      * by apply Hflat.
      * intros x Hx.
        destruct (lookup_lt_is_Some_2 (heap st1) x) as [c Hc]; [lia|].
        destruct (S4 x c Hc) as (c' & Hc' & (_ & _ & Hch & _)%core_fields).
        rewrite Hc, Hc'. cbn. by rewrite Hch.
      * intros x c k Hx Hc Hk.
        destruct (so_children _ _ Hseg x c k ltac:(lia) Hc Hk) as (? & ck & Hck & _).
        apply lookup_lt_Some in Hck. lia.
      * intros a Ha. destruct (Hgrp a Ha) as (? & ck & Hck & _).
        apply lookup_lt_Some in Hck. lia.
Qed.

(** *** The recursion bound of [parseList] is enough *)

Lemma height_all_ge n f : n ∈ f → height n ≤ height_all f.
Proof.
  induction f as [|k f IH]; intros Hin; [by apply elem_of_nil in Hin|].
  cbn [height_all fold_right]. apply elem_of_cons in Hin as [->|Hin]; [lia|].
  specialize (IH Hin). unfold height_all in IH. lia.
Qed.

Lemma height_kid k n : k ∈ kids n → S (height k) ≤ height n.
Proof.
  destruct n as [| |t a ks]; cbn [kids]; intros Hk; try by apply elem_of_nil in Hk.
  cbn [height]. apply le_n_S. by apply (height_all_ge k ks).
Qed.

Lemma height_children_sel s x ul :
  x ∈ children_sel s ul → S (height x) ≤ height_all ul.
Proof.
  unfold children_sel. intros (n & Hn & Hx)%elem_of_flat_map.
  apply list_elem_of_In, filter_In in Hx as [Hx _]. apply list_elem_of_In in Hx.
  etrans; [by apply height_kid|]. by apply height_all_ge.
Qed.

Lemma height_all_children_sel s li :
  S (height_all (children_sel s [li])) ≤ height li ∨ children_sel s [li] = [].
Proof.
  destruct (children_sel s [li]) as [|x0 l0] eqn:E; [by right|left].
  rewrite <- E.
  assert (Hall : ∀ x, x ∈ children_sel s [li] → S (height x) ≤ height li).
  { intros x Hx. apply height_children_sel in Hx. cbn in Hx. lia. }
  assert (Hne : children_sel s [li] ≠ []) by (by rewrite E).
  clear E. induction (children_sel s [li]) as [|x l IH]; [done|].
  cbn [height_all fold_right].
  destruct l as [|y l].
  - cbn. specialize (Hall x ltac:(by left)). lia.
  - assert (S (height_all (y :: l)) ≤ height li).
    { apply IH; [|done]. intros z Hz. apply Hall. by right. }
    specialize (Hall x ltac:(by left)). unfold height_all in *. lia.
Qed.

Lemma parseList_fuel_nil fuel lvl par st :
  parseList_fuel idFromRef fuel [] lvl par st = ([], st).
Proof. by destruct fuel. Qed.

Lemma parseList_ok : rec_ok (parseList idFromRef).
Proof. intros ul lvl par st. apply parseList_fuel_ok. Qed.

End ParseFacts.

End HeapFacts.

(** ** Facts about element handles and the anchor reconciler *)

Module HandleFacts.
Import Dom DomFacts Converter InMemory.

Lemma paths_Elem s t a ks :
  paths s (Elem t a ks) =
  (if matches s (Elem t a ks) then [[]] else []) ++ paths_from s 0 ks.
Proof.
  cbn [paths]. f_equal. generalize 0.
  induction ks as [|k ks IH]; intros i; [done|]. cbn [paths_from]. by rewrite IH.
Qed.

Lemma elem_of_paths_from s l : ∀ i p,
  p ∈ paths_from s i l ↔ ∃ j p' k, p = (i + j) :: p' ∧ l !! j = Some k ∧ p' ∈ paths s k.
Proof.
  induction l as [|k0 l IH]; intros i p; cbn [paths_from].
  - split; [by intros ?%elem_of_nil|]. by intros (j & p' & k & _ & ? & _).
  - rewrite elem_of_app, list_elem_of_fmap, IH. split.
    + intros [(p' & -> & Hp')|(j & p' & k & -> & Hj & Hp')].
      * exists 0, p', k0. by rewrite Nat.add_0_r.
      * exists (S j), p', k. split; [f_equal; lia|done].
    + intros (j & p' & k & -> & Hj & Hp'). destruct j as [|j].
      * left. cbn in Hj. injection Hj as ->. exists p'. by rewrite Nat.add_0_r.
      * right. exists j, p', k. split; [f_equal; lia|done].
Qed.

(** A handle of [$(selector)] leads to an element the selector matches, and
    every such element has its handle. *)
Lemma elem_of_paths s p : ∀ n,
  p ∈ paths s n ↔ ∃ m, get p n = Some m ∧ matches s m = true.
Proof.
  induction p as [|i p IH]; intros n.
  - cbn [get]. destruct n as [| |t a ks].
    + cbn. split; [by intros ?%elem_of_nil|]. intros (m & [= <-] & Hm).
      by apply matches_tag in Hm.
    + cbn. split; [by intros ?%elem_of_nil|]. intros (m & [= <-] & Hm).
      by apply matches_tag in Hm.
    + rewrite paths_Elem, elem_of_app, elem_of_paths_from. split.
      * intros [Hin|(j & p' & k & [=] & _)].
        destruct (matches s (Elem t a ks)) eqn:Hm; [|by apply elem_of_nil in Hin].
        by exists (Elem t a ks).
      * intros (m & [= <-] & Hm). left. rewrite Hm. by left.
  - cbn [get]. destruct n as [| |t a ks]; cbn [kids].
    + cbn. split; [by intros ?%elem_of_nil|]. by intros (m & ? & _).
    + cbn. split; [by intros ?%elem_of_nil|]. by intros (m & ? & _).
    + rewrite paths_Elem, elem_of_app, elem_of_paths_from. split.
      * intros [Hin|(j & p' & k & [= -> ->] & Hj & Hp')].
        { destruct (matches s (Elem t a ks)); [|by apply elem_of_nil in Hin].
          by apply list_elem_of_singleton in Hin. }
        cbn [Nat.add]. rewrite Hj. by apply IH.
      * intros (m & Hget & Hm). right.
        destruct (ks !! i) as [k|] eqn:Hk; [|done].
        exists i, p, k. split; [done|]. split; [done|]. apply IH. by exists m.
Qed.

Lemma elem_of_paths_all s p doc :
  p ∈ paths_all s doc ↔ ∃ m, get_all p doc = Some m ∧ matches s m = true.
Proof.
  unfold paths_all. rewrite elem_of_paths_from. split.
  - intros (j & p' & k & -> & Hj & Hp'). cbn [Nat.add get_all]. rewrite Hj.
    by apply elem_of_paths.
  - intros (m & Hget & Hm). destruct p as [|i p]; [done|]. cbn [get_all] in Hget.
    destruct (doc !! i) as [k|] eqn:Hk; [|done].
    exists i, p, k. split; [done|]. split; [done|]. apply elem_of_paths. by exists m.
Qed.


Lemma get_app p q : ∀ n m, get p n = Some m → get (p ++ q) n = get q m.
Proof.
  induction p as [|i p IH]; intros n m Hget; [by injection Hget as ->|].
  cbn [get app] in *. destruct (kids n !! i); [by apply IH|done].
Qed.

(** *** Rewriting behind a handle *)

Lemma apply_at_none f p : ∀ n, get p n = None → apply_at f p n = n.
Proof.
  induction p as [|i p IH]; intros n Hget; [done|].
  cbn [get apply_at] in *. destruct n as [| |t a ks]; try done. cbn [kids] in Hget.
  f_equal. destruct (ks !! i) as [k|] eqn:Hk.
  - apply list_eq. intros j. destruct (decide (i = j)) as [<-|Hne].
    + rewrite list_lookup_alter_eq, Hk. cbn. by rewrite (IH k Hget).
    + by rewrite list_lookup_alter_ne.
  - apply list_eq. intros j. destruct (decide (i = j)) as [<-|Hne].
    + by rewrite list_lookup_alter_eq, Hk.
    + by rewrite list_lookup_alter_ne.
Qed.

Lemma apply_at_fixed f p : ∀ n m, get p n = Some m → f m = m → apply_at f p n = n.
Proof.
  induction p as [|i p IH]; intros n m Hget Hf; [by injection Hget as ->|].
  cbn [get apply_at] in *. destruct n as [| |t a ks]; try done. cbn [kids] in Hget.
  f_equal. destruct (ks !! i) as [k|] eqn:Hk; [|done].
  apply list_eq. intros j. destruct (decide (i = j)) as [<-|Hne].
  - rewrite list_lookup_alter_eq, Hk. cbn. by rewrite (IH k m Hget Hf).
  - by rewrite list_lookup_alter_ne.
Qed.

Lemma get_apply_at f p : ∀ n m, get p n = Some m → get p (apply_at f p n) = Some (f m).
Proof.
  induction p as [|i p IH]; intros n m Hget; [by injection Hget as ->|].
  cbn [get apply_at] in *. destruct n as [| |t a ks]; try done. cbn [kids] in *.
  rewrite list_lookup_alter_eq. destruct (ks !! i) as [k|]; [|done].
  cbn. by apply IH.
Qed.


(** *** Counting the occurrences of an id *)

Fixpoint occ (x : string) (l : list string) : nat :=
  match l with
  | [] => 0
  | y :: l' => (if String.eqb x y then 1 else 0) + occ x l'
  end.

Lemma occ_app x l1 l2 : occ x (l1 ++ l2) = occ x l1 + occ x l2.
Proof. induction l1 as [|y l1 IH]; cbn; [done|]. rewrite IH. lia. Qed.

Lemma occ_zero x l : occ x l = 0 ↔ x ∉ l.
Proof.
  induction l as [|y l IH]; cbn.
  - split; [intros _; apply not_elem_of_nil | done].
  - rewrite not_elem_of_cons. destruct (String.eqb_spec x y); split.
    + lia.
    + by intros [? _].
    + intros H. split; [done|]. apply IH. lia.
    + intros [_ H]. apply IH in H. lia.
Qed.

Lemma occ_alter (f : node → node) x ks : ∀ i k,
  ks !! i = Some k →
  occ x (ids_all (alter f i ks)) + occ x (ids k) =
  occ x (ids_all ks) + occ x (ids (f k)).
Proof.
  induction ks as [|k0 ks IH]; intros i k Hk; [done|].
  destruct i as [|i]; cbn in Hk.
  - injection Hk as ->. cbn [alter list_alter]. rewrite !ids_all_cons, !occ_app. lia.
  - cbn [alter list_alter]. rewrite !ids_all_cons, !occ_app.
    specialize (IH i k Hk). lia.
Qed.

(** Rewriting behind a handle changes the count by what the rewrite does to
    its target. *)
Lemma occ_apply_at f x p : ∀ n s,
  get p n = Some s →
  occ x (ids (apply_at f p n)) + occ x (ids s) = occ x (ids n) + occ x (ids (f s)).
Proof.
  induction p as [|i p IH]; intros n s Hget.
  - injection Hget as ->. cbn. lia.
  - cbn [get apply_at] in *. destruct n as [| |t a ks]; try done. cbn [kids] in Hget.
    destruct (ks !! i) as [k|] eqn:Hk; [|done].
    rewrite !ids_Elem, !occ_app.
    pose proof (occ_alter (apply_at f p) x ks i k Hk).
    pose proof (IH k s Hget). lia.
Qed.

Lemma occ_apply_at_all f x p doc s :
  get_all p doc = Some s →
  occ x (ids_all (apply_at_all f p doc)) + occ x (ids s) =
  occ x (ids_all doc) + occ x (ids (f s)).
Proof.
  destruct p as [|i p]; [done|]. cbn [get_all apply_at_all].
  destruct (doc !! i) as [k|] eqn:Hk; [|done]. intros Hget.
  pose proof (occ_alter (apply_at f p) x doc i k Hk).
  pose proof (occ_apply_at f x p k s Hget). lia.
Qed.

Lemma apply_at_all_none f p doc : get_all p doc = None → apply_at_all f p doc = doc.
Proof.
  destruct p as [|i p]; [done|]. cbn [get_all apply_at_all]. intros Hget.
  apply list_eq. intros j. destruct (decide (i = j)) as [<-|Hne].
  - rewrite list_lookup_alter_eq. destruct (doc !! i) as [k|]; [|done].
    cbn. by rewrite apply_at_none.
  - by rewrite list_lookup_alter_ne.
Qed.

Lemma apply_at_all_fixed f p doc m :
  get_all p doc = Some m → f m = m → apply_at_all f p doc = doc.
Proof.
  destruct p as [|i p]; [done|]. cbn [get_all apply_at_all]. intros Hget Hf.
  apply list_eq. intros j. destruct (decide (i = j)) as [<-|Hne].
  - rewrite list_lookup_alter_eq. destruct (doc !! i) as [k|]; [|done].
    cbn. by rewrite (apply_at_fixed f p k m).
  - by rewrite list_lookup_alter_ne.
Qed.

Lemma get_all_apply_at_all f p doc m :
  get_all p doc = Some m → get_all p (apply_at_all f p doc) = Some (f m).
Proof.
  destruct p as [|i p]; [done|]. cbn [get_all apply_at_all]. intros Hget.
  rewrite list_lookup_alter_eq. destruct (doc !! i) as [k|]; [|done].
  cbn. by apply get_apply_at.
Qed.

(** *** Attributes *)

Lemma assoc_del_same k a : assoc k (assoc_del k a) = None.
Proof.
  induction a as [|[k' v'] a IH]; [done|]. cbn.
  destruct (String.eqb k k') eqn:E; [done|]. cbn. by rewrite E.
Qed.

Lemma assoc_set_same k v a : assoc k (assoc_set k v a) = Some v.
Proof.
  induction a as [|[k' v'] a IH]; cbn; [by rewrite String.eqb_refl|].
  destruct (String.eqb k k') eqn:E; cbn; by rewrite E.
Qed.

Lemma kids_setAttr k v n : kids (setAttr k v n) = kids n.
Proof. by destruct n. Qed.

Lemma kids_removeAttr k n : kids (removeAttr k n) = kids n.
Proof. by destruct n. Qed.

Lemma attr_removeAttr k n : attr k (removeAttr k n) = None.
Proof. destruct n; try done. apply assoc_del_same. Qed.

Lemma attr_setAttr k v n : is_tag n = true → attr k (setAttr k v n) = Some v.
Proof. destruct n; try done. intros _. apply assoc_set_same. Qed.

Lemma truthy_Some v : truthy v = true → ∃ x, v = Some x ∧ x ≠ "".
Proof.
  destruct v as [x|]; [|done]. cbn. intros H. exists x. split; [done|].
  intros ->. done.
Qed.

Lemma ids_removeAttr n : ids (removeAttr "id" n) = ids_all (kids n).
Proof.
  destruct n as [| |t a ks]; try done.
  cbn [removeAttr kids]. by rewrite ids_Elem, assoc_del_same.
Qed.

(** *** The reconciler, case by case *)

Lemma find_paths_sound s n hp :
  hp ∈ find_paths s n → hp ≠ [] ∧ ∃ hn, get hp n = Some hn ∧ matches s hn = true.
Proof.
  unfold find_paths. intros (j & p' & k & -> & Hj & Hp')%elem_of_paths_from.
  split; [done|]. apply elem_of_paths in Hp' as (hn & Hget & Hm).
  exists hn. cbn [get Nat.add]. by rewrite Hj.
Qed.

Lemma head_elem_of {A} (l : list A) x : head l = Some x → x ∈ l.
Proof. destruct l; [done|]. intros [= ->]. by left. Qed.

Lemma reconcile_no_id section :
  truthy (attr "id" section) = false → reconcile section = section.
Proof. unfold reconcile. by intros ->. Qed.

Lemma reconcile_heading_has_id section hp hn :
  head (find_paths SelHeader section) = Some hp →
  get hp section = Some hn →
  truthy (attr "id" hn) = true →
  reconcile section = section.
Proof.
  intros Hh Hget Hid. unfold reconcile.
  destruct (truthy (attr "id" section)); [|done]. cbn [negb].
  by rewrite Hh, Hget, Hid.
Qed.

Lemma reconcile_move section hp hn x :
  attr "id" section = Some x → x ≠ "" →
  head (find_paths SelHeader section) = Some hp →
  get hp section = Some hn →
  truthy (attr "id" hn) = false →
  reconcile section = removeAttr "id" (apply_at (setAttr "id" x) hp section).
Proof.
  intros Hx Hne Hh Hget Hid. unfold reconcile. rewrite Hx.
  replace (truthy (Some x)) with true.
  2:{ cbn. by destruct (String.eqb_spec x ""). }
  cbn [negb]. by rewrite Hh, Hget, Hid.
Qed.

Lemma reconcile_no_heading section x :
  attr "id" section = Some x → x ≠ "" →
  find_paths SelHeader section = [] →
  reconcile section = removeAttr "id" section.
Proof.
  intros Hx Hne Hh. unfold reconcile. rewrite Hx, Hh.
  replace (truthy (Some x)) with true; [done|].
  cbn. by destruct (String.eqb_spec x "").
Qed.

(** The reconciler never adds an occurrence of an id. *)
Lemma occ_reconcile x n : occ x (ids (reconcile n)) ≤ occ x (ids n).
Proof.
  destruct (truthy (attr "id" n)) eqn:Hid; [|by rewrite reconcile_no_id].
  apply truthy_Some in Hid as (sid & Hsid & Hne).
  destruct n as [| |t a ks]; try done. cbn [attr] in Hsid.
  destruct (head (find_paths SelHeader (Elem t a ks))) as [hp|] eqn:Hh.
  - destruct (find_paths_sound _ _ _ (head_elem_of _ _ Hh)) as (Hnil & hn & Hget & Hm).
    destruct (truthy (attr "id" hn)) eqn:Hhid.
    + by rewrite (reconcile_heading_has_id _ hp hn).
    + rewrite (reconcile_move _ hp hn sid) by done.
      rewrite ids_removeAttr.
      pose proof (occ_apply_at (setAttr "id" sid) x hp _ hn Hget) as Hocc.
      destruct hp as [|i hp]; [done|]. cbn [apply_at] in *. cbn [kids].
      rewrite !ids_Elem, !occ_app in Hocc.
      destruct hn as [| |th ah kh]; try by apply matches_tag in Hm.
      cbn [setAttr] in Hocc. rewrite !ids_Elem, assoc_set_same, !occ_app in Hocc.
      rewrite Hsid in Hocc. rewrite ids_Elem, Hsid, occ_app. lia.
  - apply head_None in Hh. rewrite (reconcile_no_heading _ sid) by done.
    rewrite ids_removeAttr. cbn [kids]. rewrite ids_Elem, occ_app. lia.
Qed.

Lemma occ_step x p doc :
  occ x (ids_all (apply_at_all reconcile p doc)) ≤ occ x (ids_all doc).
Proof.
  destruct (get_all p doc) as [m|] eqn:Hget.
  - pose proof (occ_apply_at_all reconcile x p doc m Hget).
    pose proof (occ_reconcile x m). lia.
  - by rewrite apply_at_all_none.
Qed.

Lemma occ_steps x ps : ∀ doc,
  occ x (ids_all (fold_left (fun d p => apply_at_all reconcile p d) ps doc))
  ≤ occ x (ids_all doc).
Proof.
  induction ps as [|p ps IH]; intros doc; [done|]. cbn [fold_left].
  etrans; [apply IH|]. apply occ_step.
Qed.

(** [setTitlesId] never brings a new id into a content. *)
Lemma ids_setIds content : ids_all (setIds content) ⊆ ids_all content.
Proof.
  intros x Hx. destruct (decide (x ∈ ids_all content)) as [|Hn]; [done|].
  apply occ_zero in Hn. pose proof (occ_steps x (paths_all (SelTag "section") content) content).
  assert (occ x (ids_all (setIds content)) = 0) as H0%occ_zero by (unfold setIds; lia).
  done.
Qed.

(** *** The shape of a document: its tags, attributes and text set aside *)

Fixpoint skel (n : node) : node :=
  match n with
  | Text _ => Text ""
  | Comment _ => Comment ""
  | Elem t _ ks => Elem t [] (map skel ks)
  end.




Lemma skel_alter (g : node → node) i ks :
  (∀ k, ks !! i = Some k → skel (g k) = skel k) →
  map skel (alter g i ks) = map skel ks.
Proof.
  intros Hg. apply list_eq. intros j.
  rewrite !list_lookup_fmap. destruct (decide (i = j)) as [<-|Hne].
  - rewrite list_lookup_alter_eq. destruct (ks !! i) as [k|] eqn:Hk; [|done].
    cbn. by rewrite Hg.
  - by rewrite list_lookup_alter_ne.
Qed.

Lemma skel_apply_at f p :
  (∀ m, skel (f m) = skel m) → ∀ n, skel (apply_at f p n) = skel n.
Proof.
  intros Hf. induction p as [|i p IH]; intros n; [apply Hf|].
  cbn [apply_at]. destruct n as [| |t a ks]; try done.
  cbn [skel]. f_equal. apply skel_alter. intros k _. apply IH.
Qed.

Lemma skel_setAttr k v n : skel (setAttr k v n) = skel n.
Proof. by destruct n. Qed.

Lemma skel_removeAttr k n : skel (removeAttr k n) = skel n.
Proof. by destruct n. Qed.

Lemma skel_reconcile n : skel (reconcile n) = skel n.
Proof.
  unfold reconcile. destruct (negb (truthy (attr "id" n))); [done|].
  destruct (negb (truthy _)); [|done]. rewrite skel_removeAttr.
  destruct (head _); [|done]. apply skel_apply_at. intros m. apply skel_setAttr.
Qed.



Lemma get_removeAttr k p n : p ≠ [] → get p (removeAttr k n) = get p n.
Proof. destruct p as [|i p]; [done|]. intros _. cbn [get]. by rewrite kids_removeAttr. Qed.







End HandleFacts.

(** ** Facts about the callback of [setTitlesId] *)

Module ReconcileFacts.
Import Dom DomFacts Converter HandleFacts.



End ReconcileFacts.

(** ** The outline built over the loaded document *)

Module LoadedOutline.
Import Dom DomFacts Converter InMemory HeapFacts HandleFacts.

Abbreviation body := ReadBack.body (only parsing).
Abbreviation tocList := ReadBack.tocList (only parsing).

Section Run.

Variable idFromRef : option string → string.
Variable addTitleToContent : string → list node → list node.


Lemma collectChapters_state html documentTitle :
  (collectChapters idFromRef addTitleToContent documentTitle (mkState html [])).2 =
  (parseList idFromRef (tocList html) 0 None (mkState (body html) [])).2.
Proof.
  unfold collectChapters, flatten, bind. cbn [_html heap].
  fold (body html). fold (tocList html).
  by destruct (parseList _ _ _ _ _).
Qed.

Lemma collectChapters_post html documentTitle :
  parse_post (body html) None (mkState (body html) [])
    (parseList idFromRef (tocList html) 0 None (mkState (body html) [])).1
    (collectChapters idFromRef addTitleToContent documentTitle (mkState html [])).2.
Proof.
  rewrite collectChapters_state. apply parseList_ok; [done|]. by intros p [=].
Qed.

End Run.

(** *** Extraction order *)

(** The sibling links of a group [g], as the claim words them: a member's
    [next] is the following member, whose [previous] is that same member;
    the first member has no [previous], the last no [next]. *)
Definition sibling_chain (h : list Chapter) (g : list addr) : Prop :=
  (∀ i x y, g !! i = Some x → g !! S i = Some y →
     ∃ cx cy, h !! x = Some cx ∧ h !! y = Some cy ∧
              next cx = Some y ∧ previous cy = Some x) ∧
  (∀ x, head g = Some x → ∃ cx, h !! x = Some cx ∧ previous cx = None) ∧
  (∀ x, last g = Some x → ∃ cx, h !! x = Some cx ∧ next cx = None).

Lemma chain_ok_sibling_chain h g : chain_ok h g → sibling_chain h g.
Proof.
  intros Hc. split; [|split].
  - intros i x y Hx Hy.
    destruct (Hc i x Hx) as (cx & Hcx & _ & Hn).
    destruct (Hc (S i) y Hy) as (cy & Hcy & Hp & _).
    exists cx, cy. repeat split; try done; congruence.
  - intros x Hx. rewrite head_lookup in Hx.
    destruct (Hc 0 x Hx) as (cx & Hcx & Hp & _). by exists cx.
  - intros x Hx. rewrite last_lookup in Hx.
    destruct (Hc _ x Hx) as (cx & Hcx & _ & Hn). exists cx. split; [done|].
    rewrite Hn. apply lookup_ge_None. destruct g; cbn; lia.
Qed.

(** The group [parseList] returns and the children of every chapter it
    created are doubly linked chains. *)
Lemma chain_loaded
    (idFromRef : option string → string) (ul : list node) (lvl : nat) (st : state) :
  let r := parseList idFromRef ul lvl None st in
  sibling_chain (heap r.2) r.1 ∧
  ∀ a c, length (heap st) ≤ a → heap r.2 !! a = Some c →
         sibling_chain (heap r.2) (children c).
Proof.
  intros r.
  destruct (parseList_ok idFromRef (_html st) ul lvl None st) as [_ _ Hseg _ _ Hchain _ _];
    [done|by intros p [=]|].
  split; [by apply chain_ok_sibling_chain|].
  intros a c Ha Hc. apply chain_ok_sibling_chain. by eapply so_chain.
Qed.

(** The labels of the content of the chapter at [a]. *)
Definition chapter_labels (h : list Chapter) (a : addr) : list label :=
  match h !! a with
  | Some c => labels_all (content c)
  | None => []
  end.

Lemma chapter_labels_seq (pre l : list Chapter) :
  flat_map (chapter_labels (pre ++ l)) (seq (length pre) (length l)) = heap_labels l.
Proof.
  revert pre. induction l as [|c l IH]; intros pre; [done|].
  cbn [length seq flat_map]. unfold chapter_labels at 1.
  rewrite list_lookup_middle by done.
  unfold heap_labels. cbn [flat_map]. f_equal.
  specialize (IH (pre ++ [c])). rewrite <- (assoc_L (++)) in IH. cbn [app] in IH.
  rewrite length_app in IH. cbn [length] in IH.
  replace (length pre + 1) with (S (length pre)) in IH by lia. exact IH.
Qed.

(** The flattening of [parseChapters] lists every chapter object once, in
    the order of creation, which is the pre-order of the outline. *)
Lemma book_chapters_all
    (idFromRef : option string → string)
    (addTitleToContent : string → list node → list node)
    (html : list node) (documentTitle : string) :
  let r := collectChapters idFromRef addTitleToContent documentTitle (mkState html []) in
  book_chapters r.1 = seq 0 (length (heap r.2)).
Proof.
  intros r.
  pose proof (collectChapters_post idFromRef addTitleToContent html documentTitle)
    as [_ _ _ _ _ _ _ Hflat].
  fold r in Hflat. cbn [heap length] in Hflat.
  specialize (Hflat (length (heap r.2)) ltac:(lia)). rewrite Nat.sub_0_r in Hflat.
  rewrite <- Hflat. unfold r, collectChapters, flatten, bind. cbn [_html heap].
  fold (body html). fold (tocList html).
  by destruct (parseList _ _ _ _ _).
Qed.

(** With pairwise distinct ids in the document, every node
    of the document (its TOC container set aside) is held exactly once by
    the residual front-matter content (what is left in [this._html], which
    the readme is built from) and the extracted contents of the returned
    chapters together. *)
Lemma partition_loaded
    (idFromRef : option string → string)
    (addTitleToContent : string → list node → list node)
    (html : list node) (documentTitle : string) :
  let r := collectChapters idFromRef addTitleToContent documentTitle (mkState html []) in
  NoDup (ids_all (body html)) →
  readme_content (book_readme r.1) = addTitleToContent documentTitle (_html r.2) ∧
  labels_all (body html) ≡ₚ
    labels_all (_html r.2) ++
    flat_map (chapter_labels (heap r.2)) (book_chapters r.1).
Proof.
  intros r Hnd. split.
  { unfold r, collectChapters, flatten, bind. cbn [_html heap].
    by destruct (parseList _ _ _ _ _). }
  pose proof (book_chapters_all idFromRef addTitleToContent html documentTitle) as Hall.
  fold r in Hall. pose proof (chapter_labels_seq [] (heap r.2)) as Hseq.
  cbn [app length] in Hseq. rewrite Hall, Hseq.
  destruct (collectChapters_post idFromRef addTitleToContent html documentTitle)
    as [_ _ _ _ _ _ Hlab _].
  fold r in Hlab.
  specialize (Hlab Hnd). unfold all_labels in Hlab. cbn [_html heap] in Hlab.
  unfold heap_labels at 1 in Hlab. cbn [flat_map] in Hlab.
  by rewrite app_nil_r in Hlab.
Qed.

End LoadedOutline.


(** ** [Converter] against the converter over a loaded document *)

Module Refinement.
Import Dom DomFacts ReparseFacts InMemory HeapFacts.

(** The steps of [Converter]'s monad. *)
Lemma bind_Ok {A B} (m : Converter.M A) (k : A → Converter.M B) st x st' :
  m st = Converter.Ok x st' → Converter.bind m k st = k x st'.
Proof. unfold Converter.bind. by intros ->. Qed.

Lemma bind_Throw {A B} (m : Converter.M A) (k : A → Converter.M B) st e st' :
  m st = Converter.Throw e st' → Converter.bind m k st = Converter.Throw e st'.
Proof. unfold Converter.bind. by intros ->. Qed.

(** A chapter object of [Converter] with the document [f] for its content. *)
Definition forget (c : Converter.Chapter) (f : list node) : Chapter :=
  mkChapter (Converter.level c) (Converter.parent c) (Converter.type c)
            (Converter.titleId c) (Converter.title c) (Converter.num c)
            (Converter.children c) f (Converter.previous c) (Converter.next c).

(** The sibling links one chapter of a group gets. *)
Definition link (g : list nat) (i : nat) (c : Converter.Chapter) : Converter.Chapter :=
  let c1 := if Nat.ltb 0 i then Converter.set_previous (g !! (i - 1)) c else c in
  if Nat.ltb (i + 1) (length g) then Converter.set_next (g !! (i + 1)) c1 else c1.

Lemma linkSibling_run g i a st :
  Converter.linkSibling g i a st
  = Converter.Ok tt (Converter.mkState (Converter._html st)
                       (alter (link g i) a (Converter.heap st))).
Proof.
  unfold Converter.linkSibling, Converter.bind, Converter.assign, Converter.ret, link.
  destruct st as [d h].
  destruct (Nat.ltb 0 i), (Nat.ltb (i + 1) (length g)); cbn; do 2 f_equal.
  - apply list_alter_alter_eq.
  - by rewrite list_alter_id.
Qed.

Lemma forget_link g i c f : forget (link g i c) f = link_fn g i (forget c f).
Proof. unfold link, link_fn. by destruct (Nat.ltb 0 i), (Nat.ltb (i + 1) (length g)). Qed.

Section Generic.

Variable load : string → list node.
Variable css : string → option selector.
Variable idFromRef : option string → string.

(** [Rt text doc]: the text stands for the document; [P li]: what is known
    of every TOC item; [Q]: what a throw tells. *)
Variable Rt : string → list node → Prop.
Variable P : node → Prop.
Variable Q : Prop.

Definition chapter_rel (c : Converter.Chapter) (ac : Chapter) : Prop :=
  ∃ f, ac = forget c f ∧ Rt (Converter.content c) f.

Definition rel (st : Converter.state) (ast : state) : Prop :=
  Rt (Converter._html st) (_html ast) ∧
  Forall2 chapter_rel (Converter.heap st) (heap ast).

Definition sim {A} (r : Converter.res A) (ar : A * state) : Prop :=
  match r with
  | Converter.Ok x st' => x = ar.1 ∧ rel st' ar.2
  | Converter.Throw _ _ => Q
  end.

Hypothesis Rt_nil : Rt "" [].

Hypothesis extraction : ∀ li text doc,
  P li → Rt text doc →
  let v := Converter.info_titleId (Converter.extractTOCTitleInfo idFromRef [li]) in
  match css (Converter.getChapterSelector (Converter.extractTOCTitleInfo idFromRef [li])) with
  | None => Q
  | Some s =>
      Rt (outerHTML (select_all s (load text))) (select_all (SelIdEq v) doc) ∧
      Rt (outerHTML (detach_all s (load text))) (detach_all (SelIdEq v) doc)
  end.

Lemma rel_alter (fc : Converter.Chapter → Converter.Chapter) (fa : Chapter → Chapter)
    a st ast :
  (∀ c f, fa (forget c f) = forget (fc c) f ∧ Converter.content (fc c) = Converter.content c) →
  rel st ast →
  rel (Converter.mkState (Converter._html st) (alter fc a (Converter.heap st)))
      (mkState (_html ast) (alter fa a (heap ast))).
Proof.
  intros Hf [Hh Hheap]. split; [done|]. cbn [Converter.heap heap].
  apply Forall2_alter; [done|].
  intros c ac _ _ (f & -> & Hc). exists f. destruct (Hf c f) as [-> ->]. done.
Qed.

Lemma sim_parseItem recC recA lvl par g li st ast :
  rel st ast → P li →
  (∀ lvl' par' st' ast', rel st' ast' →
     sim (recC (children_sel (SelTag "ul") [li]) lvl' par' st')
         (recA (children_sel (SelTag "ul") [li]) lvl' par' ast')) →
  sim (Converter.parseItem load css idFromRef recC lvl par g li st)
      (parseItem idFromRef recA lvl par g li ast).
Proof.
  intros [Hh Hheap] HP Hrec. rewrite parseItem_eq. cbv zeta.
  unfold Converter.parseItem.
  set (info := Converter.extractTOCTitleInfo idFromRef [li]).
  set (c0 := Converter.mkChapter lvl par (Converter.info_type info)
               (Converter.info_titleId info) (Converter.info_title info)
               (length g + 1) [] "" None None).
  set (sub := children_sel (SelTag "ul") [li]) in *.
  pose proof (Forall2_length _ _ _ Hheap) as Hlen.
  set (n := length (Converter.heap st)).
  set (st1 := Converter.mkState (Converter._html st) (Converter.heap st ++ [c0])).
  rewrite (bind_Ok _ _ st n st1) by done.
  change (info_type (extractTOCTitleInfo idFromRef [li])) with (Converter.info_type info).
  change (info_titleId (extractTOCTitleInfo idFromRef [li]))
    with (Converter.info_titleId info).
  change (info_title (extractTOCTitleInfo idFromRef [li])) with (Converter.info_title info).
  rewrite <- Hlen. fold n.
  set (ac0 := mkChapter lvl par (Converter.info_type info) (Converter.info_titleId info)
                        (Converter.info_title info) (length g + 1) [] [] None None).
  set (ast1 := mkState (_html ast) (heap ast ++ [ac0])).
  assert (Hrel1 : rel st1 ast1).
  { split; [done|]. cbn [Converter.heap heap]. apply Forall2_app; [done|].
    constructor; [|constructor]. by exists []. }
  specialize (Hrec (lvl + 1) (Some n) st1 ast1 Hrel1).
  destruct (recC sub (lvl + 1) (Some n) st1) as [subs st2|e st2] eqn:E.
  2:{ by rewrite (bind_Throw _ _ st1 e st2). }
  rewrite (bind_Ok _ _ st1 subs st2) by done.
  destruct Hrec as [-> Hrel2].
  set (ar := recA sub (lvl + 1) (Some n) ast1) in *.
  set (st3 := Converter.mkState (Converter._html st2)
                (alter (Converter.set_children ar.1) n (Converter.heap st2))).
  rewrite (bind_Ok _ _ st2 tt st3) by done.
  assert (Hrel3 : rel st3 (mkState (_html ar.2) (alter (set_children ar.1) n (heap ar.2)))).
  { apply rel_alter; [|done]. by intros c f. }
  destruct Hrel3 as [Hh3 Hheap3]. cbn [Converter._html _html Converter.heap heap] in Hh3, Hheap3.
  pose proof (extraction li _ _ HP Hh3) as Hx. cbv zeta in Hx. fold info in Hx.
  unfold Converter.bind at 1. unfold Converter.extractHTML at 1.
  destruct (css (Converter.getChapterSelector info)) as [s|]; [|exact Hx].
  destruct Hx as [Hsel Hdet].
  cbn [Converter._html Converter.heap st3] in *.
  unfold Converter.bind, Converter.assign, Converter.ret.
  cbn [Converter._html Converter.heap].
  split; [done|]. cbn [fst snd]. split; [exact Hdet|]. cbn [Converter.heap heap].
  apply Forall2_alter; [exact Hheap3|].
  intros c ac _ _ (f & -> & Hc). by eexists.
Qed.

Lemma sim_foldM recC recA lvl par l : ∀ g st ast,
  rel st ast →
  Forall P l →
  Forall (fun li => ∀ lvl' par' st' ast', rel st' ast' →
            sim (recC (children_sel (SelTag "ul") [li]) lvl' par' st')
                (recA (children_sel (SelTag "ul") [li]) lvl' par' ast')) l →
  sim (Converter.foldM (Converter.parseItem load css idFromRef recC lvl par) g l st)
      (foldM (parseItem idFromRef recA lvl par) g l ast).
Proof.
  induction l as [|li l IH]; intros g st ast Hrel HP Hrec.
  { by split. }
  apply Forall_cons in HP as [HP1 HP]. apply Forall_cons in Hrec as [Hrec1 Hrec].
  cbn [Converter.foldM foldM]. rewrite bind_eq.
  pose proof (sim_parseItem recC recA lvl par g li st ast Hrel HP1 Hrec1) as Hs.
  destruct (Converter.parseItem load css idFromRef recC lvl par g li st)
    as [g' st'|e st'] eqn:E.
  - rewrite (bind_Ok _ _ st g' st') by done. destruct Hs as [-> Hrel'].
    by apply IH.
  - by rewrite (bind_Throw _ _ st e st').
Qed.

Lemma sim_eachi g l : ∀ i st ast,
  rel st ast →
  sim (Converter.eachi (Converter.linkSibling g) i l st) (eachi (linkSibling g) i l ast).
Proof.
  induction l as [|a l IH]; intros i st ast Hrel.
  { by split. }
  cbn [Converter.eachi eachi]. rewrite bind_eq, linkSibling_eq.
  rewrite (bind_Ok _ _ st tt _ (linkSibling_run g i a st)).
  apply IH. apply rel_alter; [|done].
  intros c f. split; [by rewrite forget_link|].
  unfold link. by destruct (Nat.ltb 0 i), (Nat.ltb (i + 1) (length g)).
Qed.

Lemma children_items s x ul :
  x ∈ children_sel s ul → ∃ u, u ∈ ul ∧ x ∈ kids u.
Proof.
  unfold children_sel. rewrite elem_of_flat_map. intros (u & Hu & Hx).
  exists u. split; [done|]. apply list_elem_of_In, filter_In in Hx as [Hx _].
  by apply list_elem_of_In.
Qed.

Lemma select_kid s k n : k ∈ kids n → select s k ⊆ select s n.
Proof.
  destruct n as [| |t a ks]; [by intros ?%elem_of_nil..|]. cbn [kids]. intros Hk x Hx.
  cbn [select]. apply elem_of_app. right. apply elem_of_flat_map. by exists k.
Qed.

Lemma select_all_elem s n f : n ∈ f → select s n ⊆ select_all s f.
Proof. intros Hn x Hx. apply elem_of_flat_map. by exists n. Qed.

Lemma select_self s n : matches s n = true → n ∈ select s n.
Proof.
  destruct n as [| |t a ks]; [by rewrite ?matches_text, ?matches_comment..|].
  intros Hm. cbn [select]. rewrite Hm. by left.
Qed.

Lemma children_sel_matches s x ul : x ∈ children_sel s ul → matches s x = true.
Proof.
  unfold children_sel. rewrite elem_of_flat_map. intros (u & _ & Hx).
  by apply list_elem_of_In, filter_In in Hx as [_ Hx].
Qed.

(** The items [parseList] goes through, at any depth, are among the [li]
    elements below its list. *)
Lemma item_below li ul :
  li ∈ children_sel (SelTag "li") ul → li ∈ select_all (SelTag "li") ul.
Proof.
  intros Hli. destruct (children_items _ _ _ Hli) as (u & Hu & Hk).
  apply (select_all_elem _ u); [done|]. apply (select_kid _ li); [done|].
  apply select_self. by eapply children_sel_matches.
Qed.

Lemma items_below li ul :
  li ∈ children_sel (SelTag "li") ul →
  select_all (SelTag "li") (children_sel (SelTag "ul") [li]) ⊆ select_all (SelTag "li") ul.
Proof.
  intros Hli x Hx. apply elem_of_flat_map in Hx as (u' & Hu' & Hx).
  destruct (children_items _ _ _ Hu') as (li' & Hli' & Hk').
  apply list_elem_of_singleton in Hli'. subst li'.
  destruct (children_items _ _ _ Hli) as (u & Hu & Hk).
  apply (select_all_elem _ u); [done|]. apply (select_kid _ li); [done|].
  by apply (select_kid _ u').
Qed.

Lemma sim_parseList_fuel fuel : ∀ ul lvl par st ast,
  rel st ast →
  (∀ li, li ∈ select_all (SelTag "li") ul → P li) →
  sim (Converter.parseList_fuel load css idFromRef fuel ul lvl par st)
      (parseList_fuel idFromRef fuel ul lvl par ast).
Proof.
  induction fuel as [|fuel IH]; intros ul lvl par st ast Hrel HP.
  { by split. }
  cbn [Converter.parseList_fuel parseList_fuel]. rewrite !bind_eq. cbn [ret fst snd].
  pose proof (sim_foldM (Converter.parseList_fuel load css idFromRef fuel)
                (parseList_fuel idFromRef fuel) lvl par
                (children_sel (SelTag "li") ul) [] st ast Hrel) as Hs.
  destruct (Converter.foldM _ _ _ st) as [g st1|e st1] eqn:E.
  2:{ rewrite (bind_Throw _ _ st e st1) by done. apply Hs.
      - apply Forall_forall. intros li Hli. by apply HP, item_below.
      - apply Forall_forall. intros li Hli lvl' par' st' ast' Hrel'.
        apply IH; [done|]. intros x Hx. by apply HP, (items_below li). }
  rewrite (bind_Ok _ _ st g st1) by done.
  destruct Hs as [-> Hrel1].
  { apply Forall_forall. intros li Hli. by apply HP, item_below. }
  { apply Forall_forall. intros li Hli lvl' par' st' ast' Hrel'.
    apply IH; [done|]. intros x Hx. by apply HP, (items_below li). }
  set (ar := foldM _ _ _ ast) in *.
  pose proof (sim_eachi ar.1 ar.1 0 st1 ar.2 Hrel1) as Hl.
  unfold Converter.setSiblings, setSiblings.
  destruct (Converter.eachi _ _ _ st1) as [[] st2|e st2] eqn:E2.
  - rewrite (bind_Ok _ _ st1 tt st2) by done. destruct Hl as [_ Hrel2]. by split.
  - by rewrite (bind_Throw _ _ st1 e st2).
Qed.

Lemma sim_parseList ul lvl par st ast :
  rel st ast →
  (∀ li, li ∈ select_all (SelTag "li") ul → P li) →
  sim (Converter.parseList load css idFromRef ul lvl par st)
      (parseList idFromRef ul lvl par ast).
Proof. apply sim_parseList_fuel. Qed.

End Generic.

End Refinement.
(** ** Facts about the node store *)

Module CheerioFacts.
Import Dom Cheerio.

Lemma build_Elem name a ks σ :
  build (Elem name a ks) σ =
  (length (build_all ks σ).2,
   (build_all ks σ).2 ++ [mkD (KTag name) a (build_all ks σ).1]).
Proof.
  cbn [build].
  change ((fix build_all (l : list node) (σ0 : store) : list nat * store :=
             match l with
             | [] => ([], σ0)
             | k :: l' =>
                 let '(h, σ1) := build k σ0 in
                 let '(hs, σ2) := build_all l' σ1 in (h :: hs, σ2)
             end) ks σ) with (build_all ks σ).
  by destruct (build_all ks σ).
Qed.

Lemma build_all_cons k l σ :
  build_all (k :: l) σ =
  ((build k σ).1 :: (build_all l (build k σ).2).1, (build_all l (build k σ).2).2).
Proof.
  cbn [build_all]. destruct (build k σ) as [h σ1]. cbn [fst snd].
  by destruct (build_all l σ1).
Qed.

(** Building only adds nodes, and the handles it returns are new. *)
Lemma build_extends t : ∀ σ,
  (∃ new, (build t σ).2 = σ ++ new) ∧ length σ ≤ (build t σ).1.
Proof.
  induction t as [s|s|name a ks IH] using node_forall_ind; intros σ.
  - split; [by eexists|done].
  - split; [by eexists|done].
  - rewrite build_Elem. cbn [fst snd].
    assert (Hall : ∃ new, (build_all ks σ).2 = σ ++ new).
    { clear a name. revert σ. induction IH as [|k ks Hk _ IHks]; intros σ.
      - exists []. by rewrite app_nil_r.
      - rewrite build_all_cons. cbn [snd].
        destruct (Hk σ) as [[new1 E1] _]. destruct (IHks (build k σ).2) as [new2 E2].
        exists (new1 ++ new2). by rewrite E2, E1, (assoc_L (++)). }
    destruct Hall as [new E]. split.
    + exists (new ++ [mkD (KTag name) a (build_all ks σ).1]).
      by rewrite E, (assoc_L (++)).
    + rewrite E, length_app. lia.
Qed.

Lemma build_all_extends l : ∀ σ,
  (∃ new, (build_all l σ).2 = σ ++ new) ∧
  Forall (fun h => length σ ≤ h) (build_all l σ).1.
Proof.
  induction l as [|k l IH]; intros σ.
  - split; [exists []; by rewrite app_nil_r | constructor].
  - rewrite build_all_cons. cbn [fst snd].
    destruct (build_extends k σ) as [[new1 E1] Hh].
    destruct (IH (build k σ).2) as [[new2 E2] Hhs].
    split.
    + exists (new1 ++ new2). by rewrite E2, E1, (assoc_L (++)).
    + constructor; [done|]. eapply Forall_impl; [exact Hhs|].
      intros h Hle. cbn in Hle. rewrite E1, length_app in Hle. lia.
Qed.



Lemma children_set_children h cs σ h' :
  children (set_children h cs σ) h' =
  if decide (h = h') then (if decide (h < length σ) then cs else []) else children σ h'.
Proof.
  unfold children, set_children. destruct (decide (h = h')) as [<-|Hne].
  - rewrite list_lookup_alter_eq. destruct (decide (h < length σ)) as [Hlt|Hge].
    + destruct (lookup_lt_is_Some_2 σ h Hlt) as [d ->]. done.
    + rewrite (lookup_ge_None_2 σ h) by lia. done.
  - by rewrite list_lookup_alter_ne.
Qed.

Lemma length_set_children h cs σ : length (set_children h cs σ) = length σ.
Proof. apply length_alter. Qed.

Lemma lookup_set_children_ne h cs σ h' :
  h ≠ h' → set_children h cs σ !! h' = σ !! h'.
Proof. intros Hne. by apply list_lookup_alter_ne. Qed.


(** *** The cheerio calls on one element *)





End CheerioFacts.


(** ** What carries over from the loaded document to the texts *)

Module Carried.
Import Dom DomFacts ReparseFacts InMemory HeapFacts Refinement ReadBack.

(** *** [setTitlesId] *)

Section Titles.

Variable load : string → list node.

(** What [setTitlesId] does to one chapter object. *)
Definition retitle (c : Converter.Chapter) : Converter.Chapter :=
  Converter.set_content (outerHTML (Converter.setIds (load (Converter.content c)))) c.

Lemma retitle_loop l : ∀ st,
  Converter.foldM (fun _ a => Converter.assign a retitle) tt l st
  = Converter.Ok tt (Converter.mkState (Converter._html st)
                       (foldl (fun h a => alter retitle a h) (Converter.heap st) l)).
Proof.
  induction l as [|a l IH]; intros st; [by destruct st|].
  cbn [Converter.foldM foldl].
  rewrite (bind_Ok _ _ st tt (Converter.mkState (Converter._html st)
                               (alter retitle a (Converter.heap st)))) by done.
  by rewrite IH.
Qed.

Lemma setTitlesId_run b st :
  Converter.setTitlesId load b st
  = Converter.Ok
      (Converter.mkBook
         (Converter.mkReadme
            (Converter.readme_title (Converter.book_readme b))
            (outerHTML (Converter.setIds
                          (load (Converter.readme_content (Converter.book_readme b))))))
         (Converter.book_chapters b))
      (Converter.mkState (Converter._html st)
         (foldl (fun h a => alter retitle a h) (Converter.heap st)
                (Converter.book_chapters b))).
Proof.
  unfold Converter.setTitlesId.
  by rewrite (bind_Ok _ _ st tt _ (retitle_loop (Converter.book_chapters b) st)).
Qed.

Lemma retitled_length l : ∀ h : list Converter.Chapter,
  length (foldl (fun h a => alter retitle a h) h l) = length h.
Proof.
  induction l as [|a l IH]; intros h; [done|]. cbn [foldl]. by rewrite IH, length_alter.
Qed.

Lemma retitled_other l a : ∀ h : list Converter.Chapter,
  a ∉ l → foldl (fun h a => alter retitle a h) h l !! a = h !! a.
Proof.
  induction l as [|x l IH]; intros h Ha; [done|].
  apply not_elem_of_cons in Ha as [Hne Ha]. cbn [foldl].
  rewrite IH by done. by rewrite list_lookup_alter_ne.
Qed.

(** Every chapter of the list is rewritten once. *)
Lemma retitled_lookup l a : ∀ h : list Converter.Chapter,
  NoDup l → a ∈ l →
  foldl (fun h a => alter retitle a h) h l !! a = retitle <$> h !! a.
Proof.
  induction l as [|x l IH]; intros h Hnd Ha; [by apply elem_of_nil in Ha|].
  apply NoDup_cons in Hnd as [Hx Hnd]. cbn [foldl].
  destruct (decide (a = x)) as [->|Hne].
  - rewrite retitled_other by done. by rewrite list_lookup_alter_eq.
  - apply elem_of_cons in Ha as [?|Ha]; [done|].
    rewrite IH by done. by rewrite list_lookup_alter_ne.
Qed.

Lemma retitled_all (h : list Converter.Chapter) :
  foldl (fun h a => alter retitle a h) h (seq 0 (length h)) = retitle <$> h.
Proof.
  apply list_eq. intros a. rewrite list_lookup_fmap.
  destruct (decide (a < length h)) as [Hlt|Hge].
  - apply retitled_lookup; [apply NoDup_seq|]. apply elem_of_seq. lia.
  - rewrite retitled_other by (rewrite elem_of_seq; lia).
    assert (h !! a = None) as -> by (apply lookup_ge_None; lia). done.
Qed.

End Titles.

(** *** The outline alone *)

(** The chapter objects of the two converters agree on everything but the
    contents. *)
Definition same_shape (h : list Converter.Chapter) (ah : list Chapter) : Prop :=
  Forall2 (chapter_rel (fun _ _ => True)) h ah.

Lemma same_shape_lookup h ah a c :
  same_shape h ah → h !! a = Some c → ∃ f, ah !! a = Some (forget c f).
Proof.
  intros Hs Hc. destruct (Forall2_lookup_l _ _ _ _ _ Hs Hc) as (ac & Hac & f & -> & _).
  by exists f.
Qed.

Lemma same_shape_start (h : list Converter.Chapter) :
  same_shape h (map (fun c => forget c []) h).
Proof. induction h as [|c h IH]; constructor; [by exists []|done]. Qed.

Lemma getChildrenDeep_shape fuel : ∀ h ah a,
  same_shape h ah →
  Converter.getChildrenDeep fuel h a = getChildrenDeep fuel ah a.
Proof.
  induction fuel as [|fuel IH]; intros h ah a Hs; [done|].
  cbn [Converter.getChildrenDeep getChildrenDeep].
  destruct (h !! a) as [c|] eqn:Hc.
  - destruct (same_shape_lookup _ _ _ _ Hs Hc) as (f & ->). cbn [children forget].
    apply flat_map_ext. intros k. f_equal. by apply IH.
  - apply lookup_ge_None in Hc. rewrite (Forall2_length _ _ _ Hs) in Hc.
    apply lookup_ge_None in Hc. by rewrite Hc.
Qed.

Section Outline.

Variable load : string → list node.
Variable css : string → option selector.
Variable idFromRef : option string → string.

Lemma parseList_shape ul lvl par st ast :
  same_shape (Converter.heap st) (heap ast) →
  match Converter.parseList load css idFromRef ul lvl par st with
  | Converter.Ok g st' =>
      g = (parseList idFromRef ul lvl par ast).1 ∧
      same_shape (Converter.heap st') (heap (parseList idFromRef ul lvl par ast).2)
  | Converter.Throw _ _ => True
  end.
Proof.
  intros Hs.
  pose proof (sim_parseList load css idFromRef (fun _ _ => True) (fun _ => True) True I)
    as Hsim.
  specialize (Hsim ltac:(intros; by destruct (css _)) ul lvl par st ast).
  specialize (Hsim ltac:(by split) ltac:(done)).
  unfold sim in Hsim. destruct (Converter.parseList _ _ _ _ _ _ _); [|done].
  destruct Hsim as [-> [_ Hh]]. by split.
Qed.

(** [parseList] returns when the selector text of every item is a selector:
    nothing else in it throws. *)
Lemma parseList_returns ul lvl par st :
  selectors_read css idFromRef ul →
  ∃ g st', Converter.parseList load css idFromRef ul lvl par st = Converter.Ok g st'.
Proof.
  intros Hread.
  pose proof (sim_parseList load css idFromRef (fun _ _ => True)
                (selector_read css idFromRef) False I)
    as Hsim.
  assert (Hext : ∀ li (text : string) (doc : list node),
    selector_read css idFromRef li → True →
    let v := Converter.info_titleId (Converter.extractTOCTitleInfo idFromRef [li]) in
    match css (Converter.getChapterSelector
                 (Converter.extractTOCTitleInfo idFromRef [li])) with
    | None => False
    | Some s => True ∧ True
    end).
  { intros li text doc [s Hs] _. cbv zeta. by rewrite Hs. }
  specialize (Hsim Hext ul lvl par st
                (mkState [] (map (fun c => forget c []) (Converter.heap st)))).
  specialize (Hsim ltac:(split; [done|apply same_shape_start]) Hread).
  unfold sim in Hsim.
  destruct (Converter.parseList _ _ _ _ _ _ _) as [g st'|]; [|done]. by exists g, st'.
Qed.

Variable addTitleToContent : string → string → string.
Variable html : string.
Variable documentTitle : string.

(** The run over the document [load html], kept loaded. *)
Definition loaded : book * state :=
  collectChapters idFromRef (fun _ f => f) documentTitle (mkState (load html) []).

Definition loaded_list : list nat * state :=
  parseList idFromRef (tocList (load html)) 0 None (mkState (body (load html)) []).

Lemma loaded_eq :
  loaded =
  (mkBook (mkReadme documentTitle (_html loaded_list.2))
          (flat_map (fun a => a :: getChildrenDeep (length (heap loaded_list.2))
                                                   (heap loaded_list.2) a)
                    loaded_list.1),
   loaded_list.2).
Proof.
  unfold loaded, loaded_list, collectChapters, flatten, bind, body, tocList.
  cbn [_html heap]. by destruct (parseList _ _ _ _ _).
Qed.

Lemma collectChapters_run g st :
  Converter.parseList load css idFromRef (tocList (load html)) 0 None
    (Converter.mkState (outerHTML (body (load html))) []) = Converter.Ok g st →
  Converter.collectChapters load css idFromRef addTitleToContent documentTitle
    (Converter.mkState html [])
  = Converter.Ok
      (Converter.mkBook
         (Converter.mkReadme documentTitle
            (addTitleToContent documentTitle (Converter._html st)))
         (flat_map (fun a => a :: Converter.getChildrenDeep
                                    (length (Converter.heap st)) (Converter.heap st) a) g))
      st.
Proof.
  intros Hg. unfold Converter.collectChapters. cbn [Converter._html Converter.heap].
  fold (body (load html)). fold (tocList (load html)).
  by rewrite (bind_Ok _ _ _ g st Hg).
Qed.

Lemma collectChapters_throw e st :
  Converter.parseList load css idFromRef (tocList (load html)) 0 None
    (Converter.mkState (outerHTML (body (load html))) []) = Converter.Throw e st →
  Converter.collectChapters load css idFromRef addTitleToContent documentTitle
    (Converter.mkState html [])
  = Converter.Throw e st.
Proof.
  intros Hg. unfold Converter.collectChapters. cbn [Converter._html Converter.heap].
  fold (body (load html)). fold (tocList (load html)).
  by rewrite (bind_Throw _ _ _ e st Hg).
Qed.

(** A run of [collectChapters] that returns has built the outline of the
    run over the loaded document. *)
Lemma collectChapters_shape b st :
  Converter.collectChapters load css idFromRef addTitleToContent documentTitle
    (Converter.mkState html []) = Converter.Ok b st →
  Converter.book_chapters b = book_chapters loaded.1 ∧
  same_shape (Converter.heap st) (heap loaded.2).
Proof.
  intros Hrun.
  pose proof (parseList_shape (tocList (load html)) 0 None
                (Converter.mkState (outerHTML (body (load html))) [])
                (mkState (body (load html)) []) ltac:(constructor)) as Hs.
  fold loaded_list in Hs.
  destruct (Converter.parseList _ _ _ _ _ _ _) as [g st1|e st1] eqn:E.
  - rewrite (collectChapters_run g st1 E) in Hrun. injection Hrun as <- <-.
    destruct Hs as [-> Hs]. rewrite loaded_eq. cbn [fst snd book_chapters Converter.book_chapters].
    split; [|done]. rewrite (Forall2_length _ _ _ Hs).
    apply flat_map_ext. intros a. f_equal. by apply getChildrenDeep_shape.
  - by rewrite (collectChapters_throw e st1 E) in Hrun.
Qed.

(** [parseChapters] is [collectChapters] followed by [setTitlesId], which
    cannot throw. *)
Lemma parseChapters_run b st :
  Converter.parseChapters load css idFromRef addTitleToContent documentTitle
    (Converter.mkState html []) = Converter.Ok b st ↔
  ∃ b0 st0,
    Converter.collectChapters load css idFromRef addTitleToContent documentTitle
      (Converter.mkState html []) = Converter.Ok b0 st0 ∧
    Converter.setTitlesId load b0 st0 = Converter.Ok b st.
Proof.
  unfold Converter.parseChapters, Converter.bind.
  destruct (Converter.collectChapters _ _ _ _ _ _) as [b0 st0|e st0].
  - split; [intros H; by exists b0, st0|]. by intros (b1 & st1 & [= <- <-] & H).
  - split; [done|]. by intros (b1 & st1 & [=] & _).
Qed.

End Outline.

(** *** The contents, when the texts are read back *)

Section Contents.

Variable load : string → list node.
Variable css : string → option selector.
Variable idFromRef : option string → string.

(** [D] is the body of the document. *)
Variable D : list node.

(** The text is the serializer's text for a document made of [D] that
    parses to what [doc] parses to. *)
Definition stands_for (text : string) (doc : list node) : Prop :=
  ∃ E, text = outerHTML E ∧ made_of D E ∧ reparse E = reparse doc.

Hypothesis Hload : reads_back load D.

Lemma stands_for_load text doc : stands_for text doc → load text = reparse doc.
Proof. intros (E & -> & HE & <-). by apply Hload. Qed.

Lemma stands_for_labels text doc :
  stands_for text doc → labels_all (load text) = labels_all doc.
Proof. intros H. by rewrite (stands_for_load _ _ H), labels_all_reparse. Qed.

Definition full (st : Converter.state) (ast : state) : Prop := rel stands_for st ast.

Lemma full_lookup st ast a c :
  full st ast → Converter.heap st !! a = Some c →
  ∃ f, heap ast !! a = Some (forget c f) ∧ stands_for (Converter.content c) f.
Proof.
  intros [_ Hs] Hc. destruct (Forall2_lookup_l _ _ _ _ _ Hs Hc) as (ac & Hac & f & -> & Hf).
  by exists f.
Qed.

Lemma full_shape st ast : full st ast → same_shape (Converter.heap st) (heap ast).
Proof.
  intros [_ Hs]. eapply Forall2_impl; [exact Hs|].
  intros c ac (f & -> & _). by exists f.
Qed.

Lemma parseList_full ul lvl par st ast :
  anchors_read css idFromRef ul →
  full st ast →
  ∃ st',
    Converter.parseList load css idFromRef ul lvl par st
    = Converter.Ok (parseList idFromRef ul lvl par ast).1 st' ∧
    full st' (parseList idFromRef ul lvl par ast).2.
Proof.
  intros Hread Hfull.
  pose proof (sim_parseList load css idFromRef stands_for
                (anchor_read css idFromRef) False) as Hsim.
  assert (Hnil : stands_for "" []) by (exists []; split; [done|]; split; [constructor|done]).
  specialize (Hsim Hnil).
  assert (Hext : ∀ li text doc,
    anchor_read css idFromRef li → stands_for text doc →
    let v := Converter.info_titleId (Converter.extractTOCTitleInfo idFromRef [li]) in
    match css (Converter.getChapterSelector
                 (Converter.extractTOCTitleInfo idFromRef [li])) with
    | None => False
    | Some s =>
        stands_for (outerHTML (select_all s (load text))) (select_all (SelIdEq v) doc) ∧
        stands_for (outerHTML (detach_all s (load text))) (detach_all (SelIdEq v) doc)
    end).
  { intros li text doc Hli Hst v. unfold anchor_read in Hli. rewrite Hli. fold v.
    pose proof (stands_for_load _ _ Hst) as Hl. destruct Hst as (E & -> & HE & HEq).
    rewrite Hl. split.
    - exists (select_all (SelIdEq v) (reparse doc)). split; [done|]. split.
      + rewrite <- HEq. by apply made_select, made_reparse.
      + apply reparse_select_all.
    - exists (detach_all (SelIdEq v) (reparse doc)). split; [done|]. split.
      + rewrite <- HEq. by apply made_detach, made_reparse.
      + apply reparse_detach_all. }
  specialize (Hsim Hext ul lvl par st ast Hfull Hread).
  unfold sim in Hsim. destruct (Converter.parseList _ _ _ _ _ _ _) as [g st'|]; [|done].
  destruct Hsim as [-> Hrel]. by exists st'.
Qed.

End Contents.

(** *** The whole of [parseChapters], when the texts are read back *)

Section Whole.

Variable load : string → list node.
Variable css : string → option selector.
Variable idFromRef : option string → string.
Variable addTitleToContent : string → string → string.
Variable html : string.
Variable documentTitle : string.

Hypothesis Hload : reads_back load (body (load html)).
Hypothesis Hcss : anchors_read css idFromRef (tocList (load html)).

Lemma collectChapters_full :
  ∃ st,
    Converter.collectChapters load css idFromRef addTitleToContent documentTitle
      (Converter.mkState html [])
    = Converter.Ok
        (Converter.mkBook
           (Converter.mkReadme documentTitle
              (addTitleToContent documentTitle (Converter._html st)))
           (seq 0 (length (Converter.heap st))))
        st ∧
    full (body (load html)) st (loaded load idFromRef html documentTitle).2.
Proof.
  destruct (parseList_full load css idFromRef (body (load html)) Hload
              (tocList (load html)) 0 None
              (Converter.mkState (outerHTML (body (load html))) [])
              (mkState (body (load html)) []) Hcss) as (st & Hrun & Hfull).
  { split; [|constructor]. exists (body (load html)). split; [done|]. split; [constructor|done]. }
  fold (loaded_list load idFromRef html) in Hrun, Hfull.
  exists st. rewrite (collectChapters_run load css idFromRef addTitleToContent html
                        documentTitle _ st Hrun).
  pose proof (full_shape _ _ _ Hfull) as Hs.
  pose proof (LoadedOutline.book_chapters_all idFromRef (fun _ f => f) (load html)
                documentTitle) as Hall.
  cbv zeta in Hall. fold (loaded load idFromRef html documentTitle) in Hall.
  rewrite loaded_eq in Hall |- *. cbn [fst snd book_chapters] in Hall |- *.
  split; [|done]. do 2 f_equal.
  rewrite (Forall2_length _ _ _ Hs), <- Hall.
  apply flat_map_ext. intros a. f_equal. by apply getChildrenDeep_shape.
Qed.

Lemma parseChapters_full :
  ∃ st0,
    Converter.collectChapters load css idFromRef addTitleToContent documentTitle
      (Converter.mkState html [])
    = Converter.Ok
        (Converter.mkBook
           (Converter.mkReadme documentTitle
              (addTitleToContent documentTitle (Converter._html st0)))
           (seq 0 (length (Converter.heap st0))))
        st0 ∧
    full (body (load html)) st0 (loaded load idFromRef html documentTitle).2 ∧
    Converter.parseChapters load css idFromRef addTitleToContent documentTitle
      (Converter.mkState html [])
    = Converter.Ok
        (Converter.mkBook
           (Converter.mkReadme documentTitle
              (outerHTML (Converter.setIds
                 (load (addTitleToContent documentTitle (Converter._html st0))))))
           (seq 0 (length (Converter.heap st0))))
        (Converter.mkState (Converter._html st0) (retitle load <$> Converter.heap st0)).
Proof.
  destruct collectChapters_full as (st0 & Hrun & Hfull).
  exists st0. split; [done|]. split; [done|].
  unfold Converter.parseChapters.
  rewrite (bind_Ok _ _ _ _ st0 Hrun), setTitlesId_run.
  cbn [Converter.book_readme Converter.readme_title Converter.readme_content
       Converter.book_chapters].
  by rewrite retitled_all.
Qed.

(** What a chapter's content is read as, before and after [setTitlesId]. *)
Lemma content_loaded st0 a c0 :
  full (body (load html)) st0 (loaded load idFromRef html documentTitle).2 →
  Converter.heap st0 !! a = Some c0 →
  ∃ f E,
    heap (loaded load idFromRef html documentTitle).2 !! a = Some (forget c0 f) ∧
    Converter.content c0 = outerHTML E ∧
    load (Converter.content c0) = reparse E ∧
    reparse E = reparse f ∧
    load (Converter.content (retitle load c0)) = reparse (Converter.setIds (reparse E)).
Proof.
  intros Hfull Hc0.
  destruct (full_lookup _ _ _ _ _ Hfull Hc0) as (f & Hf & E & HE & Hmade & Heq).
  exists f, E. split; [done|]. split; [done|].
  assert (Hl : load (Converter.content c0) = reparse E) by (rewrite HE; by apply Hload).
  split; [done|]. split; [done|].
  unfold retitle. cbn [Converter.content Converter.set_content]. rewrite Hl.
  apply Hload. by apply made_setIds, made_reparse.
Qed.

End Whole.

End Carried.
(** ** Selection and removal *)

Module ExtractFacts.
Import Dom DomFacts Converter InMemory HandleFacts.

(** Whether a selector matches an element is decided by the tag and the
    attributes of the element. *)
Lemma matches_kids s t a ks ks' :
  matches s (Elem t a ks') = matches s (Elem t a ks).
Proof.
  induction s as [| | | | | |s1 IH1 s2 IH2]; try done.
  cbn [matches is_tag andb] in *. by rewrite IH1, IH2.
Qed.

Lemma matches_Text s x : matches s (Text x) = false.
Proof. by destruct s. Qed.

Lemma matches_Comment s x : matches s (Comment x) = false.
Proof. by destruct s. Qed.

Lemma detach_Elem s t a ks :
  detach s (Elem t a ks) =
  if matches s (Elem t a ks) then [] else [Elem t a (detach_all s ks)].
Proof. done. Qed.

Lemma select_all_app s f g : select_all s (f ++ g) = select_all s f ++ select_all s g.
Proof. apply flat_map_app. Qed.

(** What is left after [remove()] holds no match. *)
Lemma select_detach s n : select_all s (detach s n) = [].
Proof.
  induction n as [x|x|t a ks IH] using node_forall_ind.
  - cbn [detach]. by rewrite matches_Text.
  - cbn [detach]. by rewrite matches_Comment.
  - rewrite detach_Elem. destruct (matches s (Elem t a ks)) eqn:Hm; [done|].
    cbn [select_all flat_map select]. rewrite (matches_kids s t a ks), Hm, app_nil_r.
    cbn [app]. clear Hm. induction IH as [|k ks Hk _ IHks]; [done|].
    unfold detach_all. cbn [flat_map]. rewrite flat_map_app.
    change (flat_map (select s) (detach s k)) with (select_all s (detach s k)).
    by rewrite Hk.
Qed.

Lemma select_detach_all s doc : select_all s (detach_all s doc) = [].
Proof.
  induction doc as [|n doc IH]; [done|].
  unfold detach_all. cbn [flat_map]. rewrite select_all_app, select_detach.
  exact IH.
Qed.

(** Where nothing matches, [remove()] changes nothing. *)
Lemma detach_nomatch s n : select s n = [] → detach s n = [n].
Proof.
  induction n as [x|x|t a ks IH] using node_forall_ind; intros Hsel.
  - cbn [detach]. by rewrite matches_Text.
  - cbn [detach]. by rewrite matches_Comment.
  - rewrite detach_Elem. cbn [select] in Hsel.
    destruct (matches s (Elem t a ks)); [done|]. cbn [app] in Hsel.
    do 2 f_equal. induction IH as [|k ks Hk _ IHks]; [done|].
    cbn [flat_map] in Hsel. apply app_eq_nil in Hsel as [H1 H2].
    unfold detach_all. cbn [flat_map]. rewrite (Hk H1). cbn [app]. f_equal.
    by apply IHks.
Qed.

Lemma detach_all_nomatch s doc : select_all s doc = [] → detach_all s doc = doc.
Proof.
  induction doc as [|n doc IH]; intros Hsel; [done|].
  cbn [select_all flat_map] in Hsel. apply app_eq_nil in Hsel as [H1 H2].
  unfold detach_all. cbn [flat_map]. rewrite (detach_nomatch _ _ H1). cbn [app].
  f_equal. by apply IH.
Qed.

(** Every selected element carries the id the selector asks for. *)
Lemma select_id_attr v n :
  Forall (fun m => attr "id" m = Some v) (select (SelIdEq v) n).
Proof.
  induction n as [x|x|t a ks IH] using node_forall_ind; try by constructor.
  cbn [select]. apply Forall_app. split.
  - destruct (matches (SelIdEq v) (Elem t a ks)) eqn:Hm; [|constructor].
    constructor; [|constructor]. cbn [attr]. by apply (matches_IdEq v t a ks).
  - induction IH as [|k ks Hk _ IHks]; [constructor|].
    cbn [flat_map]. apply Forall_app. by split.
Qed.

Lemma select_id_count v n : length (select (SelIdEq v) n) ≤ occ v (ids n).
Proof.
  induction n as [x|x|t a ks IH] using node_forall_ind; try done.
  cbn [select]. rewrite ids_Elem, length_app, occ_app.
  apply Nat.add_le_mono.
  - destruct (matches (SelIdEq v) (Elem t a ks)) eqn:Hm; [|cbn; lia].
    apply (matches_IdEq v t a ks) in Hm. rewrite Hm. cbn.
    by rewrite String.eqb_refl.
  - induction IH as [|k ks Hk _ IHks]; [done|].
    cbn [flat_map]. rewrite length_app, ids_all_cons, occ_app. lia.
Qed.

Lemma select_all_id_count v doc :
  length (select_all (SelIdEq v) doc) ≤ occ v (ids_all doc).
Proof.
  induction doc as [|n doc IH]; [done|].
  cbn [select_all flat_map]. rewrite length_app, ids_all_cons, occ_app.
  pose proof (select_id_count v n). unfold select_all in IH. lia.
Qed.

Lemma NoDup_occ x l : NoDup l → occ x l ≤ 1.
Proof.
  induction 1 as [|y l Hy _ IH]; [cbn; lia|]. cbn [occ].
  destruct (String.eqb_spec x y) as [->|Hne]; [|lia].
  apply occ_zero in Hy. lia.
Qed.

End ExtractFacts.

(** ** The loop of [setTitlesId] on a document *)

Module TitleIds.
Import Dom DomFacts Converter InMemory HeapFacts HandleFacts ExtractFacts.

(** A document with every [id] attribute taken off: what is left is its
    tags, its other attributes, its text, its comments and its nesting. *)
Fixpoint strip_ids (n : node) : node :=
  match n with
  | Elem t a ks => Elem t (assoc_del "id" a) (map strip_ids ks)
  | _ => n
  end.

Lemma assoc_del_set k v a : assoc_del k (assoc_set k v a) = assoc_del k a.
Proof.
  induction a as [|[k' v'] a IH]; cbn.
  - by rewrite String.eqb_refl.
  - destruct (String.eqb k k') eqn:E; cbn; rewrite E; [done|]. by rewrite IH.
Qed.

Lemma assoc_del_del k a : assoc_del k (assoc_del k a) = assoc_del k a.
Proof.
  induction a as [|[k' v'] a IH]; cbn; [done|].
  destruct (String.eqb k k') eqn:E; [done|]. cbn. by rewrite E, IH.
Qed.

Lemma strip_setAttr v n : strip_ids (setAttr "id" v n) = strip_ids n.
Proof. destruct n as [| |t a ks]; try done. cbn. by rewrite assoc_del_set. Qed.

Lemma strip_removeAttr n : strip_ids (removeAttr "id" n) = strip_ids n.
Proof. destruct n as [| |t a ks]; try done. cbn. by rewrite assoc_del_del. Qed.

Lemma strip_alter (g : node → node) i ks :
  (∀ k, ks !! i = Some k → strip_ids (g k) = strip_ids k) →
  map strip_ids (alter g i ks) = map strip_ids ks.
Proof.
  intros Hg. apply list_eq. intros j.
  rewrite !list_lookup_fmap. destruct (decide (i = j)) as [<-|Hne].
  - rewrite list_lookup_alter_eq. destruct (ks !! i) as [k|] eqn:Hk; [|done].
    cbn. by rewrite Hg.
  - by rewrite list_lookup_alter_ne.
Qed.

Lemma strip_apply_at f p :
  (∀ m, strip_ids (f m) = strip_ids m) → ∀ n, strip_ids (apply_at f p n) = strip_ids n.
Proof.
  intros Hf. induction p as [|i p IH]; intros n; [apply Hf|].
  cbn [apply_at]. destruct n as [| |t a ks]; try done.
  cbn [strip_ids]. f_equal. apply strip_alter. intros k _. apply IH.
Qed.

Lemma strip_reconcile n : strip_ids (reconcile n) = strip_ids n.
Proof.
  unfold reconcile. destruct (negb (truthy (attr "id" n))); [done|].
  destruct (negb (truthy _)); [|done]. rewrite strip_removeAttr.
  destruct (head _); [|done]. apply strip_apply_at. intros m. apply strip_setAttr.
Qed.

Lemma strip_setIds content : map strip_ids (setIds content) = map strip_ids content.
Proof.
  unfold setIds. generalize (paths_all (SelTag "section") content).
  intros ps. revert content. induction ps as [|p ps IH]; intros content; [done|].
  cbn [fold_left]. rewrite IH. destruct p as [|i p]; [done|].
  cbn [apply_at_all]. apply strip_alter. intros k _.
  apply strip_apply_at, strip_reconcile.
Qed.

Lemma occ_setIds x content :
  occ x (ids_all (setIds content)) ≤ occ x (ids_all content).
Proof. apply occ_steps. Qed.

Lemma occ_NoDup l : (∀ x, occ x l ≤ 1) → NoDup l.
Proof.
  induction l as [|y l IH]; intros Hocc; [constructor|].
  constructor.
  - apply occ_zero. specialize (Hocc y). cbn [occ] in Hocc.
    rewrite String.eqb_refl in Hocc. lia.
  - apply IH. intros x. specialize (Hocc x). cbn [occ] in Hocc. lia.
Qed.


(** [setTitlesId] gives no id a further occurrence in a content: it
    moves an id from a section to a heading or drops it.  Ids that were
    pairwise distinct in a content are so afterwards. *)
Lemma setIds_keeps_ids_distinct (content : list node) :
  NoDup (ids_all content) →
  NoDup (ids_all (setIds content)) ∧
  ∀ x, occ x (ids_all (setIds content)) ≤ occ x (ids_all content).
Proof.
  intros Hnd. split; [|intros x; apply occ_setIds].
  apply occ_NoDup. intros x. etrans; [apply occ_setIds|]. by apply NoDup_occ.
Qed.

(** *** Running the reconciler again *)

(** The id [reconcile] reads off the first heading below [m]. *)
Definition heading_id (m : node) : option string :=
  match head (find_paths SelHeader m) with
  | Some hp => match get hp m with Some hn => attr "id" hn | None => None end
  | None => None
  end.

(** [reconcile] has nothing to do on [m]: [m] has no id, or its first
    heading has one. *)
Definition settled (m : node) : bool :=
  negb (truthy (attr "id" m)) || truthy (heading_id m).

Definition is_header (m : node) : bool := matches SelHeader m.

Lemma reconcile_settled m : settled m = true → reconcile m = m.
Proof.
  unfold settled, heading_id, reconcile.
  destruct (truthy (attr "id" m)); cbn [negb orb]; [|done]. by intros ->.
Qed.

Lemma settled_reconcile m : settled (reconcile m) = true.
Proof.
  destruct (truthy (attr "id" m)) eqn:Hid.
  2:{ rewrite reconcile_no_id by done. unfold settled. by rewrite Hid. }
  apply truthy_Some in Hid as (sid & Hsid & Hne).
  destruct (head (find_paths SelHeader m)) as [hp|] eqn:Hh.
  - destruct (find_paths_sound _ _ _ (head_elem_of _ _ Hh)) as (Hnil & hn & Hget & Hm).
    destruct (truthy (attr "id" hn)) eqn:Hhid.
    + rewrite (reconcile_heading_has_id _ hp hn) by done.
      unfold settled, heading_id. rewrite Hh, Hget, Hhid. apply orb_true_r.
    + rewrite (reconcile_move _ hp hn sid) by done.
      unfold settled. by rewrite attr_removeAttr.
  - apply head_None in Hh. rewrite (reconcile_no_heading _ sid) by done.
    unfold settled. by rewrite attr_removeAttr.
Qed.

(** The shape of a document decides where its headings and sections are. *)
Lemma get_skel p : ∀ n, get p (skel n) = skel <$> get p n.
Proof.
  induction p as [|i p IH]; intros n; [done|].
  cbn [get]. destruct n as [| |t a ks]; try done.
  cbn [skel kids]. rewrite list_lookup_fmap.
  destruct (ks !! i) as [k|]; [apply IH|done].
Qed.

Lemma skel_get p n n' s :
  skel n = skel n' → get p n = Some s → ∃ s', get p n' = Some s' ∧ skel s = skel s'.
Proof.
  intros Hsk Hget. pose proof (get_skel p n') as H'.
  rewrite <- Hsk, get_skel, Hget in H'.
  destruct (get p n') as [s'|]; [|done]. exists s'. split; [done|].
  cbn in H'. by injection H'.
Qed.

Lemma is_header_skel n n' : skel n = skel n' → is_header n = is_header n'.
Proof. destruct n, n'; try done. cbn [skel]. by intros [= -> _]. Qed.

Lemma paths_skel s :
  (∀ n, matches s (skel n) = matches s n) → ∀ n, paths s (skel n) = paths s n.
Proof.
  intros Hs. induction n as [x|x|t a ks IH] using node_forall_ind; try done.
  specialize (Hs (Elem t a ks)). cbn [skel] in *. rewrite !paths_Elem, Hs. f_equal.
  clear Hs. generalize 0. induction IH as [|k ks Hk _ IHks]; intros i; [done|].
  cbn [map paths_from]. by rewrite Hk, IHks.
Qed.

Lemma paths_from_skel s l :
  (∀ n, matches s (skel n) = matches s n) →
  ∀ i, paths_from s i (map skel l) = paths_from s i l.
Proof.
  intros Hs. induction l as [|k l IH]; intros i; [done|].
  cbn [map paths_from]. by rewrite paths_skel, IH.
Qed.

Lemma matches_header_skel n : matches SelHeader (skel n) = matches SelHeader n.
Proof. by destruct n. Qed.

Lemma matches_section_skel n :
  matches (SelTag "section") (skel n) = matches (SelTag "section") n.
Proof. by destruct n. Qed.

Lemma find_paths_skel n n' :
  skel n = skel n' → find_paths SelHeader n = find_paths SelHeader n'.
Proof.
  intros Hsk. unfold find_paths.
  rewrite <- (paths_from_skel SelHeader (kids n) matches_header_skel).
  rewrite <- (paths_from_skel SelHeader (kids n') matches_header_skel).
  f_equal. destruct n, n'; try done. cbn [skel kids] in *. by injection Hsk.
Qed.

(** How the ids of a document [n] stand to those of a later state [n'] of
    it: the shape is the same; a heading that had an id has one; an element
    that is no heading and has an id had one. *)
Definition idrel (s s' : node) : Prop :=
  (is_header s = true → truthy (attr "id" s) = true → truthy (attr "id" s') = true) ∧
  (is_header s' = false → truthy (attr "id" s') = true → truthy (attr "id" s) = true).

Definition later (n n' : node) : Prop :=
  skel n = skel n' ∧
  ∀ p s s', get p n = Some s → get p n' = Some s' → idrel s s'.

Lemma idrel_refl s : idrel s s.
Proof. by split. Qed.

Lemma later_refl n : later n n.
Proof.
  split; [done|]. intros p s s' Hs Hs'. rewrite Hs in Hs'. injection Hs' as <-.
  apply idrel_refl.
Qed.

Lemma later_trans n1 n2 n3 : later n1 n2 → later n2 n3 → later n1 n3.
Proof.
  intros [S12 H12] [S23 H23]. split; [congruence|].
  intros p s1 s3 H1 H3.
  destruct (skel_get p n1 n2 s1 S12 H1) as (s2 & H2 & Hs12).
  destruct (skel_get p n2 n3 s2 S23 H2) as (s3' & H3' & Hs23).
  assert (s3' = s3) as -> by congruence.
  destruct (H12 p s1 s2 H1 H2) as [A1 B1]. destruct (H23 p s2 s3 H2 H3) as [A2 B2].
  pose proof (is_header_skel _ _ Hs12) as E12. pose proof (is_header_skel _ _ Hs23) as E23.
  split.
  - intros Hh Ht. apply A2; [congruence|]. by apply A1.
  - intros Hh Ht. apply B1; [congruence|]. by apply B2.
Qed.

Lemma later_sub n n' p s s' :
  later n n' → get p n = Some s → get p n' = Some s' → later s s'.
Proof.
  intros [Hsk H] Hs Hs'. split.
  - destruct (skel_get p n n' s Hsk Hs) as (s2 & H2 & Hs2). congruence.
  - intros q x x' Hx Hx'. apply (H (p ++ q)).
    + by rewrite (get_app _ _ _ _ Hs).
    + by rewrite (get_app _ _ _ _ Hs').
Qed.

Lemma later_apply_at f q : ∀ n,
  (∀ m, get q n = Some m → later m (f m)) → later n (apply_at f q n).
Proof.
  induction q as [|i q IH]; intros n Hf; [by apply Hf|].
  destruct n as [| |t a ks]; cbn [apply_at]; try apply later_refl.
  assert (Hk : ∀ k, ks !! i = Some k → later k (apply_at f q k)).
  { intros k Hk. apply IH. intros m Hm. apply Hf. cbn [get kids]. by rewrite Hk. }
  split.
  - cbn [skel]. f_equal. symmetry. apply skel_alter. intros k Hki.
    symmetry. apply (Hk k Hki).
  - intros p s s' Hs Hs'. destruct p as [|j p].
    + injection Hs as <-. injection Hs' as <-. by split.
    + cbn [get kids] in Hs, Hs'. destruct (decide (i = j)) as [<-|Hne].
      * rewrite list_lookup_alter_eq in Hs'.
        destruct (ks !! i) as [k|] eqn:Hki; [|done]. cbn in Hs'.
        exact (proj2 (Hk k eq_refl) p s s' Hs Hs').
      * rewrite list_lookup_alter_ne in Hs' by done. rewrite Hs in Hs'.
        injection Hs' as <-. apply idrel_refl.
Qed.

Lemma later_setAttr hn x :
  is_header hn = true → x ≠ "" → later hn (setAttr "id" x hn).
Proof.
  intros Hh Hx. split; [symmetry; apply skel_setAttr|].
  intros p s s' Hs Hs'. destruct p as [|j p].
  - injection Hs as <-. injection Hs' as <-. split.
    + intros _ _. rewrite attr_setAttr by (by apply matches_tag in Hh).
      cbn. by destruct (String.eqb_spec x "").
    + intros Hn. exfalso. destruct hn; try done. cbn in Hn, Hh. congruence.
  - cbn [get] in Hs'. rewrite kids_setAttr in Hs'. cbn [get] in Hs.
    rewrite Hs in Hs'. injection Hs' as <-. apply idrel_refl.
Qed.

Lemma later_removeAttr m : is_header m = false → later m (removeAttr "id" m).
Proof.
  intros Hh. split; [symmetry; apply skel_removeAttr|].
  intros p s s' Hs Hs'. destruct p as [|j p].
  - injection Hs as <-. injection Hs' as <-. split.
    + intros Hn. congruence.
    + intros _. by rewrite attr_removeAttr.
  - rewrite get_removeAttr in Hs' by done. rewrite Hs in Hs'. injection Hs' as <-.
    apply idrel_refl.
Qed.

Lemma later_reconcile m : is_header m = false → later m (reconcile m).
Proof.
  intros Hh.
  destruct (truthy (attr "id" m)) eqn:Hid.
  2:{ rewrite reconcile_no_id by done. apply later_refl. }
  apply truthy_Some in Hid as (sid & Hsid & Hne).
  destruct (head (find_paths SelHeader m)) as [hp|] eqn:Hhd.
  - destruct (find_paths_sound _ _ _ (head_elem_of _ _ Hhd)) as (Hnil & hn & Hget & Hm).
    destruct (truthy (attr "id" hn)) eqn:Hhid.
    + rewrite (reconcile_heading_has_id _ hp hn) by done. apply later_refl.
    + rewrite (reconcile_move _ hp hn sid) by done.
      assert (H1 : later m (apply_at (setAttr "id" sid) hp m)).
      { apply later_apply_at. intros m0 Hm0. assert (m0 = hn) as -> by congruence.
        by apply later_setAttr. }
      eapply later_trans; [exact H1|]. apply later_removeAttr.
      by rewrite <- (is_header_skel _ _ (proj1 H1)).
  - apply head_None in Hhd. rewrite (reconcile_no_heading _ sid) by done.
    by apply later_removeAttr.
Qed.

(** An element that is no heading and was settled stays settled. *)
Lemma settled_later m m' :
  later m m' → is_header m' = false → settled m = true → settled m' = true.
Proof.
  intros Hl Hh Hs. unfold settled in *.
  destruct (proj2 Hl [] m m' eq_refl eq_refl) as [_ B].
  destruct (truthy (attr "id" m')) eqn:Hid'; [|done]. cbn [negb orb] in *.
  rewrite (B Hh eq_refl) in Hs. cbn [negb orb] in Hs.
  unfold heading_id in *. rewrite <- (find_paths_skel _ _ (proj1 Hl)).
  destruct (head (find_paths SelHeader m)) as [hp|] eqn:Hhd; [|done].
  destruct (find_paths_sound _ _ _ (head_elem_of _ _ Hhd)) as (Hnil & hn & Hget & Hm).
  rewrite Hget in Hs.
  destruct (skel_get hp m m' hn (proj1 Hl) Hget) as (hn' & Hget' & _).
  rewrite Hget'. by apply (proj2 Hl hp hn hn' Hget Hget').
Qed.

(** A loaded content seen as one tree. *)
Definition wrap (doc : list node) : node := Elem "" [] doc.

Lemma get_wrap p doc : p ≠ [] → get p (wrap doc) = get_all p doc.
Proof. by destruct p. Qed.

Lemma wrap_step p doc :
  p ≠ [] → wrap (apply_at_all reconcile p doc) = apply_at reconcile p (wrap doc).
Proof. by destruct p. Qed.

Lemma get_all_nonempty p doc m : get_all p doc = Some m → p ≠ [].
Proof. by destruct p. Qed.

(** After the loop over the handles [ps], the element behind each of them
    is settled. *)
Lemma steps_settle ps : ∀ doc,
  (∀ q, q ∈ ps → ∃ m, get_all q doc = Some m ∧ is_header m = false) →
  later (wrap doc) (wrap (fold_left (fun d q => apply_at_all reconcile q d) ps doc)) ∧
  ∀ q, q ∈ ps →
    ∃ m', get_all q (fold_left (fun d q => apply_at_all reconcile q d) ps doc) = Some m' ∧
          settled m' = true.
Proof.
  induction ps as [|p ps IH]; intros doc H.
  { split; [apply later_refl|]. by intros q ?%elem_of_nil. }
  cbn [fold_left]. set (doc1 := apply_at_all reconcile p doc).
  destruct (H p) as (m & Hm & Hhm); [by left|].
  pose proof (get_all_nonempty _ _ _ Hm) as Hp.
  assert (Hle1 : later (wrap doc) (wrap doc1)).
  { unfold doc1. rewrite wrap_step by done. apply later_apply_at.
    intros m0 Hm0. rewrite get_wrap in Hm0 by done.
    assert (m0 = m) as -> by congruence. by apply later_reconcile. }
  assert (H1 : ∀ q, q ∈ ps → ∃ m1, get_all q doc1 = Some m1 ∧ is_header m1 = false).
  { intros q Hq. destruct (H q) as (mq & Hmq & Hhq); [by right|].
    pose proof (get_all_nonempty _ _ _ Hmq) as Hqn.
    rewrite <- get_wrap in Hmq by done.
    destruct (skel_get q _ _ mq (proj1 Hle1) Hmq) as (m1 & Hm1 & Hsk).
    rewrite get_wrap in Hm1 by done. exists m1. split; [done|].
    by rewrite <- (is_header_skel _ _ Hsk). }
  destruct (IH doc1 H1) as [Hle2 Hset].
  split; [by eapply later_trans|].
  intros q [->|Hq]%elem_of_cons; [|by apply Hset].
  assert (Hm1 : get_all p doc1 = Some (reconcile m)) by (by apply get_all_apply_at_all).
  rewrite <- get_wrap in Hm1 by done.
  destruct (skel_get p _ _ _ (proj1 Hle2) Hm1) as (m' & Hm' & Hsk).
  exists m'. split; [by rewrite <- get_wrap|].
  apply (settled_later (reconcile m) m').
  - by eapply later_sub.
  - rewrite <- (is_header_skel _ _ Hsk).
    by rewrite (is_header_skel _ _ (skel_reconcile m)).
  - apply settled_reconcile.
Qed.

Lemma steps_fixed ps : ∀ doc,
  (∀ q, q ∈ ps → ∃ m, get_all q doc = Some m ∧ settled m = true) →
  fold_left (fun d q => apply_at_all reconcile q d) ps doc = doc.
Proof.
  induction ps as [|p ps IH]; intros doc H; [done|].
  cbn [fold_left]. destruct (H p) as (m & Hm & Hs); [by left|].
  rewrite (apply_at_all_fixed _ _ _ m Hm (reconcile_settled m Hs)).
  apply IH. intros q Hq. apply H. by right.
Qed.

Lemma setIds_again content : setIds (setIds content) = setIds content.
Proof.
  set (ps := paths_all (SelTag "section") content).
  assert (Hinit : ∀ q, q ∈ ps → ∃ m, get_all q content = Some m ∧ is_header m = false).
  { intros q (m & Hget & Hm)%elem_of_paths_all. exists m. split; [done|].
    destruct m as [| |t a ks]; try done. cbn in Hm.
    apply String.eqb_eq in Hm as ->. done. }
  destruct (steps_settle ps content Hinit) as [Hle Hset].
  change (fold_left (fun d q => apply_at_all reconcile q d) ps content)
    with (setIds content) in Hle, Hset.
  assert (Hps : paths_all (SelTag "section") (setIds content) = ps).
  { unfold ps, paths_all.
    rewrite <- (paths_from_skel _ (setIds content) matches_section_skel).
    rewrite <- (paths_from_skel _ content matches_section_skel).
    f_equal. destruct Hle as [Hsk _]. cbn [wrap skel] in Hsk. by injection Hsk. }
  unfold setIds at 1. rewrite Hps. by apply steps_fixed.
Qed.

End TitleIds.

(** ** The loaded document: levels, contents, and what is left *)

Module OutlineShape.
Import Dom DomFacts Converter InMemory HeapFacts HandleFacts ExtractFacts TitleIds.

(** *** A document without the elements of some anchors *)

(** The element carries one of the ids [vs]. *)
Definition anchored (vs : list string) (n : node) : bool :=
  match attr "id" n with
  | Some v => mem_string v vs
  | None => false
  end.

(** The tree without the elements [p] holds for, and without what is
    below them. *)
Fixpoint detach_by (p : node → bool) (n : node) : list node :=
  if p n then []
  else match n with
       | Elem t a ks => [Elem t a (flat_map (detach_by p) ks)]
       | _ => [n]
       end.

(** The document without the elements that carry one of the ids [vs]. *)
Definition prune (vs : list string) (doc : list node) : list node :=
  flat_map (detach_by (anchored vs)) doc.

Lemma mem_string_spec x l : mem_string x l = true ↔ x ∈ l.
Proof.
  unfold mem_string. rewrite existsb_exists. split.
  - intros (y & Hy & ->%String.eqb_eq). by apply list_elem_of_In.
  - intros Hx. exists x. split; [by apply list_elem_of_In|apply String.eqb_refl].
Qed.

Lemma anchored_ext vs vs' n :
  (∀ v, v ∈ vs ↔ v ∈ vs') → anchored vs n = anchored vs' n.
Proof.
  intros H. unfold anchored. destruct (attr "id" n) as [v|]; [|done].
  apply Bool.eq_iff_eq_true. by rewrite !mem_string_spec.
Qed.

Lemma anchored_app vs1 vs2 n :
  anchored (vs1 ++ vs2) n = anchored vs1 n || anchored vs2 n.
Proof.
  unfold anchored. destruct (attr "id" n) as [v|]; [|done].
  unfold mem_string. apply existsb_app.
Qed.

Lemma detach_by_ext p q :
  (∀ n, p n = q n) → ∀ n, detach_by p n = detach_by q n.
Proof.
  intros H. induction n as [x|x|t a ks IH] using node_forall_ind.
  - cbn [detach_by]. by rewrite H.
  - cbn [detach_by]. by rewrite H.
  - cbn [detach_by]. rewrite H. destruct (q _); [done|]. do 2 f_equal.
    induction IH as [|k ks Hk _ IHks]; [done|]. cbn [flat_map]. by rewrite Hk, IHks.
Qed.

Lemma prune_ext vs vs' doc :
  (∀ v, v ∈ vs ↔ v ∈ vs') → prune vs doc = prune vs' doc.
Proof.
  intros H. unfold prune. apply flat_map_ext. intros n.
  apply detach_by_ext. intros m. by apply anchored_ext.
Qed.

Lemma detach_by_never n : detach_by (fun _ => false) n = [n].
Proof.
  induction n as [x|x|t a ks IH] using node_forall_ind; try done.
  cbn [detach_by]. do 2 f_equal. by apply flat_map_id_singleton.
Qed.

Lemma prune_nil doc : prune [] doc = doc.
Proof.
  unfold prune. apply flat_map_id_singleton, Forall_forall. intros n _.
  rewrite <- (detach_by_never n). apply detach_by_ext. intros m.
  unfold anchored. by destruct (attr "id" m).
Qed.

Lemma matches_anchored v n : matches (SelIdEq v) n = anchored [v] n.
Proof.
  destruct n as [x|x|t a ks]; try done.
  unfold anchored. cbn. destruct (assoc "id" a) as [i|]; [|done].
  by rewrite orb_false_r.
Qed.

Lemma detach_anchored v n : detach (SelIdEq v) n = detach_by (anchored [v]) n.
Proof.
  induction n as [x|x|t a ks IH] using node_forall_ind.
  - cbn [detach detach_by]. by rewrite matches_anchored.
  - cbn [detach detach_by]. by rewrite matches_anchored.
  - rewrite detach_Elem. cbn [detach_by]. rewrite matches_anchored.
    destruct (anchored [v] (Elem t a ks)); [done|]. do 2 f_equal.
    unfold detach_all.
    induction IH as [|k ks Hk _ IHks]; [done|]. cbn [flat_map]. by rewrite Hk, IHks.
Qed.

Lemma detach_all_prune v doc : detach_all (SelIdEq v) doc = prune [v] doc.
Proof. apply flat_map_ext. intros n. apply detach_anchored. Qed.

Lemma detach_by_twice vs1 vs2 n :
  flat_map (detach_by (anchored vs2)) (detach_by (anchored vs1) n)
  = detach_by (anchored (vs1 ++ vs2)) n.
Proof.
  induction n as [x|x|t a ks IH] using node_forall_ind; try done.
  cbn [detach_by]. rewrite anchored_app.
  destruct (anchored vs1 (Elem t a ks)) eqn:H1; [done|]. cbn [orb flat_map detach_by].
  change (anchored vs2 (Elem t a (flat_map (detach_by (anchored vs1)) ks)))
    with (anchored vs2 (Elem t a ks)).
  destruct (anchored vs2 (Elem t a ks)); [done|]. rewrite app_nil_r. do 2 f_equal.
  clear H1. induction IH as [|k ks Hk _ IHks]; [done|].
  cbn [flat_map]. by rewrite flat_map_app, Hk, IHks.
Qed.

Lemma prune_prune vs1 vs2 doc : prune vs2 (prune vs1 doc) = prune (vs1 ++ vs2) doc.
Proof.
  unfold prune. induction doc as [|n doc IH]; [done|].
  cbn [flat_map]. by rewrite flat_map_app, detach_by_twice, IH.
Qed.

(** Pruning brings no match of a selector into a document. *)
Lemma select_detach_by s p n :
  select s n = [] → select_all s (detach_by p n) = [].
Proof.
  induction n as [x|x|t a ks IH] using node_forall_ind; intros Hsel.
  - cbn [detach_by]. by destruct (p _).
  - cbn [detach_by]. by destruct (p _).
  - cbn [detach_by]. destruct (p _); [done|].
    cbn [select] in Hsel. apply app_eq_nil in Hsel as [Hm Hks].
    cbn [select_all flat_map select]. rewrite (matches_kids s t a ks), app_nil_r.
    destruct (matches s (Elem t a ks)); [done|]. clear Hm.
    cbn [app]. induction IH as [|k ks Hk _ IHks]; [done|].
    cbn [flat_map] in Hks. apply app_eq_nil in Hks as [H1 H2].
    cbn [flat_map]. rewrite flat_map_app.
    change (flat_map (select s) (detach_by p k)) with (select_all s (detach_by p k)).
    by rewrite (Hk H1), (IHks H2).
Qed.

Lemma select_prune s vs doc : select_all s doc = [] → select_all s (prune vs doc) = [].
Proof.
  induction doc as [|n doc IH]; intros Hsel; [done|].
  cbn [select_all flat_map] in Hsel. apply app_eq_nil in Hsel as [H1 H2].
  unfold prune. cbn [flat_map]. rewrite select_all_app, (select_detach_by _ _ _ H1).
  by apply IH.
Qed.

(** *** What [parseList] establishes, besides the links *)

Lemma core_all c c' :
  core c' = core c →
  level c' = level c ∧ parent c' = parent c ∧ titleId c' = titleId c ∧
  num c' = num c ∧ children c' = children c ∧ content c' = content c.
Proof. unfold core. intros [= ? ? ? ? ? ? ? ?]. done. Qed.

(** The anchors of the chapters at the addresses [lo] and above. *)
Definition anchors (lo : nat) (h : list Chapter) : list string :=
  map titleId (drop lo h).

Lemma elem_of_anchors v lo (h : list Chapter) :
  v ∈ anchors lo h ↔ ∃ a c, lo ≤ a ∧ h !! a = Some c ∧ titleId c = v.
Proof.
  unfold anchors. rewrite list_elem_of_fmap. split.
  - intros (c & -> & Hc). apply list_elem_of_lookup in Hc as [i Hi].
    rewrite lookup_drop in Hi. exists (lo + i), c. split; [lia|done].
  - intros (a & c & Hlo & Hc & <-). exists c. split; [done|].
    apply list_elem_of_lookup. exists (a - lo). rewrite lookup_drop.
    by replace (lo + (a - lo)) with a by lia.
Qed.

Section ShapeFacts.

Variable idFromRef : option string → string.

(** [D0] is the shared document as it was when the outermost [parseList]
    started. *)
Variable D0 : list node.

(** The content of [c] is what its selector finds in a document that came
    from [D0] by removals. *)
Definition from_document (c : Chapter) : Prop :=
  ∃ d, ids_all d `sublist_of` ids_all D0 ∧
       content c = select_all (SelIdEq (titleId c)) d.

(** The member [k] of a sibling group, at position [i] of it. *)
Definition member (h : list Chapter) (lvl : nat) (par : option addr) (i : nat) (k : addr)
    : Prop :=
  ∃ ck, h !! k = Some ck ∧ level ck = lvl ∧ parent ck = par ∧ num ck = i + 1.

Record shape_seg (lo : nat) (st : state) : Prop := {
  ss_content : ∀ a c, lo ≤ a → heap st !! a = Some c → from_document c;
  ss_children : ∀ a c i k,
    lo ≤ a → heap st !! a = Some c → children c !! i = Some k →
    member (heap st) (level c + 1) (Some a) i k
}.

Record shape (lvl : nat) (par : option addr) (st0 : state) (g : list addr) (st : state)
    : Prop := {
  sh_seg : shape_seg (length (heap st0)) st;
  sh_group : ∀ i k, g !! i = Some k → member (heap st) lvl par i k;
  sh_html : _html st = prune (anchors (length (heap st0)) (heap st)) (_html st0)
}.

Definition rec_shape (rec : list node → nat → option addr → M (list addr)) : Prop :=
  ∀ ul lvl par st,
    ids_all (_html st) `sublist_of` ids_all D0 →
    (∀ p, par = Some p → p < length (heap st)) →
    shape lvl par st (rec ul lvl par st).1 (rec ul lvl par st).2.

Lemma shape_start lvl par st : shape lvl par st [] st.
Proof.
  split.
  - split; intros a c; intros; exfalso;
      match goal with H : heap st !! a = Some c |- _ => apply lookup_lt_Some in H end; lia.
  - intros i k Hi. by rewrite lookup_nil in Hi.
  - unfold anchors. by rewrite drop_all, prune_nil.
Qed.

Lemma parseItem_shape rec lvl par st0 g st li :
  rec_ok D0 rec → rec_shape rec →
  ids_all (_html st0) `sublist_of` ids_all D0 →
  item_inv D0 par st0 g st →
  shape lvl par st0 g st →
  shape lvl par st0 (parseItem idFromRef rec lvl par g li st).1
                    (parseItem idFromRef rec lvl par g li st).2.
Proof.
  intros Hrec Hrs HD HI HS. rewrite parseItem_eq. cbv zeta. cbn [fst snd].
  set (info := extractTOCTitleInfo idFromRef [li]).
  set (c0 := mkChapter lvl par (info_type info) (info_titleId info) (info_title info)
                       (length g + 1) [] [] None None).
  set (n := length (heap st)).
  set (st1 := mkState (_html st) (heap st ++ [c0])).
  set (sub := children_sel (SelTag "ul") [li]).
  destruct HI as [[HL HF] Hids Hseg Hnd Hgrp Hlab Hflat].
  destruct HS as [[Hct Hch] Hgr Hht].
  assert (Hsub1 : ids_all (_html st1) `sublist_of` ids_all D0).
  { unfold st1. cbn [_html]. by etrans. }
  assert (Hids1 : ids_all (_html st1) ⊆ ids_all D0) by (by apply sublist_subseteq).
  assert (Hpar1 : ∀ p, Some n = Some p → p < length (heap st1)).
  { intros p [= <-]. unfold st1. cbn [heap]. rewrite length_app. cbn. lia. }
  pose proof (Hrec sub (lvl + 1) (Some n) st1 Hids1 Hpar1) as Hr.
  pose proof (Hrs sub (lvl + 1) (Some n) st1 Hsub1 Hpar1) as Hr'.
  destruct (rec sub (lvl + 1) (Some n) st1) as [subs st2]. cbn [fst snd] in *.
  destruct Hr as [[HL2 HF2] Hids2 Hseg2 Hnd2 Hgrp2 Hchain2 Hlab2 Hflat2].
  destruct Hr' as [[Hct2 Hch2] Hgr2 Hht2].
  assert (Hlen1 : length (heap st1) = S n).
  { unfold st1. cbn [heap]. rewrite length_app. cbn. lia. }
  rewrite Hlen1 in *.
  set (sel := SelIdEq (info_titleId info)).
  set (html := select_all sel (_html st2)).
  set (c4 := set_content html (set_children subs c0)).
  set (h4 := alter (set_content html) n (alter (set_children subs) n (heap st2))).
  assert (Hn2 : heap st2 !! n = Some c0).
  { rewrite HF2 by lia. unfold st1. cbn [heap]. by rewrite list_lookup_middle. }
  assert (Hlow2 : ∀ a, a < n → heap st2 !! a = heap st !! a).
  { intros a Ha. rewrite HF2 by lia. unfold st1. cbn [heap].
    by rewrite lookup_app_l. }
  assert (H4n : h4 !! n = Some c4).
  { unfold h4. by rewrite !list_lookup_alter_eq, Hn2. }
  assert (H4ne : ∀ a, a ≠ n → h4 !! a = heap st2 !! a).
  { intros a Ha. unfold h4. by rewrite !list_lookup_alter_ne. }
  assert (H4low : ∀ a, a < n → h4 !! a = heap st !! a).
  { intros a Ha. rewrite H4ne by lia. by apply Hlow2. }
  assert (Hold : ∀ k ck, heap st !! k = Some ck → h4 !! k = Some ck).
  { intros k ck Hk. rewrite H4low; [done|]. by apply lookup_lt_Some in Hk. }
  split; cbn [heap _html].
  - split; cbn [heap _html].
    + intros a c Hlo Ha.
      destruct (lt_eq_lt_dec a n) as [[Hlt| ->]|Hgt].
      * rewrite H4low in Ha by done. by eapply Hct.
      * rewrite H4n in Ha. injection Ha as <-. exists (_html st2). split.
        { etrans; [exact Hids2|exact Hsub1]. }
        done.
      * rewrite H4ne in Ha by lia. eapply Hct2; [|exact Ha]. lia.
    + intros a c i k Hlo Ha Hk.
      destruct (lt_eq_lt_dec a n) as [[Hlt| ->]|Hgt].
      * rewrite H4low in Ha by done.
        destruct (Hch a c i k Hlo Ha Hk) as (ck & Hck & Hrest).
        exists ck. split; [by apply Hold|done].
      * rewrite H4n in Ha. injection Ha as <-.
        cbn [children level c4 c0 set_content set_children] in *.
        destruct (Hgr2 i k Hk) as (ck & Hck & Hrest).
        destruct (Hgrp2 k) as [Hnk _]; [by eapply list_elem_of_lookup_2|].
        exists ck. split; [|done]. rewrite H4ne by lia. done.
      * rewrite H4ne in Ha by lia.
        destruct (Hch2 a c i k ltac:(lia) Ha Hk) as (ck & Hck & Hrest).
        destruct (so_children _ _ _ Hseg2 a c k ltac:(lia) Ha) as [Hak _];
          [by eapply list_elem_of_lookup_2|].
        exists ck. split; [|done]. rewrite H4ne by lia. done.
  - intros i k Hi. apply lookup_app_Some in Hi as [Hi|[Hge Hi]].
    + destruct (Hgr i k Hi) as (ck & Hck & Hrest). exists ck. split; [by apply Hold|done].
    + apply list_lookup_singleton_Some in Hi as [Hi <-].
      exists c4. split; [done|]. cbn. repeat split; try done. lia.
  - unfold html, sel. rewrite detach_all_prune, Hht2. cbn [_html st1].
    rewrite Hht, !prune_prune. apply prune_ext. intros v.
    rewrite !elem_of_app, !elem_of_anchors, list_elem_of_singleton. split.
    + intros [(a & c & Hlo & Ha & Hv)|[(a & c & Hlo & Ha & Hv)| ->]].
      * exists a, c. split; [done|]. split; [by apply Hold|done].
      * exists a, c. split; [lia|]. split; [|done]. rewrite H4ne by lia. done.
      * exists n, c4. split; [unfold n; lia|]. by split.
    + intros (a & c & Hlo & Ha & Hv).
      destruct (lt_eq_lt_dec a n) as [[Hlt| ->]|Hgt].
      * rewrite H4low in Ha by done. left. by exists a, c.
      * rewrite H4n in Ha. injection Ha as <-. right. right. by rewrite <- Hv.
      * rewrite H4ne in Ha by lia. right. left. exists a, c. split; [lia|done].
Qed.

Lemma parseList_fuel_shape fuel : rec_shape (parseList_fuel idFromRef fuel).
Proof.
  induction fuel as [|fuel IH]; intros ul lvl par st HD Hpar.
  { cbn. apply shape_start. }
  cbn [parseList_fuel]. rewrite !bind_eq. cbn [ret fst snd].
  assert (HD' : ids_all (_html st) ⊆ ids_all D0) by (by apply sublist_subseteq).
  pose proof (foldM_inv (fun acc st' => item_inv D0 par st acc st' ∧ shape lvl par st acc st')
                (parseItem idFromRef (parseList_fuel idFromRef fuel) lvl par)
                (children_sel (SelTag "li") ul)) as HI.
  specialize (HI (fun acc x st' _ H =>
    conj (parseItem_inv idFromRef D0 _ lvl par st acc st' x
            (parseList_fuel_ok idFromRef D0 fuel) HD' (proj1 H))
         (parseItem_shape _ lvl par st acc st' x
            (parseList_fuel_ok idFromRef D0 fuel) IH HD (proj1 H) (proj2 H)))).
  specialize (HI [] st (conj (item_inv_start D0 par st) (shape_start lvl par st))).
  destruct (foldM _ _ _ st) as [g st1]. cbn [fst snd] in *.
  destruct HI as [[[HL HF] Hids Hseg Hnd Hgrp Hlab Hflat] [[Hct Hch] Hgr Hht]].
  destruct (setSiblings_spec g st1 Hnd) as (S1 & S2 & S3 & S4 & S5).
  { intros a Ha. destruct (Hgrp a Ha) as (_ & c & ? & _ & ? & ?). by exists c. }
  set (st' := (setSiblings g st1).2) in *.
  assert (Hback : ∀ a c', heap st' !! a = Some c' →
                  ∃ c, heap st1 !! a = Some c ∧ core c' = core c).
  { intros a c' Ha.
    destruct (lookup_lt_is_Some_2 (heap st1) a) as [c Hc].
    { rewrite <- S2. by eapply lookup_lt_Some. }
    destruct (S4 a c Hc) as (c'' & Hc'' & Hcore). exists c.
    split; [done|]. congruence. }
  assert (Hmem : ∀ l p i k, member (heap st1) l p i k → member (heap st') l p i k).
  { intros l p i k (ck & Hck & H1 & H2 & H3).
    destruct (S4 k ck Hck) as (ck' & Hck' & (E1 & E2 & _ & E4 & _)%core_all).
    exists ck'. split; [done|]. by rewrite E1, E2, E4. }
  split.
  - split.
    + intros a c' Hlo Ha.
      destruct (Hback a c' Ha) as (c & Hc & (_ & _ & Et & _ & _ & Ec)%core_all).
      destruct (Hct a c Hlo Hc) as (d & Hd & Hcd). exists d. split; [done|].
      by rewrite Et, Ec.
    + intros a c' i k Hlo Ha Hk.
      destruct (Hback a c' Ha) as (c & Hc & (El & _ & _ & _ & Ech & _)%core_all).
      rewrite Ech in Hk. rewrite El. apply Hmem. by eapply Hch.
  - intros i k Hi. apply Hmem. by apply Hgr.
  - rewrite S1, Hht. apply prune_ext. intros v. rewrite !elem_of_anchors. split.
    + intros (a & c & Hlo & Ha & Hv).
      destruct (S4 a c Ha) as (c' & Hc' & (_ & _ & Et & _)%core_all).
      exists a, c'. split; [done|]. split; [done|]. congruence.
    + intros (a & c' & Hlo & Ha & Hv).
      destruct (Hback a c' Ha) as (c & Hc & (_ & _ & Et & _)%core_all).
      exists a, c. split; [done|]. split; [done|]. congruence.
Qed.

Lemma parseList_shape_loaded : rec_shape (parseList idFromRef).
Proof. intros ul lvl par st. apply parseList_fuel_shape. Qed.

End ShapeFacts.

(** The outline [parseList] builds: the chapters it returns have the
    level it was called with, no parent, and are numbered 1, 2, 3, ... in
    the order of the list; the children of every chapter it created are one
    level below the chapter, have it as their parent, and are numbered
    1, 2, 3, ... in the order of [children]. *)
Lemma levels_loaded
    (idFromRef : option string → string) (ul : list node) (lvl : nat) (st : state) :
  let r := parseList idFromRef ul lvl None st in
  (∀ i k, r.1 !! i = Some k →
     ∃ ck, heap r.2 !! k = Some ck ∧
           level ck = lvl ∧ parent ck = None ∧ num ck = i + 1) ∧
  (∀ a c i k,
     length (heap st) ≤ a → heap r.2 !! a = Some c → children c !! i = Some k →
     ∃ ck, heap r.2 !! k = Some ck ∧
           level ck = level c + 1 ∧ parent ck = Some a ∧ num ck = i + 1).
Proof.
  intros r.
  destruct (parseList_shape_loaded idFromRef (_html st) ul lvl None st) as [[_ Hch] Hgr _];
    [done|by intros p [=]|].
  split; [exact Hgr|exact Hch].
Qed.

(** *** The whole of [collectChapters] *)

Lemma select_all_id_attr v doc :
  Forall (fun m => attr "id" m = Some v) (select_all (SelIdEq v) doc).
Proof.
  induction doc as [|n doc IH]; [constructor|].
  cbn [select_all flat_map]. apply Forall_app. split; [apply select_id_attr|exact IH].
Qed.

Section Whole.

Variable idFromRef : option string → string.
Variable addTitleToContent : string → list node → list node.
Variable html : list node.
Variable documentTitle : string.

(** The converter after the chapters were collected. *)
Definition collected : book * state :=
  collectChapters idFromRef addTitleToContent documentTitle (mkState html []).

Lemma collected_shape :
  shape (LoadedOutline.body html) 0 None (mkState (LoadedOutline.body html) [])
        (parseList idFromRef (LoadedOutline.tocList html) 0 None
                   (mkState (LoadedOutline.body html) [])).1
        collected.2.
Proof.
  unfold collected. rewrite LoadedOutline.collectChapters_state.
  apply parseList_shape_loaded; [done|]. by intros p [=].
Qed.

End Whole.

End OutlineShape.

(** ** The loaded document: the outline follows the table of contents *)

Module TocMirror.
Import Dom DomFacts Converter InMemory HeapFacts HandleFacts OutlineShape.

(** The items below a TOC item: [$li.children('ul').children('li')]. *)
Definition subitems (li : node) : list node :=
  children_sel (SelTag "li") (children_sel (SelTag "ul") [li]).

Section Mirror.

Variable idFromRef : option string → string.

(** The chapters [g] of heap [h] follow the TOC items [items]: one chapter
    an item, in the order of the items; a chapter has the type, the anchor
    and the title [extractTOCTitleInfo] reads off its item, and its
    children follow the items below its item.  All of them are at the
    addresses [lo] and above. *)
Inductive mirrors (lo : nat) (h : list Chapter) : list node → list addr → Prop :=
| mirrors_nil : mirrors lo h [] []
| mirrors_cons li items k g ck :
    lo ≤ k → h !! k = Some ck →
    type ck = info_type (extractTOCTitleInfo idFromRef [li]) →
    titleId ck = info_titleId (extractTOCTitleInfo idFromRef [li]) →
    title ck = info_title (extractTOCTitleInfo idFromRef [li]) →
    mirrors lo h (subitems li) (children ck) →
    mirrors lo h items g →
    mirrors lo h (li :: items) (k :: g).

Lemma mirrors_app lo h items1 g1 items2 g2 :
  mirrors lo h items1 g1 → mirrors lo h items2 g2 →
  mirrors lo h (items1 ++ items2) (g1 ++ g2).
Proof.
  induction 1 as [|li items k g ck Hlo Hk Ht Hi Htl Hsub _ _ IH]; intros H2; [done|].
  cbn [app]. econstructor; [exact Hlo|exact Hk|exact Ht|exact Hi|exact Htl|exact Hsub|].
  by apply IH.
Qed.

Lemma mirrors_transfer lo lo' (h h' : list Chapter) items g :
  lo' ≤ lo →
  (∀ a c, lo ≤ a → h !! a = Some c → ∃ c', h' !! a = Some c' ∧ core c' = core c) →
  mirrors lo h items g → mirrors lo' h' items g.
Proof.
  intros Hle Hh. induction 1 as [|li items k g ck Hlo Hk Ht Hi Htl _ IHsub _ IH];
    [constructor|].
  destruct (Hh k ck Hlo Hk) as (ck' & Hk' & Hcore).
  unfold core in Hcore. injection Hcore as E1 E2 E3 E4 E5 E6 E7 E8.
  econstructor; [lia|exact Hk'|congruence..| |exact IH].
  by rewrite E7.
Qed.

Lemma foldM_inv_prefix {A B} (I : list B → A → state → Prop) (f : A → B → M A) l :
  (∀ pre x acc st, x ∈ l → I pre acc st → I (pre ++ [x]) (f acc x st).1 (f acc x st).2) →
  ∀ pre acc st, I pre acc st → I (pre ++ l) (foldM f acc l st).1 (foldM f acc l st).2.
Proof.
  induction l as [|x l IH]; intros Hf pre acc st HI.
  { by rewrite app_nil_r. }
  cbn [foldM]. rewrite bind_eq.
  replace (pre ++ x :: l) with ((pre ++ [x]) ++ l) by (by rewrite <- (assoc_L (++))).
  apply IH.
  - intros pre' y acc' st' Hy. apply Hf. by right.
  - apply Hf; [by left|done].
Qed.

(** [D0] is the shared document as it was when the outermost [parseList]
    started. *)
Variable D0 : list node.

Lemma parseItem_mirrors rec lvl par st0 pre g st li :
  rec_ok D0 rec →
  (∀ lvl' par' st',
     ids_all (_html st') ⊆ ids_all D0 →
     (∀ p, par' = Some p → p < length (heap st')) →
     mirrors (length (heap st'))
             (heap (rec (children_sel (SelTag "ul") [li]) lvl' par' st').2)
             (subitems li)
             (rec (children_sel (SelTag "ul") [li]) lvl' par' st').1) →
  ids_all (_html st0) ⊆ ids_all D0 →
  item_inv D0 par st0 g st →
  mirrors (length (heap st0)) (heap st) pre g →
  mirrors (length (heap st0))
          (heap (parseItem idFromRef rec lvl par g li st).2)
          (pre ++ [li])
          (parseItem idFromRef rec lvl par g li st).1.
Proof.
  intros Hrec Hrm HD HI HM. rewrite parseItem_eq. cbv zeta. cbn [fst snd heap].
  set (info := extractTOCTitleInfo idFromRef [li]).
  set (c0 := mkChapter lvl par (info_type info) (info_titleId info) (info_title info)
                       (length g + 1) [] [] None None).
  set (n := length (heap st)).
  set (st1 := mkState (_html st) (heap st ++ [c0])).
  set (sub := children_sel (SelTag "ul") [li]).
  destruct HI as [[HL HF] Hids Hseg Hnd Hgrp Hlab Hflat].
  assert (Hids1 : ids_all (_html st1) ⊆ ids_all D0).
  { unfold st1. cbn [_html]. etrans; [|exact HD]. by apply sublist_subseteq. }
  assert (Hpar1 : ∀ p, Some n = Some p → p < length (heap st1)).
  { intros p [= <-]. unfold st1. cbn [heap]. rewrite length_app. cbn. lia. }
  pose proof (Hrec sub (lvl + 1) (Some n) st1 Hids1 Hpar1) as Hr.
  pose proof (Hrm (lvl + 1) (Some n) st1 Hids1 Hpar1) as Hr'.
  fold sub in Hr'.
  destruct (rec sub (lvl + 1) (Some n) st1) as [subs st2]. cbn [fst snd] in *.
  destruct Hr as [[HL2 HF2] Hids2 Hseg2 Hnd2 Hgrp2 Hchain2 Hlab2 Hflat2].
  assert (Hlen1 : length (heap st1) = S n).
  { unfold st1. cbn [heap]. rewrite length_app. cbn. lia. }
  rewrite Hlen1 in *.
  set (html := select_all (SelIdEq (info_titleId info)) (_html st2)).
  set (c4 := set_content html (set_children subs c0)).
  set (h4 := alter (set_content html) n (alter (set_children subs) n (heap st2))).
  assert (Hn2 : heap st2 !! n = Some c0).
  { rewrite HF2 by lia. unfold st1. cbn [heap]. by rewrite list_lookup_middle. }
  assert (H4n : h4 !! n = Some c4).
  { unfold h4. by rewrite !list_lookup_alter_eq, Hn2. }
  assert (H4ne : ∀ a, a ≠ n → h4 !! a = heap st2 !! a).
  { intros a Ha. unfold h4. by rewrite !list_lookup_alter_ne. }
  assert (Hold : ∀ k ck, heap st !! k = Some ck → h4 !! k = Some ck).
  { intros k ck Hk. pose proof (lookup_lt_Some _ _ _ Hk) as Hlt.
    rewrite H4ne by (unfold n; lia). rewrite HF2 by (unfold n in *; lia).
    unfold st1. cbn [heap]. by rewrite lookup_app_l. }
  apply mirrors_app.
  - apply (mirrors_transfer (length (heap st0)) (length (heap st0)) (heap st));
      [done| |exact HM].
    intros a c _ Ha. exists c. split; [by apply Hold|done].
  - apply (mirrors_cons _ _ li [] n [] c4); try done.
    + cbn [children c4 set_content set_children].
      apply (mirrors_transfer (S n) (length (heap st0)) (heap st2)); [| |exact Hr'].
      * unfold n. lia.
      * intros a c Ha Hc. exists c. split; [|done]. rewrite H4ne by lia. done.
    + constructor.
Qed.

Lemma parseList_fuel_mirrors fuel : ∀ ul lvl par st,
  height_all ul ≤ fuel →
  ids_all (_html st) ⊆ ids_all D0 →
  (∀ p, par = Some p → p < length (heap st)) →
  mirrors (length (heap st))
          (heap (parseList_fuel idFromRef fuel ul lvl par st).2)
          (children_sel (SelTag "li") ul)
          (parseList_fuel idFromRef fuel ul lvl par st).1.
Proof.
  induction fuel as [|fuel IH]; intros ul lvl par st Hfuel HD Hpar.
  { cbn. destruct (children_sel (SelTag "li") ul) as [|x l] eqn:E; [constructor|].
    assert (Hx : x ∈ children_sel (SelTag "li") ul) by (rewrite E; by left).
    apply height_children_sel in Hx. lia. }
  cbn [parseList_fuel]. rewrite !bind_eq. cbn [ret fst snd].
  pose proof (foldM_inv_prefix
                (fun pre acc st' => item_inv D0 par st acc st' ∧
                                    mirrors (length (heap st)) (heap st') pre acc)
                (parseItem idFromRef (parseList_fuel idFromRef fuel) lvl par)
                (children_sel (SelTag "li") ul)) as HI.
  cbn beta in HI.
  assert (Hstep : ∀ pre x acc st',
    x ∈ children_sel (SelTag "li") ul →
    item_inv D0 par st acc st' ∧ mirrors (length (heap st)) (heap st') pre acc →
    item_inv D0 par st
      (parseItem idFromRef (parseList_fuel idFromRef fuel) lvl par acc x st').1
      (parseItem idFromRef (parseList_fuel idFromRef fuel) lvl par acc x st').2 ∧
    mirrors (length (heap st))
      (heap (parseItem idFromRef (parseList_fuel idFromRef fuel) lvl par acc x st').2)
      (pre ++ [x])
      (parseItem idFromRef (parseList_fuel idFromRef fuel) lvl par acc x st').1).
  { intros pre x acc st' Hx [Hinv Hm]. split.
    - by apply parseItem_inv; [apply parseList_fuel_ok|..].
    - apply parseItem_mirrors; [apply parseList_fuel_ok| |done..].
      intros lvl' par' st'' HD'' Hpar''.
      apply height_children_sel in Hx.
      destruct (height_all_children_sel (SelTag "ul") x) as [Hh|Hnil].
      + apply IH; [lia|done..].
      + unfold subitems. rewrite Hnil, parseList_fuel_nil. constructor. }
  specialize (HI Hstep [] [] st (conj (item_inv_start D0 par st) (mirrors_nil _ _))).
  cbn [app] in HI.
  destruct (foldM _ _ _ st) as [g st1]. cbn [fst snd] in *.
  destruct HI as [[[HL HF] Hids Hseg Hnd Hgrp Hlab Hflat] HM].
  destruct (setSiblings_spec g st1 Hnd) as (S1 & S2 & S3 & S4 & S5).
  { intros a Ha. destruct (Hgrp a Ha) as (_ & c & ? & _ & ? & ?). by exists c. }
  apply (mirrors_transfer (length (heap st)) (length (heap st)) (heap st1));
    [done| |exact HM].
  intros a c _ Ha. by apply S4.
Qed.

End Mirror.

(** The chapters [parseList] returns follow the items of the list it
    was given: one chapter an item, in the order of the items, whatever the
    anchors are; each chapter has the type (the class of the item's span),
    the anchor ([idFromRef] of the link's reference) and the title (the
    link's text) that [extractTOCTitleInfo] reads off its item, and its
    children follow, in the same way, the items of the lists below its
    item.  All these chapters are new objects. *)
Lemma follows_toc_loaded
    (idFromRef : option string → string) (ul : list node) (lvl : nat) (st : state) :
  let r := parseList idFromRef ul lvl None st in
  mirrors idFromRef (length (heap st)) (heap r.2) (children_sel (SelTag "li") ul) r.1.
Proof.
  intros r. unfold r, parseList.
  apply (parseList_fuel_mirrors idFromRef (_html st)); [done|done|by intros p [=]].
Qed.

End TocMirror.

(** ** The loaded document: anchors listed more than once *)

Module Anchors.
Import Dom DomFacts Converter InMemory HeapFacts HandleFacts TitleIds OutlineShape.

Section Exclusive.

Variable idFromRef : option string → string.

(** Of two chapters at [lo] or above that have the same anchor, one at
    least has the empty content. *)
Definition exclusive (lo : nat) (st : state) : Prop :=
  ∀ a b ca cb,
    lo ≤ a → lo ≤ b → a ≠ b →
    heap st !! a = Some ca → heap st !! b = Some cb →
    titleId ca = titleId cb →
    content ca = [] ∨ content cb = [].

Definition rec_exclusive (rec : list node → nat → option addr → M (list addr)) : Prop :=
  ∀ ul lvl par st,
    (∀ p, par = Some p → p < length (heap st)) →
    exclusive (length (heap st)) (rec ul lvl par st).2.

Lemma exclusive_sym lo st :
  (∀ a b ca cb,
     lo ≤ a → a < b →
     heap st !! a = Some ca → heap st !! b = Some cb →
     titleId ca = titleId cb →
     content ca = [] ∨ content cb = []) →
  exclusive lo st.
Proof.
  intros H a b ca cb Ha Hb Hne Hca Hcb Ht.
  destruct (lt_eq_lt_dec a b) as [[Hlt|Heq]|Hgt];
    [exact (H a b ca cb Ha Hlt Hca Hcb Ht)|done|].
  destruct (H b a cb ca Hb Hgt Hcb Hca (eq_sym Ht)); auto.
Qed.

Lemma parseItem_exclusive rec lvl par st0 g st li :
  (∀ D, rec_ok D rec) → rec_exclusive rec →
  item_inv (_html st0) par st0 g st →
  exclusive (length (heap st0)) st →
  exclusive (length (heap st0)) (parseItem idFromRef rec lvl par g li st).2.
Proof.
  intros Hrec Hre HI HE. rewrite parseItem_eq. cbv zeta. cbn [fst snd].
  set (info := extractTOCTitleInfo idFromRef [li]).
  set (c0 := mkChapter lvl par (info_type info) (info_titleId info) (info_title info)
                       (length g + 1) [] [] None None).
  set (n := length (heap st)).
  set (st1 := mkState (_html st) (heap st ++ [c0])).
  set (sub := children_sel (SelTag "ul") [li]).
  destruct HI as [[HL HF] Hids Hseg Hnd Hgrp Hlab Hflat].
  assert (Hpar1 : ∀ p, Some n = Some p → p < length (heap st1)).
  { intros p [= <-]. unfold st1. cbn [heap]. rewrite length_app. cbn. lia. }
  pose proof (Hrec (_html st1) sub (lvl + 1) (Some n) st1 (reflexivity _) Hpar1) as Hr.
  pose proof (Hre sub (lvl + 1) (Some n) st1 Hpar1) as Hr'.
  destruct (rec sub (lvl + 1) (Some n) st1) as [subs st2]. cbn [fst snd] in *.
  destruct Hr as [[HL2 HF2] Hids2 Hseg2 Hnd2 Hgrp2 Hchain2 Hlab2 Hflat2].
  assert (Hlen1 : length (heap st1) = S n).
  { unfold st1. cbn [heap]. rewrite length_app. cbn. lia. }
  rewrite Hlen1 in *.
  set (sel := SelIdEq (info_titleId info)).
  set (html := select_all sel (_html st2)).
  set (c4 := set_content html (set_children subs c0)).
  set (h4 := alter (set_content html) n (alter (set_children subs) n (heap st2))).
  assert (Hn2 : heap st2 !! n = Some c0).
  { rewrite HF2 by lia. unfold st1. cbn [heap]. by rewrite list_lookup_middle. }
  assert (Hlow2 : ∀ a, a < n → heap st2 !! a = heap st !! a).
  { intros a Ha. rewrite HF2 by lia. unfold st1. cbn [heap].
    by rewrite lookup_app_l. }
  assert (H4n : h4 !! n = Some c4).
  { unfold h4. by rewrite !list_lookup_alter_eq, Hn2. }
  assert (H4ne : ∀ a, a ≠ n → h4 !! a = heap st2 !! a).
  { intros a Ha. unfold h4. by rewrite !list_lookup_alter_ne. }
  assert (H4low : ∀ a, a < n → h4 !! a = heap st !! a).
  { intros a Ha. rewrite H4ne by lia. by apply Hlow2. }
  assert (Hsub2 : ids_all (_html st2) ⊆ ids_all (_html st)).
  { by apply sublist_subseteq. }
  (* the content of the new chapter is empty when its anchor is gone *)
  assert (Hgone : info_titleId info ∉ ids_all (_html st2) → content c4 = []).
  { intros Hm. cbn [content c4 set_content]. by apply select_all_missing. }
  apply exclusive_sym. cbn [heap].
  intros a b ca cb Hlo Hab Hca Hcb Ht.
  destruct (lt_eq_lt_dec b n) as [[Hbn| ->]|Hbn].
  - (* both are older than the new chapter *)
    rewrite H4low in Hca, Hcb by lia.
    apply (HE a b ca cb); try done; lia.
  - (* an older chapter and the new one *)
    rewrite H4low in Hca by done. rewrite H4n in Hcb. injection Hcb as <-.
    right. apply Hgone. cbn [titleId c4 c0 set_content set_children] in Ht.
    rewrite <- Ht. intros Hin. by apply (so_gone _ _ _ Hseg a ca Hlo Hca), Hsub2.
  - destruct (lt_eq_lt_dec a n) as [[Han| ->]|Han].
    + (* an older chapter and one below the new chapter *)
      rewrite H4low in Hca by done. rewrite H4ne in Hcb by lia.
      right. eapply (so_missing _ _ _ Hseg2 b cb); [lia|done|].
      rewrite <- Ht. cbn [_html st1]. by apply (so_gone _ _ _ Hseg a ca Hlo Hca).
    + (* the new chapter and one below it *)
      rewrite H4n in Hca. injection Hca as <-. rewrite H4ne in Hcb by lia.
      left. apply Hgone. cbn [titleId c4 c0 set_content set_children] in Ht.
      rewrite Ht. apply (so_gone _ _ _ Hseg2 b cb); [lia|done].
    + (* both are below the new chapter *)
      rewrite H4ne in Hca, Hcb by lia.
      apply (Hr' a b ca cb); try done; lia.
Qed.

Lemma parseList_fuel_exclusive fuel : rec_exclusive (parseList_fuel idFromRef fuel).
Proof.
  induction fuel as [|fuel IH]; intros ul lvl par st Hpar.
  { cbn. intros a b ca cb Ha _ _ Hca. apply lookup_lt_Some in Hca. lia. }
  cbn [parseList_fuel]. rewrite !bind_eq. cbn [ret fst snd].
  pose proof (foldM_inv (fun acc st' => item_inv (_html st) par st acc st' ∧
                                        exclusive (length (heap st)) st')
                (parseItem idFromRef (parseList_fuel idFromRef fuel) lvl par)
                (children_sel (SelTag "li") ul)) as HI.
  specialize (HI (fun acc x st' _ H =>
    conj (parseItem_inv idFromRef (_html st) _ lvl par st acc st' x
            (parseList_fuel_ok idFromRef (_html st) fuel) (reflexivity _) (proj1 H))
         (parseItem_exclusive _ lvl par st acc st' x
            (fun D => parseList_fuel_ok idFromRef D fuel) IH (proj1 H) (proj2 H)))).
  assert (Hstart : exclusive (length (heap st)) st).
  { intros a b ca cb Ha _ _ Hca. apply lookup_lt_Some in Hca. lia. }
  specialize (HI [] st (conj (item_inv_start (_html st) par st) Hstart)).
  destruct (foldM _ _ _ st) as [g st1]. cbn [fst snd] in *.
  destruct HI as [[[HL HF] Hids Hseg Hnd Hgrp Hlab Hflat] HE].
  destruct (setSiblings_spec g st1 Hnd) as (S1 & S2 & S3 & S4 & S5).
  { intros a Ha. destruct (Hgrp a Ha) as (_ & c & ? & _ & ? & ?). by exists c. }
  set (st' := (setSiblings g st1).2) in *.
  assert (Hback : ∀ a c', heap st' !! a = Some c' →
                  ∃ c, heap st1 !! a = Some c ∧ core c' = core c).
  { intros a c' Ha.
    destruct (lookup_lt_is_Some_2 (heap st1) a) as [c Hc].
    { rewrite <- S2. by eapply lookup_lt_Some. }
    destruct (S4 a c Hc) as (c'' & Hc'' & Hcore). exists c.
    split; [done|]. congruence. }
  intros a b ca cb Ha Hb Hne Hca Hcb Ht.
  destruct (Hback a ca Hca) as (ca0 & Hca0 & (_ & _ & Eta & _ & _ & Eca)%core_all).
  destruct (Hback b cb Hcb) as (cb0 & Hcb0 & (_ & _ & Etb & _ & _ & Ecb)%core_all).
  rewrite Eca, Ecb. apply (HE a b ca0 cb0); try done. congruence.
Qed.

End Exclusive.

End Anchors.

(** ** The loaded document: nothing is lost *)

Module Conservation.
Import Dom DomFacts Converter InMemory HeapFacts HandleFacts OutlineShape.

(** Selecting and removing loses no node: every node of the tree is in a
    selected element or in what is left (a selected element nested in
    another one is in both). *)
Lemma labels_kept_forest (s : selector) (ks : list node) :
  Forall (fun n => labels n ⊆+ labels_all (select s n) ++ labels_all (detach s n)) ks →
  labels_all ks ⊆+
    labels_all (flat_map (select s) ks) ++ labels_all (flat_map (detach s) ks).
Proof.
  induction 1 as [|k ks Hk _ IH]; [done|].
  cbn [flat_map]. rewrite !labels_all_app, labels_all_cons.
  etrans; [apply (submseteq_app _ _ _ _ Hk IH)|].
  apply Permutation_submseteq.
  rewrite <- !(assoc_L (++)). apply Permutation_app_head.
  rewrite !(assoc_L (++)). apply Permutation_app_tail, Permutation_app_comm.
Qed.

Lemma labels_kept s n :
  labels n ⊆+ labels_all (select s n) ++ labels_all (detach s n).
Proof.
  induction n as [x|x|t a ks IH] using node_forall_ind.
  - cbn [select detach]. rewrite ExtractFacts.matches_Text.
    cbn [labels_all flat_map app]. by rewrite app_nil_r.
  - cbn [select detach]. rewrite ExtractFacts.matches_Comment.
    cbn [labels_all flat_map app]. by rewrite app_nil_r.
  - cbn [select detach].
    destruct (matches s (Elem t a ks)) eqn:Hm.
    + cbn [app]. rewrite labels_all_cons. change (labels_all []) with (@nil label).
      rewrite app_nil_r. apply submseteq_inserts_r. done.
    + cbn [app]. rewrite labels_all_cons. change (labels_all []) with (@nil label).
      rewrite app_nil_r. cbn [labels].
      rewrite <- Permutation_middle. apply submseteq_skip.
      by apply labels_kept_forest.
Qed.

Lemma labels_kept_all s doc :
  labels_all doc ⊆+ labels_all (select_all s doc) ++ labels_all (detach_all s doc).
Proof. apply labels_kept_forest, Forall_forall. intros n _. apply labels_kept. Qed.

Section Kept.

Variable idFromRef : option string → string.

Definition rec_keeps (rec : list node → nat → option addr → M (list addr)) : Prop :=
  ∀ ul lvl par st,
    (∀ p, par = Some p → p < length (heap st)) →
    all_labels st ⊆+ all_labels (rec ul lvl par st).2.

Lemma parseItem_keeps rec lvl par st0 g st li :
  (∀ D, rec_ok D rec) → rec_keeps rec →
  all_labels st0 ⊆+ all_labels st →
  all_labels st0 ⊆+ all_labels (parseItem idFromRef rec lvl par g li st).2.
Proof.
  intros Hrec Hrk HK. rewrite parseItem_eq. cbv zeta. cbn [fst snd].
  set (info := extractTOCTitleInfo idFromRef [li]).
  set (c0 := mkChapter lvl par (info_type info) (info_titleId info) (info_title info)
                       (length g + 1) [] [] None None).
  set (n := length (heap st)).
  set (st1 := mkState (_html st) (heap st ++ [c0])).
  set (sub := children_sel (SelTag "ul") [li]).
  assert (Hpar1 : ∀ p, Some n = Some p → p < length (heap st1)).
  { intros p [= <-]. unfold st1. cbn [heap]. rewrite length_app. cbn. lia. }
  pose proof (Hrec (_html st1) sub (lvl + 1) (Some n) st1 (reflexivity _) Hpar1) as Hr.
  pose proof (Hrk sub (lvl + 1) (Some n) st1 Hpar1) as Hr'.
  destruct (rec sub (lvl + 1) (Some n) st1) as [subs st2]. cbn [fst snd] in *.
  destruct Hr as [[HL2 HF2] _ _ _ _ _ _ _].
  assert (Hlen1 : length (heap st1) = S n).
  { unfold st1. cbn [heap]. rewrite length_app. cbn. lia. }
  rewrite Hlen1 in *.
  set (sel := SelIdEq (info_titleId info)).
  set (html := select_all sel (_html st2)).
  assert (Hn2 : heap st2 !! n = Some c0).
  { rewrite HF2 by lia. unfold st1. cbn [heap]. by rewrite list_lookup_middle. }
  assert (E1 : all_labels st = all_labels st1).
  { unfold all_labels, st1. cbn [_html heap]. rewrite heap_labels_app.
    unfold heap_labels at 3. cbn. by rewrite app_nil_r. }
  etrans; [exact HK|]. rewrite E1. etrans; [exact Hr'|].
  unfold all_labels. cbn [_html heap].
  assert (E4 : heap_labels (alter (set_content html) n
                              (alter (set_children subs) n (heap st2)))
               ≡ₚ heap_labels (heap st2) ++ labels_all html).
  { rewrite list_alter_alter_eq.
    eapply heap_labels_alter_content; [exact Hn2|done|done]. }
  rewrite E4.
  etrans; [apply (submseteq_app _ _ _ _ (labels_kept_all sel (_html st2))
                    (reflexivity (heap_labels (heap st2))))|].
  apply Permutation_submseteq. fold html.
  rewrite (Permutation_app_comm (labels_all html)).
  rewrite <- !(assoc_L (++)). apply Permutation_app_head, Permutation_app_comm.
Qed.

Lemma parseList_fuel_keeps fuel : rec_keeps (parseList_fuel idFromRef fuel).
Proof.
  induction fuel as [|fuel IH]; intros ul lvl par st Hpar; [done|].
  cbn [parseList_fuel]. rewrite !bind_eq. cbn [ret fst snd].
  pose proof (foldM_inv (fun acc st' => item_inv (_html st) par st acc st' ∧
                                        all_labels st ⊆+ all_labels st')
                (parseItem idFromRef (parseList_fuel idFromRef fuel) lvl par)
                (children_sel (SelTag "li") ul)) as HI.
  specialize (HI (fun acc x st' _ H =>
    conj (parseItem_inv idFromRef (_html st) _ lvl par st acc st' x
            (parseList_fuel_ok idFromRef (_html st) fuel) (reflexivity _) (proj1 H))
         (parseItem_keeps _ lvl par st acc st' x
            (fun D => parseList_fuel_ok idFromRef D fuel) IH (proj2 H)))).
  specialize (HI [] st (conj (item_inv_start (_html st) par st) (reflexivity _))).
  destruct (foldM _ _ _ st) as [g st1]. cbn [fst snd] in *.
  destruct HI as [[[HL HF] Hids Hseg Hnd Hgrp Hlab Hflat] HK].
  destruct (setSiblings_spec g st1 Hnd) as (S1 & S2 & S3 & S4 & S5).
  { intros a Ha. destruct (Hgrp a Ha) as (_ & c & ? & _ & ? & ?). by exists c. }
  etrans; [exact HK|]. apply Permutation_submseteq.
  unfold all_labels. rewrite S1.
  apply Permutation_app_head. apply reflexive_eq, heap_labels_same_content.
  apply Forall2_same_length_lookup_2; [done|].
  intros i c c' Hc Hc'.
  destruct (S4 i c Hc) as (c'' & Hc'' & (_ & _ & _ & _ & _ & Hct)%core_all).
  congruence.
Qed.

End Kept.

(** Whatever the ids of the document are, no node of the document
    body is lost when the chapters are collected: counted with
    multiplicity, every node is in what is left for the readme or in the
    content of a chapter.  (With ids that repeat, a node can be there more
    than once: an element is extracted with the elements nested in it, and
    a nested one that carries the same id is extracted on its own as
    well.) *)
Lemma no_node_lost_loaded
    (idFromRef : option string → string)
    (addTitleToContent : string → list node → list node)
    (html : list node) (documentTitle : string) :
  let r := collectChapters idFromRef addTitleToContent documentTitle (mkState html []) in
  labels_all (LoadedOutline.body html) ⊆+
    labels_all (_html r.2) ++
    flat_map (LoadedOutline.chapter_labels (heap r.2)) (book_chapters r.1).
Proof.
  intros r.
  pose proof (LoadedOutline.book_chapters_all idFromRef addTitleToContent html documentTitle)
    as Hall.
  fold r in Hall. pose proof (LoadedOutline.chapter_labels_seq [] (heap r.2)) as Hseq.
  cbn [app length] in Hseq. rewrite Hall, Hseq.
  unfold r. rewrite LoadedOutline.collectChapters_state.
  pose proof (parseList_fuel_keeps idFromRef
                (height_all (LoadedOutline.tocList html)) (LoadedOutline.tocList html) 0 None
                (mkState (LoadedOutline.body html) [])) as HK.
  unfold all_labels in HK. cbn [_html heap] in HK.
  unfold heap_labels at 1 in HK. cbn [flat_map] in HK. rewrite app_nil_r in HK.
  apply HK. by intros p [=].
Qed.

End Conservation.
(** ** The markup normalizer ([processHTML]) *)

Module Normalizer.
Import Dom Cheerio CheerioFacts.

(** *** The program-listing rule *)







(** *** Missing sub-elements *)

(** [<div class="literallayout"></div>] and
    [<div class="example">Body</div>]. *)
Definition literallayout_without_paragraph : list node :=
  [Elem "div" [("class", "literallayout")] []].

Definition example_without_caption : list node :=
  [Elem "div" [("class", "example")] [Text "Body"]].

(** C4 fails on the code: a literal block without a paragraph and an
    example without a caption each end the pass with a [TypeError], and no
    HTML is returned. *)
Theorem missing_subelement_aborts_pass :
  processHTML literallayout_without_paragraph
    = Throw "TypeError: Cannot read property 'trim' of null" ∧
  processHTML example_without_caption
    = Throw "TypeError: Cannot read property 'cheerio' of null" ∧
  returned (processHTML literallayout_without_paragraph) = None ∧
  returned (processHTML example_without_caption) = None.
Proof. repeat split; vm_compute; reflexivity. Qed.

(** *** The example rule *)

Definition example_container (id caption body : string) : list node :=
  [Elem "div" [("id", id); ("class", "example")]
     [Elem "div" [("class", "example-title")] [Text caption]; Text body]].

(** C5 as stated fails: the pass does not return the heading and the body
    alone. *)
Lemma example_container_not_unwrapped :
  outerHTML (example_container "ex1" "Caption" "Body")
    = html_text "<div id='ex1' class='example'><div class='example-title'>Caption</div>Body</div>" ∧
  returned (processHTML (example_container "ex1" "Caption" "Body"))
    ≠ Some (html_text "<h6 id='ex1'>Caption</h6>Body").
Proof. split; vm_compute; [reflexivity|discriminate]. Qed.

(** C5, as amended.  The example container stays, without its id; inside
    it a level-6 heading with that id and the caption's markup stands where
    the caption container stood, the body following it. *)
Theorem example_container_keeps_wrapper :
  returned (processHTML (example_container "ex1" "Caption" "Body"))
    = Some (html_text "<div class='example'><h6 id='ex1'>Caption</h6>Body</div>") ∧
  ∀ id caption body,
    caption ≠ "" → body ≠ "" →
    ∃ σ, processHTML (example_container id caption body)
         = Ok [Elem "div" [("class", "example")]
                 [Elem "h6" [("id", id)] [Text caption]; Text body]] σ.
Proof.
  split; [vm_compute; reflexivity|].
  intros id caption body Hc Hb.
  destruct caption as [|c caption]; [done|]. destruct body as [|b body]; [done|].
  eexists. vm_compute. reflexivity.
Qed.

Lemma example_container_keeps_wrapper_witness :
  ∃ σ, processHTML (example_container "e2" "Listing 2" "see below")
       = Ok [Elem "div" [("class", "example")]
               [Elem "h6" [("id", "e2")] [Text "Listing 2"]; Text "see below"]] σ.
Proof.
  refine (proj2 example_container_keeps_wrapper "e2" "Listing 2" "see below" _ _);
    discriminate.
Defined.

(** *** The footnote-reference rule *)

Definition footnote_link (label : string) : list node :=
  [Elem "a" [("class", "footnote")] [Elem "sup" [] [Text label]]].

(** The element children of [el], as [$(el).children()] gives them. *)
Definition element_children (σ : store) (el : nat) : list nat :=
  List.filter (isTag σ) (children σ el).

(** C6 as stated fails: the superscript does not hold the label followed by
    an emptied link. *)
Lemma footnote_label_not_in_sup :
  outerHTML (footnote_link "3") = html_text "<a class='footnote'><sup>3</sup></a>" ∧
  returned (processHTML (footnote_link "3"))
    ≠ Some (html_text "<sup>3<a class='footnote'></a></sup>").
Proof. split; vm_compute; [reflexivity|discriminate]. Qed.

(** C6, as amended.  The link [<a class="footnote"><sup>3</sup></a>]
    becomes a superscript element whose only content is the link, and the
    link's label is then [3]; a link whose element children are not exactly
    one, or whose only element child is not a [sup], is left as it is: the
    callback returns without touching the document. *)
Theorem footnote_reference_rewrite :
  returned (processHTML (footnote_link "3"))
    = Some (html_text "<sup><a class='footnote'>3</a></sup>") ∧
  (∀ label, label ≠ "" →
     ∃ σ, processHTML (footnote_link label)
          = Ok [Elem "sup" [] [Text ""; Elem "a" [("class", "footnote")] [Text label]]] σ) ∧
  (∀ (σ : store) (el : nat),
     length (element_children σ el) ≠ 1 ∨
     existsb (fun h => matches (SelTag "sup") (shallow σ h))
             (take 1 (element_children σ el)) = false →
     footnote_ref_callback el σ = Ok tt σ).
Proof.
  split; [vm_compute; reflexivity|]. split.
  - intros label Hl. destruct label as [|c label]; [done|].
    eexists. vm_compute. reflexivity.
  - intros σ el Hguard. unfold footnote_ref_callback, bind, children_, gets.
    cbn [flat_map]. rewrite app_nil_r.
    change (List.filter (isTag σ) (children σ el)) with (element_children σ el).
    destruct (Nat.eqb_spec (length (element_children σ el)) 1) as [H1|H1]; cbn [negb].
    + destruct Hguard as [Hn|Hsup]; [done|].
      unfold is_, gets, first_. by rewrite Hsup.
    + done.
Qed.

(** [<a class="footnote"><sup>3</sup><b></b></a>]: two element children. *)
Definition footnote_link_two_children : list node :=
  [Elem "a" [("class", "footnote")] [Elem "sup" [] [Text "3"]; Elem "b" [] []]].

Lemma footnote_reference_rewrite_witness :
  element_children (load footnote_link_two_children) 4 = [2; 3] ∧
  footnote_ref_callback 4 (load footnote_link_two_children)
    = Ok tt (load footnote_link_two_children) ∧
  returned (processHTML footnote_link_two_children)
    = Some (outerHTML footnote_link_two_children).
Proof.
  split; [reflexivity|]. split; [|vm_compute; reflexivity].
  refine (proj2 (proj2 footnote_reference_rewrite) (load footnote_link_two_children) 4 _).
  left. vm_compute. discriminate.
Defined.

End Normalizer.


(** ** Checking the conditions on an example *)

Module SampleFacts.
Import Dom DomFacts ReadBack Sample.

Lemma attrs_eqb_eq a : ∀ b, attrs_eqb a b = true → a = b.
Proof.
  induction a as [|[k v] a IH]; intros [|[k' v'] b]; try done.
  cbn [attrs_eqb]. intros [[Hk Hv]%andb_true_iff Hab]%andb_true_iff.
  apply String.eqb_eq in Hk, Hv. subst. f_equal. by apply IH.
Qed.

Lemma node_eqb_eq m : ∀ n, node_eqb m n = true → m = n.
Proof.
  induction m as [x|x|t a ks IH] using node_forall_ind; intros [y|y|t' a' ks']; try done.
  - cbn. by intros ->%String.eqb_eq.
  - cbn. by intros ->%String.eqb_eq.
  - cbn [node_eqb]. intros [[Ht Ha]%andb_true_iff Hks]%andb_true_iff.
    apply String.eqb_eq in Ht. apply attrs_eqb_eq in Ha. subst. f_equal.
    revert ks' Hks. induction IH as [|k ks Hk _ IHks]; intros [|k' ks'] Hks; try done.
    apply andb_true_iff in Hks as [H1 H2]. f_equal; [by apply Hk|by apply IHks].
Qed.

Lemma forest_eqb_eq f : ∀ g, forest_eqb f g = true → f = g.
Proof.
  induction f as [|m f IH]; intros [|n g]; try done.
  cbn [forest_eqb]. intros [H1 H2]%andb_true_iff.
  f_equal; [by apply node_eqb_eq|by apply IH].
Qed.

Definition among (f : list node) (L : list (list node)) : bool :=
  existsb (forest_eqb f) L.

Lemma among_elem f L : among f L = true → f ∈ L.
Proof.
  unfold among. rewrite existsb_exists. intros (g & Hg & Heq).
  apply forest_eqb_eq in Heq. subst. by apply list_elem_of_In.
Qed.

(** [L] holds, with each of its documents, every document one step of
    [made_of] makes of it. *)
Definition closed (L : list (list node)) : bool :=
  among [] L &&
  forallb (fun f =>
             among (reparse f) L && among (Converter.setIds f) L &&
             forallb (fun v => among (detach_all (SelIdEq v) f) L &&
                               among (select_all (SelIdEq v) f) L)
                     (ids_all f)) L.

Definition read_back_all (load : string → list node) (L : list (list node)) : bool :=
  forallb (fun f => forest_eqb (load (outerHTML f)) (reparse f)) L.

Lemma made_of_among D L f :
  among D L = true → closed L = true → made_of D f → f ∈ L.
Proof.
  intros HD [Hnil Hcl]%andb_true_iff. rewrite forallb_forall in Hcl.
  assert (Hstep : ∀ g, g ∈ L →
    reparse g ∈ L ∧ Converter.setIds g ∈ L ∧
    ∀ v, detach_all (SelIdEq v) g ∈ L ∧ select_all (SelIdEq v) g ∈ L).
  { intros g Hg. pose proof Hg as Hg'. apply list_elem_of_In, Hcl in Hg'.
    apply andb_true_iff in Hg' as [[H1 H2]%andb_true_iff H3].
    split; [by apply among_elem|]. split; [by apply among_elem|].
    intros v. destruct (decide (v ∈ ids_all g)) as [Hv|Hv].
    - rewrite forallb_forall in H3. apply list_elem_of_In, H3 in Hv.
      apply andb_true_iff in Hv as [??]. split; by apply among_elem.
    - rewrite (detach_all_missing _ _ Hv), (select_all_missing _ _ Hv).
      split; [done|by apply among_elem]. }
  induction 1 as [| |g _ IH|v g _ IH|v g _ IH|g _ IH].
  - by apply among_elem.
  - by apply among_elem.
  - by apply Hstep.
  - by apply Hstep.
  - by apply Hstep.
  - by apply Hstep.
Qed.

(** The condition [reads_back] on an example, by going through the
    documents made of it. *)
Lemma reads_back_by_cases load D L :
  among D L = true → closed L = true → read_back_all load L = true →
  reads_back load D.
Proof.
  intros HD Hcl Hall f Hf.
  pose proof (made_of_among D L f HD Hcl Hf) as Hin.
  unfold read_back_all in Hall. rewrite forallb_forall in Hall.
  apply list_elem_of_In, Hall in Hin. by apply forest_eqb_eq.
Qed.

(** The documents made of [D], by iteration. *)
Definition one_step (f : list node) : list (list node) :=
  reparse f :: Converter.setIds f ::
  flat_map (fun v => [detach_all (SelIdEq v) f; select_all (SelIdEq v) f]) (ids_all f).

Fixpoint add_new (new L : list (list node)) : list (list node) :=
  match new with
  | [] => L
  | f :: new' => if among f L then add_new new' L else add_new new' (L ++ [f])
  end.

Fixpoint closure (n : nat) (L : list (list node)) : list (list node) :=
  match n with
  | 0 => L
  | S n' => closure n' (add_new (flat_map one_step L) L)
  end.

Definition documents_of (D : list node) : list (list node) := closure 4 [[]; D].

(** The condition [anchors_read] on an example, by going through the items. *)
Definition anchors_read_all (css : string → option selector)
    (idFromRef : option string → string) (ul : list node) : bool :=
  forallb (fun li =>
             match css (Converter.getChapterSelector
                          (Converter.extractTOCTitleInfo idFromRef [li])) with
             | Some (SelIdEq v) =>
                 String.eqb v (Converter.info_titleId
                                 (Converter.extractTOCTitleInfo idFromRef [li]))
             | _ => false
             end)
          (select_all (SelTag "li") ul).

Lemma anchors_read_by_cases css idFromRef ul :
  anchors_read_all css idFromRef ul = true → anchors_read css idFromRef ul.
Proof.
  unfold anchors_read_all. rewrite forallb_forall. intros Hall li Hli.
  apply list_elem_of_In, Hall in Hli. unfold anchor_read.
  destruct (css _) as [[| | | |v| |]|]; try done.
  by apply String.eqb_eq in Hli as ->.
Qed.

End SampleFacts.

(** ** The outline built by [parseChapters] *)

Module Outline.
Import Dom DomFacts ReadBack Sample SampleFacts Converter.

(** *** Example documents *)

(** [Chapter 1 > Section 1.1] and [Chapter 2], over
    [<div id="c1">A<div id="s1">B</div></div><div id="c2">C</div><p>leftover</p>]. *)
Definition nested_page : string :=
  html_text
    ("<div class='toc'><ul class='toc'>" +:+
     "<li><span class='chapter'><a href='#c1'>Chapter 1</a></span>" +:+
     "<ul><li><span class='section'><a href='#s1'>Section 1.1</a></span></li></ul></li>" +:+
     "<li><span class='chapter'><a href='#c2'>Chapter 2</a></span></li>" +:+
     "</ul></div>" +:+
     "<div id='c1'>A<div id='s1'>B</div></div><div id='c2'>C</div><p>leftover</p>").



(** [Parent > Kid] over a parent element that holds, inside a [noscript]
    element, the text [&lt;div id="k"&gt;x&lt;/div&gt;]. *)
Definition noscript_page : string :=
  html_text
    ("<div class='toc'><ul class='toc'>" +:+
     "<li><span class='chapter'><a href='#p'>Parent</a></span>" +:+
     "<ul><li><span class='section'><a href='#k'>Kid</a></span></li></ul></li>" +:+
     "</ul></div>" +:+
     "<div id='p'><noscript>&amp;lt;div id='k'&amp;gt;x&amp;lt;/div&amp;gt;</noscript></div>").

Lemma nested_page_reads_back : reads_back read (body (read nested_page)).
Proof.
  apply (reads_back_by_cases _ _ (documents_of (body (read nested_page))));
    vm_compute; reflexivity.
Qed.

Lemma nested_page_anchors : anchors_read id_css idAfterHash (tocList (read nested_page)).
Proof. apply anchors_read_by_cases. vm_compute. reflexivity. Qed.



(** *** Sibling links *)

(** The sibling links of a group [g], as the claim words them: a member's
    [next] is the following member, whose [previous] is that same member;
    the first member has no [previous], the last no [next]. *)
Definition sibling_chain (h : list Chapter) (g : list addr) : Prop :=
  (∀ i x y, g !! i = Some x → g !! S i = Some y →
     ∃ cx cy, h !! x = Some cx ∧ h !! y = Some cy ∧
              next cx = Some y ∧ previous cy = Some x) ∧
  (∀ x, head g = Some x → ∃ cx, h !! x = Some cx ∧ previous cx = None) ∧
  (∀ x, last g = Some x → ∃ cx, h !! x = Some cx ∧ next cx = None).

Lemma sibling_chain_carried h ah g :
  Carried.same_shape h ah → LoadedOutline.sibling_chain ah g → sibling_chain h g.
Proof.
  intros Hs (H1 & H2 & H3).
  assert (Hl : ∀ x ac, ah !! x = Some ac →
            ∃ c, h !! x = Some c ∧ InMemory.previous ac = previous c ∧
                 InMemory.next ac = next c).
  { intros x ac Hx. destruct (Forall2_lookup_r _ _ _ _ _ Hs Hx) as (c & Hc & f & -> & _).
    by exists c. }
  split; [|split].
  - intros i x y Hx Hy. destruct (H1 i x y Hx Hy) as (acx & acy & Hax & Hay & Hn & Hp).
    destruct (Hl _ _ Hax) as (cx & Hcx & _ & En). destruct (Hl _ _ Hay) as (cy & Hcy & Ep & _).
    exists cx, cy. repeat split; try done; congruence.
  - intros x Hx. destruct (H2 x Hx) as (acx & Hax & Hp).
    destruct (Hl _ _ Hax) as (cx & Hcx & Ep & _). exists cx. split; [done|congruence].
  - intros x Hx. destruct (H3 x Hx) as (acx & Hax & Hn).
    destruct (Hl _ _ Hax) as (cx & Hcx & _ & En). exists cx. split; [done|congruence].
Qed.

(** C8.  [parseList] returns when the selector text of every item of the
    list is a selector (nothing else in it throws); and when it returns,
    the group it returns and the children of every chapter it created are
    doubly linked chains. *)
Theorem sibling_links_form_chain
    (load : string → list node) (css : string → option selector)
    (idFromRef : option string → string) (ul : list node) (lvl : nat)
    (st : state) :
  (selectors_read css idFromRef ul →
   ∃ g st', parseList load css idFromRef ul lvl None st = Ok g st') ∧
  ∀ g st',
    parseList load css idFromRef ul lvl None st = Ok g st' →
    sibling_chain (heap st') g ∧
    ∀ a c, length (heap st) ≤ a → heap st' !! a = Some c →
           sibling_chain (heap st') (children c).
Proof.
  split; [apply Carried.parseList_returns|].
  intros g st' Hrun.
  set (ast := InMemory.mkState [] (map (fun c => Refinement.forget c []) (heap st))).
  pose proof (Carried.parseList_shape load css idFromRef ul lvl None st ast
                (Carried.same_shape_start _)) as Hs.
  rewrite Hrun in Hs. destruct Hs as [-> Hs].
  destruct (LoadedOutline.chain_loaded idFromRef ul lvl ast) as [Hg Hch].
  split; [by eapply sibling_chain_carried|].
  intros a c Ha Hc.
  destruct (Carried.same_shape_lookup _ _ _ _ Hs Hc) as (f & Hac).
  eapply sibling_chain_carried; [exact Hs|].
  apply (Hch a _ ltac:(unfold ast; cbn [InMemory.heap]; by rewrite length_map) Hac).
Qed.

Lemma sibling_links_form_chain_witness :
  ∃ st',
    parseList read id_css idAfterHash (tocList (read nested_page)) 0 None
      (mkState (outerHTML (body (read nested_page))) []) = Ok [0; 2] st' ∧
    sibling_chain (heap st') [0; 2].
Proof.
  eexists. split; [vm_compute; reflexivity|].
  refine (proj1 (proj2 (sibling_links_form_chain read id_css idAfterHash
                          (tocList (read nested_page)) 0
                          (mkState (outerHTML (body (read nested_page))) []))
                       [0; 2] _ _)).
  vm_compute. reflexivity.
Defined.

(** *** Extraction order *)

(** C2 as stated fails on [noscript_page].  The kid's extraction finds no
    element with the id [k] and writes the document back, the text inside
    [noscript] as it is; loaded again for the parent's extraction, that
    text is an element with the id [k], and it ends inside the parent's
    content. *)
Lemma child_anchor_inside_parent_content :
  ∃ b st cp ck,
    parseChapters read id_css idAfterHash keepContent "Doc" (mkState noscript_page [])
      = Ok b st ∧
    heap st !! 0 = Some cp ∧ heap st !! 1 = Some ck ∧
    children cp = [1] ∧ titleId cp = "p" ∧ titleId ck = "k" ∧
    content ck = "" ∧
    content cp = html_text "<div id='p'><noscript><div id='k'>x</div></noscript></div>" ∧
    titleId ck ∈ ids_all (read (content cp)).
Proof.
  do 4 eexists. split; [vm_compute; reflexivity|].
  split; [reflexivity|]. split; [reflexivity|].
  repeat (split; [reflexivity|]).
  vm_compute. apply list_elem_of_In. right. left. reflexivity.
Qed.

(** C2, as amended.  When the texts the converter writes are read back as
    the documents they were written from, and the selector texts as the id
    tests they were written for, [parseChapters] returns, and the final
    content of a chapter holds no element whose id is the anchor of one of
    its children: the children were extracted, and so removed from the
    shared document, before the chapter's own element was selected. *)
Theorem children_anchors_absent_from_parent
    (load : string → list node) (css : string → option selector)
    (idFromRef : option string → string)
    (addTitleToContent : string → string → string)
    (html : string) (documentTitle : string) :
  reads_back load (body (load html)) →
  anchors_read css idFromRef (tocList (load html)) →
  ∃ b st,
    parseChapters load css idFromRef addTitleToContent documentTitle (mkState html [])
      = Ok b st ∧
    ∀ p k cp ck,
      heap st !! p = Some cp → k ∈ children cp → heap st !! k = Some ck →
      titleId ck ∉ ids_all (load (content cp)).
Proof.
  intros Hload Hcss.
  destruct (Carried.parseChapters_full load css idFromRef addTitleToContent html
              documentTitle Hload Hcss) as (st0 & _ & Hfull & Hrun).
  eexists _, _. split; [exact Hrun|]. cbn [heap].
  intros p k cp ck Hp Hk Hck.
  rewrite list_lookup_fmap in Hp, Hck.
  destruct (heap st0 !! p) as [cp0|] eqn:Hp0; [|done].
  destruct (heap st0 !! k) as [ck0|] eqn:Hk0; [|done].
  cbn in Hp, Hck. injection Hp as <-. injection Hck as <-.
  destruct (Carried.content_loaded load idFromRef html documentTitle Hload st0 p cp0
              Hfull Hp0) as (fp & Ep & Hap & _ & _ & HEp & Hlp).
  destruct (Carried.full_lookup _ _ _ _ _ Hfull Hk0) as (fk & Hak & _).
  rewrite Hlp, ids_all_reparse.
  pose proof (LoadedOutline.collectChapters_post idFromRef (fun _ f => f) (load html)
                documentTitle) as [_ _ Hseg _ _ _ _ _].
  fold (Carried.loaded load idFromRef html documentTitle) in Hseg.
  destruct (HeapFacts.so_children _ _ _ Hseg p _ k (Nat.le_0_l _) Hap Hk)
    as (_ & ack & Hack & _ & Hout).
  assert (ack = Refinement.forget ck0 fk) as -> by congruence.
  cbn [InMemory.titleId InMemory.content Refinement.forget] in Hout.
  intros Hin. apply Hout.
  apply HandleFacts.ids_setIds in Hin. rewrite ids_all_reparse in Hin.
  by rewrite <- (ids_all_reparse fp), <- HEp, ids_all_reparse.
Qed.

Lemma children_anchors_absent_from_parent_witness :
  ∃ b st cp,
    parseChapters read id_css idAfterHash keepContent "Doc" (mkState nested_page [])
      = Ok b st ∧
    heap st !! 0 = Some cp ∧ children cp = [1] ∧
    content cp = html_text "<div id='c1'>A</div>" ∧
    "s1" ∉ ids_all (read (content cp)).
Proof.
  destruct (children_anchors_absent_from_parent read id_css idAfterHash keepContent
              nested_page "Doc" nested_page_reads_back nested_page_anchors)
    as (b & st & Hrun & Habs).
  assert (Hst : parseChapters read id_css idAfterHash keepContent "Doc"
                  (mkState nested_page [])
                = Ok (mkBook (mkReadme "Doc" "<p>leftover</p>") [0; 1; 2])
                     (mkState "<p>leftover</p>"
                        [mkChapter 0 None (Some "chapter") "c1" "Chapter 1" 1 [1]
                           (html_text "<div id='c1'>A</div>") None (Some 2);
                         mkChapter 1 (Some 0) (Some "section") "s1" "Section 1.1" 1 []
                           (html_text "<div id='s1'>B</div>") None None;
                         mkChapter 0 None (Some "chapter") "c2" "Chapter 2" 2 []
                           (html_text "<div id='c2'>C</div>") (Some 0) None]))
    by (vm_compute; reflexivity).
  rewrite Hst in Hrun. injection Hrun as <- <-.
  eexists _, _, _. split; [exact Hst|]. split; [reflexivity|].
  split; [reflexivity|]. split; [reflexivity|].
  refine (Habs 0 1 _ _ eq_refl _ eq_refl). cbn. left.
Defined.

(** *** A missing anchor *)




(** *** The fragments and the document *)

(** The nodes, as the parser reads them, of the content of the chapter at
    [a]. *)
Definition chapter_labels (load : string → list node) (h : list Chapter) (a : addr)
    : list label :=
  match h !! a with
  | Some c => labels_all (load (content c))
  | None => []
  end.

(** The fragments [collectChapters] ends with: the residual front matter,
    then the content of every chapter object. *)
Definition fragments (st : state) : list string :=
  _html st :: map content (heap st).

Definition string_concat (l : list string) : string :=
  fold_right (fun s acc => s +:+ acc) "" l.

(** C1 as stated fails on [nested_page], whose every TOC entry has its
    element: in no order do the fragments, put one after the other, give
    back the document body.  The section [s1] lies inside the chapter [c1],
    so the content of [c1] is the text of its element with a hole in it. *)
Lemma concatenation_does_not_rebuild_body :
  ∃ b st,
    collectChapters read id_css idAfterHash keepContent "Doc" (mkState nested_page [])
      = Ok b st ∧
    fragments st = ["<p>leftover</p>";
                    html_text "<div id='c1'>A</div>";
                    html_text "<div id='s1'>B</div>";
                    html_text "<div id='c2'>C</div>"] ∧
    outerHTML (body (read nested_page))
      = html_text "<div id='c1'>A<div id='s1'>B</div></div><div id='c2'>C</div><p>leftover</p>" ∧
    ¬ ∃ order,
        order ≡ₚ fragments st ∧
        (string_concat order = outerHTML (body (read nested_page)) ∨
         string_concat order = nested_page).
Proof.
  eexists _, _. split; [vm_compute; reflexivity|].
  split; [vm_compute; reflexivity|]. split; [vm_compute; reflexivity|].
  intros (order & Hperm & Heq).
  symmetry in Hperm. apply permutations_Permutation in Hperm.
  match type of Hperm with
  | _ ∈ permutations ?l =>
      assert (HF : Forall (fun order =>
                     ¬ (string_concat order = outerHTML (body (read nested_page)) ∨
                        string_concat order = nested_page))
                   (permutations l))
  end.
  { vm_compute. repeat (apply List.Forall_cons; [intros [H|H]; discriminate H|]).
    apply List.Forall_nil. }
  rewrite Forall_forall in HF. exact (HF order Hperm Heq).
Qed.

(** C1, as amended.  With pairwise distinct ids in the document body, the
    texts read back as written and the anchors read as id tests, every node
    of the body (the document without its TOC container) is held exactly
    once by the residual front-matter text (what is left in [this._html],
    which the readme is built from) and the extracted contents of the
    returned chapters together. *)
Theorem contents_partition_nodes
    (load : string → list node) (css : string → option selector)
    (idFromRef : option string → string)
    (addTitleToContent : string → string → string)
    (html : string) (documentTitle : string) :
  reads_back load (body (load html)) →
  anchors_read css idFromRef (tocList (load html)) →
  NoDup (ids_all (body (load html))) →
  ∃ b st,
    collectChapters load css idFromRef addTitleToContent documentTitle (mkState html [])
      = Ok b st ∧
    readme_content (book_readme b) = addTitleToContent documentTitle (_html st) ∧
    (∀ a, a ∈ book_chapters b ↔ is_Some (heap st !! a)) ∧
    NoDup (book_chapters b) ∧
    labels_all (body (load html)) ≡ₚ
      labels_all (load (_html st)) ++
      flat_map (chapter_labels load (heap st)) (book_chapters b).
Proof.
  intros Hload Hcss Hnd.
  destruct (Carried.collectChapters_full load css idFromRef addTitleToContent html
              documentTitle Hload Hcss) as (st & Hrun & Hfull).
  eexists _, st. split; [exact Hrun|].
  cbn [book_readme readme_content book_chapters]. split; [done|].
  split; [|split; [apply NoDup_seq|]].
  { intros a. rewrite elem_of_seq, lookup_lt_is_Some. lia. }
  pose proof (LoadedOutline.partition_loaded idFromRef (fun _ f => f) (load html)
                documentTitle Hnd) as [_ Hperm].
  fold (Carried.loaded load idFromRef html documentTitle) in Hperm.
  pose proof (LoadedOutline.book_chapters_all idFromRef (fun _ f => f) (load html)
                documentTitle) as Hall.
  cbv zeta in Hall. fold (Carried.loaded load idFromRef html documentTitle) in Hall.
  rewrite Hall in Hperm.
  pose proof (Carried.full_shape _ _ _ Hfull) as Hs.
  rewrite <- (Forall2_length _ _ _ Hs) in Hperm.
  rewrite Hperm. destruct Hfull as [Hh Hheap].
  rewrite (Carried.stands_for_labels load _ Hload _ _ Hh).
  apply Permutation_app_head. apply Permutation_refl'.
  apply HeapFacts.flat_map_ext_elem. intros a _.
  unfold LoadedOutline.chapter_labels, chapter_labels.
  destruct (heap st !! a) as [c|] eqn:Hc.
  - destruct (Forall2_lookup_l _ _ _ _ _ Hheap Hc) as (ac & Hac & f & -> & Hf).
    rewrite Hac. cbn [InMemory.content Refinement.forget].
    symmetry. by apply (Carried.stands_for_labels load _ Hload).
  - apply lookup_ge_None in Hc. rewrite (Forall2_length _ _ _ Hheap) in Hc.
    apply lookup_ge_None in Hc. by rewrite Hc.
Qed.

Lemma contents_partition_nodes_witness :
  ∃ b st,
    collectChapters read id_css idAfterHash keepContent "Doc" (mkState nested_page [])
      = Ok b st ∧
    book_chapters b = [0; 1; 2] ∧
    labels_all (body (read nested_page)) ≡ₚ
      labels_all (read "<p>leftover</p>") ++
      labels_all (read (html_text "<div id='c1'>A</div>")) ++
      labels_all (read (html_text "<div id='s1'>B</div>")) ++
      labels_all (read (html_text "<div id='c2'>C</div>")).
Proof.
  assert (Hnd : NoDup (ids_all (body (read nested_page)))).
  { apply (bool_decide_unpack _). vm_compute. exact I. }
  destruct (contents_partition_nodes read id_css idAfterHash keepContent nested_page "Doc"
              nested_page_reads_back nested_page_anchors Hnd)
    as (b & st & Hrun & _ & _ & _ & Hperm).
  assert (Hst : ∃ st1,
            collectChapters read id_css idAfterHash keepContent "Doc"
              (mkState nested_page [])
            = Ok (mkBook (mkReadme "Doc" "<p>leftover</p>") [0; 1; 2]) st1 ∧
            _html st1 = "<p>leftover</p>" ∧
            map content (heap st1) = [html_text "<div id='c1'>A</div>";
                                      html_text "<div id='s1'>B</div>";
                                      html_text "<div id='c2'>C</div>"])
    by (eexists; split; [vm_compute; reflexivity|]; split; reflexivity).
  destruct Hst as (st1 & Hst & Hh & Hc).
  rewrite Hst in Hrun. injection Hrun as <- <-.
  eexists _, _. split; [exact Hst|]. split; [reflexivity|].
  rewrite Hperm. rewrite Hh. apply Permutation_app_head.
  cbn [book_chapters flat_map]. unfold chapter_labels.
  destruct (heap st1) as [|c0 [|c1 [|c2 [|]]]]; try discriminate Hc.
  injection Hc as E0 E1 E2.
  change ((labels_all (read (content c0)) ++ labels_all (read (content c1)) ++
           labels_all (read (content c2)) ++ []) ≡ₚ
          labels_all (read (html_text "<div id='c1'>A</div>")) ++
          labels_all (read (html_text "<div id='s1'>B</div>")) ++
          labels_all (read (html_text "<div id='c2'>C</div>"))).
  by rewrite E0, E1, E2, app_nil_r.
Defined.

End Outline.

(** ** The anchor reconciler ([setTitlesId]) *)

Module Reconciler.
Import Dom DomFacts HandleFacts ReadBack Sample Converter.

(** [setTitlesId] rewrites the content of every chapter of the list once. *)
Lemma setTitlesId_chapter load b st a c :
  NoDup (book_chapters b) → a ∈ book_chapters b → heap st !! a = Some c →
  ∃ st',
    setTitlesId load b st
    = Ok (mkBook (mkReadme (readme_title (book_readme b))
                    (outerHTML (setIds (load (readme_content (book_readme b))))))
                 (book_chapters b)) st' ∧
    heap st' !! a = Some (set_content (outerHTML (setIds (load (content c)))) c).
Proof.
  intros Hnd Ha Hc. rewrite Carried.setTitlesId_run. eexists. split; [done|].
  cbn [heap]. rewrite Carried.retitled_lookup by done. by rewrite Hc.
Qed.

(** [<section id="a"><section id="b"><h1>x</h1></section></section>]: a
    section inside a section, one heading. *)
Definition nested_sections : string :=
  html_text "<section id='a'><section id='b'><h1>x</h1></section></section>".








End Reconciler.
(** ** More about the markup normalizer ([processHTML]) *)

Module Passes.
Import Dom DomFacts Cheerio CheerioFacts ExtractFacts.

(** *** A loaded document and the store that holds it *)

#[local] Set Warnings "-register-all".

(** The store holds the tree [t] behind the handle [h]: the node behind [h]
    is the root of [t], its children hold the children of [t].  Handles
    are [lo] at least, and the children of a node were made before it. *)
Inductive holds (lo : nat) (σ : store) : node → nat → Prop :=
| holds_text s h :
    lo ≤ h → σ !! h = Some (mkD (KText s) [] []) → holds lo σ (Text s) h
| holds_comment s h :
    lo ≤ h → σ !! h = Some (mkD (KComment s) [] []) → holds lo σ (Comment s) h
| holds_elem t a ks hs h :
    lo ≤ h → σ !! h = Some (mkD (KTag t) a hs) →
    Forall2 (holds lo σ) ks hs → Forall (fun c => c < h) hs →
    holds lo σ (Elem t a ks) h.

Lemma Forall2_impl_Forall {A B} (R R' : A → B → Prop) l l' :
  Forall (fun x => ∀ y, R x y → R' x y) l → Forall2 R l l' → Forall2 R' l l'.
Proof.
  intros HF H2. induction H2 as [|x y l l' Hxy _ IH]; [constructor|].
  apply Forall_cons in HF as [Hx HF]. constructor; [by apply Hx|by apply IH].
Qed.

Lemma holds_lt lo (σ : store) t h : holds lo σ t h → lo ≤ h < length σ.
Proof.
  intros H. inversion H; subst;
    match goal with Hl : σ !! h = Some _ |- _ => apply lookup_lt_Some in Hl end; lia.
Qed.

Lemma holds_all_lt lo (σ : store) ks hs :
  Forall2 (holds lo σ) ks hs → Forall (fun c => c < length σ) hs.
Proof.
  induction 1 as [|x y l l' Hxy _ IH]; [constructor|].
  constructor; [|done]. apply holds_lt in Hxy. lia.
Qed.

(** Only the nodes at [lo] and above matter. *)
Lemma holds_mono lo lo' (σ σ' : store) t : ∀ h,
  lo' ≤ lo →
  (∀ i d, lo ≤ i → σ !! i = Some d → σ' !! i = Some d) →
  holds lo σ t h → holds lo' σ' t h.
Proof.
  induction t as [s|s|t a ks IH] using node_forall_ind; intros h Hlo Hσ Hh;
    inversion Hh; subst.
  - constructor; [lia|auto].
  - constructor; [lia|auto].
  - econstructor; [lia|by apply Hσ| |done].
    eapply Forall2_impl_Forall; [|eassumption].
    eapply Forall_impl; [exact IH|]. intros k Hk c Hc. by apply Hk.
Qed.

Lemma build_all_holds ks :
  Forall (fun k => ∀ σ : store, holds (length σ) (build k σ).2 k (build k σ).1) ks →
  ∀ σ : store, Forall2 (holds (length σ) (build_all ks σ).2) ks (build_all ks σ).1.
Proof.
  induction 1 as [|k ks Hk _ IH]; intros σ; [constructor|].
  rewrite build_all_cons. cbn [fst snd].
  destruct (build_extends k σ) as [[new1 E1] _].
  destruct (build_all_extends ks (build k σ).2) as [[new2 E2] _].
  constructor.
  - eapply holds_mono; [done| |apply Hk].
    intros i d _ Hi. rewrite E2. by apply lookup_app_l_Some.
  - eapply Forall2_impl_Forall; [|apply IH].
    apply Forall_forall. intros x _ y Hy.
    eapply holds_mono; [|by intros i d _ Hi|exact Hy].
    rewrite E1, length_app. lia.
Qed.

Lemma build_holds t : ∀ σ : store, holds (length σ) (build t σ).2 t (build t σ).1.
Proof.
  induction t as [s|s|t a ks IH] using node_forall_ind; intros σ.
  - constructor; [done|]. cbn. by rewrite list_lookup_middle.
  - constructor; [done|]. cbn. by rewrite list_lookup_middle.
  - rewrite build_Elem. cbn [fst snd].
    destruct (build_all_extends ks σ) as [[new E] _].
    pose proof (build_all_holds ks IH σ) as H2.
    econstructor.
    + rewrite E, length_app. lia.
    + by rewrite list_lookup_middle.
    + eapply Forall2_impl_Forall; [|exact H2].
      apply Forall_forall. intros x _ y Hy.
      eapply holds_mono; [done| |exact Hy].
      intros i d _ Hi. by apply lookup_app_l_Some.
    + by eapply holds_all_lt.
Qed.

Lemma build_forest_holds l (σ : store) :
  Forall2 (holds (length σ) (build_all l σ).2) l (build_all l σ).1.
Proof. apply build_all_holds, Forall_forall. intros k _. apply build_holds. Qed.

(** What [cheerio.load] gives: the root, handle 0, has the trees of the
    parsed text as its children. *)
Lemma load_holds html :
  ∃ hs, children (load html) 0 = hs ∧ 0 < length (load html) ∧
        Forall2 (holds 1 (load html)) (reparse html) hs.
Proof.
  unfold load.
  pose proof (build_forest_holds (reparse html) [mkD KRoot [] []]) as H2.
  destruct (build_all_extends (reparse html) [mkD KRoot [] []]) as [[new E] _].
  destruct (build_all (reparse html) [mkD KRoot [] []]) as [hs σ] eqn:Hb.
  cbn [fst snd length] in *. exists hs.
  assert (Hlen : 0 < length σ) by (rewrite E; cbn; lia).
  split; [|split].
  - rewrite children_set_children. destruct (decide (0 = 0)); [|done].
    by destruct (decide (0 < length σ)).
  - by rewrite length_set_children.
  - eapply Forall2_impl_Forall; [|exact H2].
    apply Forall_forall. intros x _ y Hy.
    eapply (holds_mono 1 1); [done| |exact Hy].
    intros i d Hi Hd. rewrite lookup_set_children_ne by lia. done.
Qed.

(** The nesting depth of a tree. *)
Fixpoint depth (n : node) : nat :=
  match n with
  | Elem _ _ ks => S (fold_right (fun k m => Nat.max (depth k) m) 0 ks)
  | _ => 0
  end.

Lemma depth_holds lo (σ : store) t : ∀ h, holds lo σ t h → depth t ≤ S h.
Proof.
  induction t as [s|s|t a ks IH] using node_forall_ind; intros h Hh; cbn [depth]; [lia..|].
  inversion Hh as [| |t' a' ks' hs h' Hlo Hl H2 Hlt]; subst.
  apply le_n_S. clear Hl Hh.
  induction H2 as [|k c ks hs Hkc _ IH2]; cbn [fold_right]; [lia|].
  apply Forall_cons in IH as [Hk IHks]. apply Forall_cons in Hlt as [Hc Hlt].
  specialize (Hk c Hkc). specialize (IH2 IHks Hlt). lia.
Qed.

(** Reading a held tree back gives the tree. *)
Lemma snapshot_holds lo (σ : store) t : ∀ h fuel,
  holds lo σ t h → depth t ≤ fuel → snapshot fuel σ h = t.
Proof.
  induction t as [s|s|t a ks IH] using node_forall_ind; intros h fuel Hh Hf;
    inversion Hh as [? ? Hlo Hl|? ? Hlo Hl|t' a' ks' hs h' Hlo Hl H2 Hlt]; subst.
  - destruct fuel; cbn [snapshot]; unfold shallow; by rewrite Hl.
  - destruct fuel; cbn [snapshot]; unfold shallow; by rewrite Hl.
  - cbn [depth] in Hf. destruct fuel as [|fuel]; [lia|].
    cbn [snapshot]. rewrite Hl. f_equal.
    apply le_S_n in Hf. clear Hl Hh Hlt.
    induction H2 as [|k c ks hs Hkc _ IH2]; [done|].
    apply Forall_cons in IH as [Hk IHks]. cbn [fold_right] in Hf.
    cbn [map]. f_equal; [apply Hk; [done|lia]|apply IH2; [done|lia]].
Qed.

Lemma shallow_holds lo (σ : store) t h s :
  holds lo σ t h → matches s (shallow σ h) = matches s t.
Proof.
  intros Hh. inversion Hh; subst; unfold shallow;
    match goal with Hl : σ !! h = Some _ |- _ => rewrite Hl end; try done.
  apply matches_kids.
Qed.

(** Where the selector matches nothing in the trees, it matches nothing
    among their handles. *)
Lemma descendants_nomatch lo (σ : store) s t : ∀ h,
  holds lo σ t h → select s t = [] →
  matches s (shallow σ h) = false ∧
  ∀ fuel, List.filter (fun x => matches s (shallow σ x)) (descendants fuel σ h) = [].
Proof.
  induction t as [x|x|t a ks IH] using node_forall_ind; intros h Hh Hsel.
  - split; [rewrite (shallow_holds _ _ _ _ _ Hh); apply matches_Text|].
    inversion Hh; subst. intros [|fuel]; [done|]. cbn [descendants].
    unfold children. by match goal with Hl : σ !! h = Some _ |- _ => rewrite Hl end.
  - split; [rewrite (shallow_holds _ _ _ _ _ Hh); apply matches_Comment|].
    inversion Hh; subst. intros [|fuel]; [done|]. cbn [descendants].
    unfold children. by match goal with Hl : σ !! h = Some _ |- _ => rewrite Hl end.
  - cbn [select] in Hsel. apply app_eq_nil in Hsel as [Hm Hks].
    split.
    { rewrite (shallow_holds _ _ _ _ _ Hh). by destruct (matches s (Elem t a ks)). }
    inversion Hh as [| |t' a' ks' hs h' Hlo Hl H2 Hlt]; subst.
    intros [|fuel]; [done|]. cbn [descendants]. unfold children. rewrite Hl.
    cbn [children_of]. clear Hl Hh Hlt Hm.
    induction H2 as [|k c ks hs Hkc _ IH2]; [done|].
    apply Forall_cons in IH as [Hk IHks].
    cbn [flat_map] in Hks. apply app_eq_nil in Hks as [H1 H2'].
    destruct (Hk c Hkc H1) as [Hc Hd].
    cbn [flat_map app]. cbn [List.filter]. rewrite Hc, List.filter_app, Hd.
    cbn [app]. by apply IH2.
Qed.

Lemma handles_nomatch lo (σ : store) s ks hs fuel :
  Forall2 (holds lo σ) ks hs → select_all s ks = [] →
  List.filter (fun x => matches s (shallow σ x))
              (flat_map (fun c => c :: descendants fuel σ c) hs) = [].
Proof.
  induction 1 as [|k c ks hs Hkc _ IH]; intros Hsel; [done|].
  cbn [select_all flat_map] in Hsel. apply app_eq_nil in Hsel as [H1 H2].
  destruct (descendants_nomatch _ _ s _ _ Hkc H1) as [Hc Hd].
  cbn [flat_map app]. cbn [List.filter]. rewrite Hc, List.filter_app, Hd.
  cbn [app]. by apply IH.
Qed.

(** Merging text nodes brings no element in. *)
Lemma select_text_cons s n acc :
  select_all s (text_cons n acc) = select s n ++ select_all s acc.
Proof.
  destruct n as [x|x|t a ks]; try done.
  destruct x as [|c x]; [done|]. destruct acc as [|[y|y|t a ks] rest]; done.
Qed.

Lemma select_reparse_nil s n : select s n = [] → select s (reparse_node n) = [].
Proof.
  induction n as [x|x|t a ks IH] using node_forall_ind; try done.
  cbn [select reparse_node].
  rewrite (matches_kids s t a ks
             (fold_right (fun k acc => text_cons (reparse_node k) acc) [] ks)).
  intros [Hm Hks]%app_eq_nil.
  destruct (matches s (Elem t a ks)); [done|]. cbn [app]. clear Hm.
  induction IH as [|k ks Hk _ IHks]; [done|].
  cbn [flat_map] in Hks. apply app_eq_nil in Hks as [H1 H2].
  cbn [fold_right].
  change (flat_map (select s) (text_cons (reparse_node k) ?acc))
    with (select_all s (text_cons (reparse_node k) acc)).
  rewrite select_text_cons, (Hk H1). cbn [app]. by apply IHks.
Qed.

Lemma select_all_reparse_nil s f : select_all s f = [] → select_all s (reparse f) = [].
Proof.
  induction f as [|n f IH]; [done|].
  cbn [select_all flat_map]. intros [H1 H2]%app_eq_nil.
  unfold reparse. cbn [fold_right]. rewrite select_text_cons.
  rewrite (select_reparse_nil _ _ H1). cbn [app]. by apply IH.
Qed.

(** A rule whose selector matches nothing in the loaded document does
    nothing. *)
Lemma rule_skips html s (f : nat → M unit) :
  select_all s html = [] →
  (els <- select_ s ;; each els f) (load html) = Ok tt (load html).
Proof.
  intros Hsel. apply select_all_reparse_nil in Hsel.
  destruct (load_holds html) as (hs & Hch & Hlen & H2).
  unfold bind, select_, gets.
  destruct (length (load html)) as [|fuel] eqn:E; [lia|].
  cbn [descendants]. rewrite Hch.
  by rewrite (handles_nomatch _ _ s _ _ fuel H2 Hsel).
Qed.

Lemma html_doc_load html : html_doc (load html) = Ok (reparse html) (load html).
Proof.
  destruct (load_holds html) as (hs & Hch & Hlen & H2).
  unfold html_doc, gets, inner. rewrite Hch. f_equal. clear Hch.
  induction H2 as [|k c ks hs' Hkc _ IH]; [done|].
  cbn [map]. f_equal; [|exact IH].
  eapply snapshot_holds; [exact Hkc|].
  pose proof (depth_holds _ _ _ _ Hkc). apply holds_lt in Hkc. lia.
Qed.

(** X11.  On a loaded document that holds none of the elements the rules
    look for (no literal-layout block, no program listing or screen, no
    example, no footnote link, no footnote) no rule of [processHTML] touches
    the store and nothing throws: the pass returns [$.html()] of the
    document as it was loaded, which is the serializer's text for that
    document (entities for the characters outside ASCII, bare names for
    empty attributes, raw text inside [noscript] and the like), not
    necessarily the text that was given. *)
Theorem plain_document_passes_unchanged (html : list node) :
  select_all (SelClass "literallayout") html = [] →
  select_all (SelOr (SelTagClass "pre" "programlisting") (SelTagClass "pre" "screen"))
             html = [] →
  select_all (SelTagClass "div" "example") html = [] →
  select_all (SelOr (SelTagClass "a" "footnote") (SelTagClass "a" "footnoteref"))
             html = [] →
  select_all (SelTagClass "div" "footnote") html = [] →
  processHTML html = Ok (reparse html) (load html) ∧
  returned (processHTML html) = Some (outerHTML (reparse html)).
Proof.
  intros H1 H2 H3 H4 H5.
  assert (E : processHTML html = Ok (reparse html) (load html)).
  { unfold processHTML.
    unfold literallayout_rule, programlisting_rule, example_rule,
      footnote_ref_rule, footnote_rule.
    unfold bind at 1. rewrite (rule_skips html _ _ H1).
    unfold bind at 1. rewrite (rule_skips html _ _ H2).
    unfold bind at 1. rewrite (rule_skips html _ _ H3).
    unfold bind at 1. rewrite (rule_skips html _ _ H4).
    unfold bind at 1. rewrite (rule_skips html _ _ H5).
    apply html_doc_load. }
  split; [exact E|]. by rewrite E.
Qed.

(** [<h1 id="t">Title</h1><p class="note">a <b>b</b> c</p><!-- end -->]. *)
Definition plain_page : list node :=
  [Elem "h1" [("id", "t")] [Text "Title"];
   Elem "p" [("class", "note")] [Text "a "; Elem "b" [] [Text "b"]; Text " c"];
   Comment " end "].

Lemma plain_document_passes_unchanged_witness :
  returned (processHTML plain_page)
    = Some (html_text "<h1 id='t'>Title</h1><p class='note'>a <b>b</b> c</p><!-- end -->").
Proof.
  exact (proj2 (plain_document_passes_unchanged plain_page
                  eq_refl eq_refl eq_refl eq_refl eq_refl)).
Defined.

(** *** The footnote rule *)

(** A footnote as the DocBook stylesheet writes it:
    [<div id=ID class="footnote"><p><a href=HREF class="para"><sup
    class="para">LABEL</sup></a>TEXT</p></div>]. *)
Definition footnote (id href label text : string) : list node :=
  [Elem "div" [("id", id); ("class", "footnote")]
     [Elem "p" []
        [Elem "a" [("href", href); ("class", "para")]
           [Elem "sup" [("class", "para")] [Text label]];
         Text text]]].

(** X12.  The footnote rule (xml.js 306-328) on a footnote of the usual
    form: the container loses its id, which goes to the marker; the marker
    becomes the only child of the paragraph and holds the label, the text
    of the note and, last, the back link, whose content is the upward
    arrow. *)
Theorem footnote_moves_note_into_marker :
  ∀ id href label text,
    label ≠ "" → text ≠ "" →
    ∃ σ, processHTML (footnote id href label text) =
         Ok [Elem "div" [("class", "footnote")]
               [Elem "p" []
                  [Elem "sup" [("class", "para"); ("id", id)]
                     [Text (label +:+ text);
                      Elem "a" [("href", href); ("class", "para")]
                        [Text upwards_arrow]]]]] σ.
Proof.
  intros id href label text Hl Ht.
  destruct label as [|c label]; [done|]. destruct text as [|d text]; [done|].
  eexists. vm_compute. reflexivity.
Qed.

Lemma footnote_moves_note_into_marker_witness :
  ∃ σ, processHTML (footnote "ftn.1" "#n1" "[1] " "See the manual.") =
       Ok [Elem "div" [("class", "footnote")]
             [Elem "p" []
                [Elem "sup" [("class", "para"); ("id", "ftn.1")]
                   [Text "[1] See the manual.";
                    Elem "a" [("href", "#n1"); ("class", "para")]
                      [Text upwards_arrow]]]]] σ.
Proof.
  refine (footnote_moves_note_into_marker "ftn.1" "#n1" "[1] " "See the manual." _ _);
    discriminate.
Defined.

(** X13.  The footnote rule does not throw where a sub-element is missing,
    and what it does then is this: in a footnote with a marker and no
    paragraph, the marker's content gets the text [null] appended (the
    [null] of [$p.html()] joined to a string); in a footnote with a
    paragraph and no marker, the paragraph is emptied, its text dropped. *)
Theorem footnote_with_missing_part :
  (∀ id label, label ≠ "" →
     ∃ σ, processHTML [Elem "div" [("id", id); ("class", "footnote")]
                         [Elem "sup" [] [Text label]]] =
          Ok [Elem "div" [("class", "footnote")]
                [Elem "sup" [("id", id)] [Text (label +:+ "null")]]] σ) ∧
  (∀ id text, text ≠ "" →
     ∃ σ, processHTML [Elem "div" [("id", id); ("class", "footnote")]
                         [Elem "p" [] [Text text]]] =
          Ok [Elem "div" [("class", "footnote")] [Elem "p" [] []]] σ).
Proof.
  split.
  - intros id label Hl. destruct label as [|c label]; [done|].
    eexists. vm_compute. reflexivity.
  - intros id text Ht. destruct text as [|c text]; [done|].
    eexists. vm_compute. reflexivity.
Qed.

Lemma footnote_with_missing_part_witness :
  returned (processHTML [Elem "div" [("id", "f1"); ("class", "footnote")]
                           [Elem "sup" [] [Text "1"]]])
    = Some (html_text "<div class='footnote'><sup id='f1'>1null</sup></div>") ∧
  returned (processHTML [Elem "div" [("id", "f2"); ("class", "footnote")]
                           [Elem "p" [] [Text "A note."]]])
    = Some (html_text "<div class='footnote'><p></p></div>").
Proof.
  destruct (proj1 footnote_with_missing_part "f1" "1") as [σ1 E1]; [discriminate|].
  destruct (proj2 footnote_with_missing_part "f2" "A note.") as [σ2 E2]; [discriminate|].
  rewrite E1, E2. split; reflexivity.
Defined.

(** *** The example rule without an id *)

(** X14.  An example container that has no id gives a heading without an
    id attribute: [$h6.attr('id', undefined)] reads, it sets nothing. *)
Theorem example_without_id_heading_without_id :
  ∀ caption body,
    caption ≠ "" → body ≠ "" →
    ∃ σ, processHTML [Elem "div" [("class", "example")]
                        [Elem "div" [("class", "example-title")] [Text caption];
                         Text body]] =
         Ok [Elem "div" [("class", "example")]
               [Elem "h6" [] [Text caption]; Text body]] σ.
Proof.
  intros caption body Hc Hb.
  destruct caption as [|c caption]; [done|]. destruct body as [|b body]; [done|].
  eexists. vm_compute. reflexivity.
Qed.

Lemma example_without_id_heading_without_id_witness :
  ∃ σ, processHTML [Elem "div" [("class", "example")]
                      [Elem "div" [("class", "example-title")] [Text "Listing"];
                       Text "code"]] =
       Ok [Elem "div" [("class", "example")]
             [Elem "h6" [] [Text "Listing"]; Text "code"]] σ.
Proof.
  refine (example_without_id_heading_without_id "Listing" "code" _ _); discriminate.
Defined.

(** *** The literal-layout rule *)

(** [<div id=ID class="literallayout"><p>TEXT</p></div>]. *)
Definition literal_block (id text : string) : list node :=
  [Elem "div" [("id", id); ("class", "literallayout")] [Elem "p" [] [Text text]]].

(** [processHTML] with the result of [.html().trim()] of the literal-layout
    callback given. *)
Definition pass_with_trimmed (t : list node) (html : list node) : res (list node) :=
  ((els <- select_ (SelClass "literallayout") ;;
    each els (fun el =>
      code <- create "code" ;;
      html_set code (Some t) ;;;
      pre <- create "pre" ;;
      wrap_ code pre ;;;
      replaceWith_ [el] pre)) ;;;
   programlisting_rule ;;;
   example_rule ;;;
   footnote_ref_rule ;;;
   footnote_rule ;;;
   html_doc) (load html).

Lemma trimmed_text s :
  trim_last (trim_first (reparse [Text s])) = text_or_nothing (trim_right (trim_left s)) [].
Proof.
  destruct s as [|c r]; [reflexivity|].
  change (reparse [Text (String c r)]) with [Text (String c r)].
  cbn [trim_first]. destruct (trim_left (String c r)) as [|c' r']; [reflexivity|].
  cbn [text_or_nothing]. unfold trim_last. cbn [rev app].
  by destruct (trim_right (String c' r')).
Qed.

Lemma literal_block_trim id c r :
  processHTML (literal_block id (String c r)) =
  pass_with_trimmed (trim_last (trim_first (reparse [Text (String c r)])))
                    (literal_block id (String c r)).
Proof. vm_compute. reflexivity. Qed.

(** X15.  The literal-layout rule (xml.js 246-253) on a block whose
    paragraph holds text only: the block, its attributes included, gives
    way to [<pre><code>...</code></pre>], the code element holding the
    paragraph's text without the white space at its ends, and nothing
    when the text is white space only. *)
Theorem literal_block_becomes_pre_code :
  ∀ id text,
    ∃ σ, processHTML (literal_block id text) =
         Ok [Elem "pre" []
               [Elem "code" [] (text_or_nothing (trim_right (trim_left text)) [])]] σ.
Proof.
  intros id text. destruct text as [|c r].
  { eexists. vm_compute. reflexivity. }
  rewrite literal_block_trim, trimmed_text.
  destruct (trim_right (trim_left (String c r))) as [|c' r'].
  - eexists. vm_compute. reflexivity.
  - eexists. vm_compute. reflexivity.
Qed.

End Passes.


(** ** More about [extractHTML] *)

Module Extracted.
Import Dom DomFacts ReparseFacts ReadBack Sample Converter.

(** X1.  What [extractHTML] returned is gone from [this._html].  When the
    selector text is a selector and the document the first call wrote is
    read back as it was written, that document holds no match of the
    selector; a second call with the same text returns the empty text and
    writes the document back as it loaded it. *)
Theorem second_extraction_finds_nothing
    (load : string → list node) (css : string → option selector)
    (selector : string) (s : Dom.selector) (st : state) :
  css selector = Some s →
  load (outerHTML (detach_all s (load (_html st))))
    = reparse (detach_all s (load (_html st))) →
  ∃ st1,
    extractHTML load css selector st
      = Ok (outerHTML (select_all s (load (_html st)))) st1 ∧
    select_all s (load (_html st1)) = [] ∧
    extractHTML load css selector st1
      = Ok "" (mkState (outerHTML (load (_html st1))) (heap st1)).
Proof.
  intros Hcss Hload.
  exists (mkState (outerHTML (detach_all s (load (_html st)))) (heap st)).
  assert (Hnone : select_all s (load (outerHTML (detach_all s (load (_html st))))) = []).
  { by rewrite Hload, select_all_reparse, ExtractFacts.select_detach_all. }
  split; [|split].
  - unfold extractHTML. by rewrite Hcss.
  - exact Hnone.
  - unfold extractHTML. rewrite Hcss. cbn [_html heap].
    by rewrite Hnone, (ExtractFacts.detach_all_nomatch _ _ Hnone).
Qed.

Lemma second_extraction_finds_nothing_witness :
  ∃ st1,
    extractHTML read id_css (html_text "*[id='c1']")
      (mkState (html_text "<div id='c1'>A</div><p>x</p>") [])
      = Ok (html_text "<div id='c1'>A</div>") st1 ∧
    _html st1 = "<p>x</p>" ∧
    extractHTML read id_css (html_text "*[id='c1']") st1 = Ok "" st1.
Proof.
  destruct (second_extraction_finds_nothing read id_css (html_text "*[id='c1']")
              (SelIdEq "c1") (mkState (html_text "<div id='c1'>A</div><p>x</p>") []))
    as (st1 & H1 & _ & H2).
  - reflexivity.
  - vm_compute. reflexivity.
  - exists st1.
    assert (E : extractHTML read id_css (html_text "*[id='c1']")
                  (mkState (html_text "<div id='c1'>A</div><p>x</p>") [])
                = Ok (html_text "<div id='c1'>A</div>") (mkState "<p>x</p>" []))
      by (vm_compute; reflexivity).
    rewrite E in H1.
    apply (f_equal (fun r => match r with Ok _ s => s | Throw _ s => s end)) in H1.
    subst st1.
    split; [exact E|]. split; [reflexivity|]. rewrite H2. vm_compute. reflexivity.
Defined.

(** X2.  Extraction by a chapter's selector text, read as the id test it was
    written for, returns the serialization of elements that all carry the
    chapter's anchor id: of one element at most when the ids of the
    document, as loaded, are pairwise distinct. *)
Theorem extraction_by_anchor_single_element
    (load : string → list node) (css : string → option selector)
    (info : titleInfo) (st : state) :
  css (getChapterSelector info) = Some (SelIdEq (info_titleId info)) →
  NoDup (ids_all (load (_html st))) →
  ∃ els st',
    extractHTML load css (getChapterSelector info) st = Ok (outerHTML els) st' ∧
    els = select_all (SelIdEq (info_titleId info)) (load (_html st)) ∧
    Forall (fun m => attr "id" m = Some (info_titleId info)) els ∧
    length els ≤ 1.
Proof.
  intros Hcss Hnd. eexists _, _. split; [|split; [reflexivity|]].
  - unfold extractHTML. rewrite Hcss. reflexivity.
  - split.
    + induction (load (_html st)) as [|n doc IH]; [constructor|].
      cbn [select_all flat_map]. apply Forall_app.
      split; [apply ExtractFacts.select_id_attr|].
      apply IH. rewrite ids_all_cons in Hnd. by apply NoDup_app in Hnd as (_ & _ & ?).
    + etrans; [apply ExtractFacts.select_all_id_count|]. by apply ExtractFacts.NoDup_occ.
Qed.

Lemma extraction_by_anchor_single_element_witness :
  ∃ els st',
    extractHTML read id_css (getChapterSelector (mkInfo (Some "chapter") "a" "A"))
      (mkState (html_text "<div id='a'>x</div><div id='b'>y</div>") [])
      = Ok (outerHTML els) st' ∧
    els = [Elem "div" [("id", "a")] [Text "x"]] ∧
    length els ≤ 1.
Proof.
  destruct (extraction_by_anchor_single_element read id_css
              (mkInfo (Some "chapter") "a" "A")
              (mkState (html_text "<div id='a'>x</div><div id='b'>y</div>") []))
    as (els & st' & Hrun & Hels & _ & Hlen).
  - reflexivity.
  - apply (bool_decide_unpack _). vm_compute. exact I.
  - exists els, st'. split; [exact Hrun|]. split; [|exact Hlen].
    rewrite Hels. vm_compute. reflexivity.
Defined.

End Extracted.

(** ** More about [setTitlesId] *)

Module Titles.
Import Dom DomFacts HandleFacts ReadBack Sample Converter.

(** X3.  [setTitlesId] rewrites id attributes and nothing else.  The list of
    chapters, the readme's title, [this._html] and every field of a chapter
    object but its content are as before.  The content of a listed chapter
    (and the readme's) becomes the serialization of a document that differs
    from the one loaded from the old content in id attributes only: tags,
    other attributes, text, comments and nesting are the same.  A chapter
    object that is not listed is left alone. *)
Theorem setTitlesId_rewrites_ids_only
    (load : string → list node) (b : book) (st : state) :
  NoDup (book_chapters b) →
  ∃ b' st' readme',
    setTitlesId load b st = Ok b' st' ∧
    book_chapters b' = book_chapters b ∧
    readme_title (book_readme b') = readme_title (book_readme b) ∧
    readme_content (book_readme b') = outerHTML readme' ∧
    map TitleIds.strip_ids readme'
      = map TitleIds.strip_ids (load (readme_content (book_readme b))) ∧
    _html st' = _html st ∧
    length (heap st') = length (heap st) ∧
    ∀ a c, heap st !! a = Some c →
      if decide (a ∈ book_chapters b)
      then ∃ doc', heap st' !! a = Some (set_content (outerHTML doc') c) ∧
                   map TitleIds.strip_ids doc'
                     = map TitleIds.strip_ids (load (content c))
      else heap st' !! a = Some c.
Proof.
  intros Hnd. rewrite Carried.setTitlesId_run. eexists _, _, _.
  split; [reflexivity|]. cbn [book_chapters book_readme readme_title readme_content _html heap].
  split; [done|]. split; [done|]. split; [reflexivity|].
  split; [apply TitleIds.strip_setIds|]. split; [done|].
  split; [apply Carried.retitled_length|].
  intros a c Hc. destruct (decide (a ∈ book_chapters b)) as [Ha|Ha].
  - exists (setIds (load (content c))). split; [|apply TitleIds.strip_setIds].
    rewrite Carried.retitled_lookup by done. by rewrite Hc.
  - by rewrite Carried.retitled_other.
Qed.

Lemma setTitlesId_rewrites_ids_only_witness :
  let c := mkChapter 0 None None "a" "A" 1 [] Reconciler.nested_sections None None in
  ∃ b' st',
    setTitlesId read (mkBook (mkReadme "Doc" "") [0]) (mkState "" [c]) = Ok b' st' ∧
    heap st' !! 0
    = Some (set_content
              (html_text "<section><section id='b'><h1 id='a'>x</h1></section></section>")
              c).
Proof.
  intros c.
  destruct (setTitlesId_rewrites_ids_only read (mkBook (mkReadme "Doc" "") [0])
              (mkState "" [c])) as (b' & st' & r' & Hrun & _ & _ & _ & _ & _ & _ & Hh).
  - apply NoDup_singleton.
  - exists b', st'. split; [exact Hrun|].
    rewrite Carried.setTitlesId_run in Hrun.
    apply (f_equal (fun r => match r with Ok _ s => s | Throw _ s => s end)) in Hrun.
    subst st'. vm_compute. reflexivity.
Defined.

(** X4.  [setTitlesId] gives no id a further occurrence: the document it
    serializes for a chapter holds every id at most as often as the document
    it loaded from the chapter's content did, so ids that were pairwise
    distinct stay so; and so in the stored content, read back as it was
    written. *)
Theorem setTitlesId_keeps_ids_distinct
    (load : string → list node) (b : book) (st : state) (a : addr) (c : Chapter) :
  NoDup (book_chapters b) → a ∈ book_chapters b → heap st !! a = Some c →
  NoDup (ids_all (load (content c))) →
  ∃ b' st' doc',
    setTitlesId load b st = Ok b' st' ∧
    heap st' !! a = Some (set_content (outerHTML doc') c) ∧
    NoDup (ids_all doc') ∧
    (∀ x, occ x (ids_all doc') ≤ occ x (ids_all (load (content c)))) ∧
    (load (outerHTML doc') = reparse doc' → NoDup (ids_all (load (outerHTML doc')))).
Proof.
  intros Hnd Ha Hc Hids.
  destruct (Reconciler.setTitlesId_chapter load b st a c Hnd Ha Hc) as (st' & Hrun & Hlook).
  destruct (TitleIds.setIds_keeps_ids_distinct _ Hids) as [H1 H2].
  eexists _, st', _. split; [exact Hrun|]. split; [exact Hlook|].
  split; [exact H1|]. split; [exact H2|].
  intros ->. by rewrite ids_all_reparse.
Qed.

Lemma setTitlesId_keeps_ids_distinct_witness :
  let c := mkChapter 0 None None "a" "A" 1 [] Reconciler.nested_sections None None in
  ∃ b' st' doc',
    setTitlesId read (mkBook (mkReadme "Doc" "") [0]) (mkState "" [c]) = Ok b' st' ∧
    heap st' !! 0 = Some (set_content (outerHTML doc') c) ∧
    NoDup (ids_all doc').
Proof.
  intros c.
  destruct (setTitlesId_keeps_ids_distinct read (mkBook (mkReadme "Doc" "") [0])
              (mkState "" [c]) 0 c) as (b' & st' & doc' & Hrun & Hlook & Hnd & _).
  - apply NoDup_singleton.
  - by left.
  - reflexivity.
  - apply (bool_decide_unpack _). vm_compute. exact I.
  - by exists b', st', doc'.
Defined.

(** X5.  [setTitlesId] run again changes nothing, when what it wrote is read
    back as the document it was written from: a second run gives every
    listed chapter and the readme the content the first run gave them.  (An
    id moved to a heading stays there; a section that was left alone has no
    id or a first heading with an id, and still has.) *)
Theorem setTitlesId_idempotent
    (load : string → list node) (b : book) (st : state) :
  NoDup (book_chapters b) →
  (∀ a c, a ∈ book_chapters b → heap st !! a = Some c →
     load (outerHTML (setIds (load (content c)))) = setIds (load (content c))) →
  load (outerHTML (setIds (load (readme_content (book_readme b)))))
    = setIds (load (readme_content (book_readme b))) →
  ∃ b1 st1,
    setTitlesId load b st = Ok b1 st1 ∧
    setTitlesId load b1 st1 = Ok b1 st1.
Proof.
  intros Hnd Hch Hre. rewrite Carried.setTitlesId_run. eexists _, _.
  split; [reflexivity|]. rewrite Carried.setTitlesId_run.
  cbn [book_chapters book_readme readme_title readme_content _html heap].
  rewrite Hre, TitleIds.setIds_again. do 2 f_equal.
  apply list_eq. intros a.
  destruct (decide (a ∈ book_chapters b)) as [Ha|Ha].
  - rewrite !Carried.retitled_lookup by done.
    destruct (heap st !! a) as [c|] eqn:Hc; [|done]. cbn. f_equal.
    unfold Carried.retitle. cbn [content set_content].
    rewrite (Hch a c Ha Hc), TitleIds.setIds_again. done.
  - by rewrite !Carried.retitled_other.
Qed.

Lemma setTitlesId_idempotent_witness :
  let c := mkChapter 0 None None "a" "A" 1 [] Reconciler.nested_sections None None in
  ∃ b1 st1,
    setTitlesId read (mkBook (mkReadme "Doc" "") [0]) (mkState "" [c]) = Ok b1 st1 ∧
    setTitlesId read b1 st1 = Ok b1 st1.
Proof.
  intros c.
  apply (setTitlesId_idempotent read (mkBook (mkReadme "Doc" "") [0]) (mkState "" [c])).
  - apply NoDup_singleton.
  - intros a c' Ha Hc'. apply list_elem_of_singleton in Ha. subst a.
    injection Hc' as <-. vm_compute. reflexivity.
  - vm_compute. reflexivity.
Defined.

End Titles.

(** ** More about the outline ([parseList], [parseChapters]) *)

Module Shape.
Import Dom DomFacts ReadBack Sample Converter.

Lemma same_shape_lookup_r h ah a ac :
  Carried.same_shape h ah → ah !! a = Some ac →
  ∃ c f, h !! a = Some c ∧ ac = Refinement.forget c f.
Proof.
  intros Hs Ha. destruct (Forall2_lookup_r _ _ _ _ _ Hs Ha) as (c & Hc & f & -> & _).
  by exists c, f.
Qed.

(** [parseChapters] returns when [parseList] does. *)
Lemma parseChapters_returns load css idFromRef addTitleToContent html documentTitle :
  selectors_read css idFromRef (tocList (load html)) →
  ∃ b st,
    parseChapters load css idFromRef addTitleToContent documentTitle (mkState html [])
    = Ok b st.
Proof.
  intros Hread.
  destruct (Carried.parseList_returns load css idFromRef (tocList (load html)) 0 None
              (mkState (outerHTML (body (load html))) []) Hread) as (g & st & Hrun).
  unfold parseChapters.
  rewrite (Refinement.bind_Ok _ _ _ _ _
             (Carried.collectChapters_run load css idFromRef addTitleToContent html
                documentTitle g st Hrun)).
  rewrite Carried.setTitlesId_run. by eexists _, _.
Qed.

(** X6.  The outline [parseList] builds.  [parseList] returns when the selector
    text of every item is a selector; when it returns, the chapters it
    returns have the level it was called with, no parent, and are numbered
    1, 2, 3, ... in the order of the list; the children of every chapter it
    created are one level below the chapter, have it as their parent, and
    are numbered 1, 2, 3, ... in the order of [children]. *)
Theorem parseList_levels_parents_numbers
    (load : string → list node) (css : string → option selector)
    (idFromRef : option string → string) (ul : list node) (lvl : nat) (st : state) :
  (selectors_read css idFromRef ul →
   ∃ g st', parseList load css idFromRef ul lvl None st = Ok g st') ∧
  ∀ g st',
    parseList load css idFromRef ul lvl None st = Ok g st' →
    (∀ i k, g !! i = Some k →
       ∃ ck, heap st' !! k = Some ck ∧
             level ck = lvl ∧ parent ck = None ∧ num ck = i + 1) ∧
    (∀ a c i k,
       length (heap st) ≤ a → heap st' !! a = Some c → children c !! i = Some k →
       ∃ ck, heap st' !! k = Some ck ∧
             level ck = level c + 1 ∧ parent ck = Some a ∧ num ck = i + 1).
Proof.
  split; [apply Carried.parseList_returns|].
  intros g st' Hrun.
  set (ast := InMemory.mkState [] (map (fun c => Refinement.forget c []) (heap st))).
  pose proof (Carried.parseList_shape load css idFromRef ul lvl None st ast
                (Carried.same_shape_start _)) as Hs.
  rewrite Hrun in Hs. destruct Hs as [-> Hs].
  destruct (OutlineShape.levels_loaded idFromRef ul lvl ast) as [Htop Hsub].
  split.
  - intros i k Hk. destruct (Htop i k Hk) as (ack & Hack & Hl & Hp & Hn).
    destruct (same_shape_lookup_r _ _ _ _ Hs Hack) as (ck & f & Hck & ->).
    by exists ck.
  - intros a c i k Ha Hc Hk.
    destruct (Carried.same_shape_lookup _ _ _ _ Hs Hc) as (f & Hac).
    destruct (Hsub a _ i k ltac:(unfold ast; cbn [InMemory.heap]; by rewrite length_map)
                Hac Hk) as (ack & Hack & Hl & Hp & Hn).
    destruct (same_shape_lookup_r _ _ _ _ Hs Hack) as (ck & f' & Hck & ->).
    by exists ck.
Qed.

Lemma parseList_levels_parents_numbers_witness :
  ∃ st' c0 c1 c2,
    parseList read id_css idAfterHash (tocList (read Outline.nested_page)) 0 None
      (mkState (outerHTML (body (read Outline.nested_page))) []) = Ok [0; 2] st' ∧
    heap st' !! 0 = Some c0 ∧ heap st' !! 1 = Some c1 ∧ heap st' !! 2 = Some c2 ∧
    (level c0, parent c0, num c0) = (0, None, 1) ∧
    (level c2, parent c2, num c2) = (0, None, 2) ∧
    children c0 = [1] ∧
    (level c1, parent c1, num c1) = (1, Some 0, 1).
Proof.
  assert (E : ∃ st', parseList read id_css idAfterHash
                       (tocList (read Outline.nested_page)) 0 None
                       (mkState (outerHTML (body (read Outline.nested_page))) [])
                     = Ok [0; 2] st') by (eexists; vm_compute; reflexivity).
  destruct E as (st' & E).
  destruct (proj2 (parseList_levels_parents_numbers read id_css idAfterHash
                     (tocList (read Outline.nested_page)) 0
                     (mkState (outerHTML (body (read Outline.nested_page))) []))
                  [0; 2] st' E) as [Htop Hsub].
  destruct (Htop 0 0 eq_refl) as (c0 & H0 & L0 & P0 & N0).
  destruct (Htop 1 2 eq_refl) as (c2 & H2 & L2 & P2 & N2).
  assert (Hch : children c0 = [1]).
  { vm_compute in E.
    apply (f_equal (fun r => match r with Ok _ s => s | Throw _ s => s end)) in E.
    subst st'. cbn in H0. by injection H0 as <-. }
  destruct (Hsub 0 c0 0 1 (Nat.le_0_l _) H0 ltac:(by rewrite Hch))
    as (c1 & H1 & L1 & P1 & N1).
  exists st', c0, c1, c2. split; [exact E|]. repeat (split; [done|]).
  split; [by rewrite L0, P0, N0|]. split; [by rewrite L2, P2, N2|].
  split; [done|]. rewrite L1, P1, N1, L0. done.
Defined.

(** X9.  A document whose TOC has no item (no TOC container, no list in it, or
    an empty list) gives no chapter: [parseChapters] creates no chapter
    object, extracts nothing, and makes the readme from the whole document
    body, which is the document itself when it has no TOC container. *)
Theorem no_toc_item_readme_only
    (load : string → list node) (css : string → option selector)
    (idFromRef : option string → string)
    (addTitleToContent : string → string → string)
    (html : string) (documentTitle : string) :
  children_sel (SelTag "li") (tocList (load html)) = [] →
  parseChapters load css idFromRef addTitleToContent documentTitle (mkState html [])
  = Ok (mkBook (mkReadme documentTitle
                  (outerHTML
                     (setIds (load (addTitleToContent documentTitle
                                      (outerHTML (body (load html))))))))
               [])
       (mkState (outerHTML (body (load html))) []) ∧
  (select_all (SelTagClass "div" "toc") (load html) = [] → body (load html) = load html).
Proof.
  intros Hli. split; [|apply ExtractFacts.detach_all_nomatch].
  assert (E : parseList load css idFromRef (tocList (load html)) 0 None
                (mkState (outerHTML (body (load html))) [])
              = Ok [] (mkState (outerHTML (body (load html))) [])).
  { unfold parseList. destruct (height_all (tocList (load html))); [done|].
    cbn [parseList_fuel]. by rewrite Hli. }
  unfold parseChapters.
  rewrite (Refinement.bind_Ok _ _ _ _ _
             (Carried.collectChapters_run load css idFromRef addTitleToContent html
                documentTitle [] _ E)).
  by rewrite Carried.setTitlesId_run.
Qed.

Lemma no_toc_item_readme_only_witness :
  parseChapters read id_css idAfterHash keepContent "Doc"
    (mkState "<p>Only <b>text</b> here</p>" [])
  = Ok (mkBook (mkReadme "Doc" "<p>Only <b>text</b> here</p>") [])
       (mkState "<p>Only <b>text</b> here</p>" []).
Proof.
  rewrite (proj1 (no_toc_item_readme_only read id_css idAfterHash keepContent
                    "<p>Only <b>text</b> here</p>" "Doc" eq_refl)).
  vm_compute. reflexivity.
Defined.

(** X10.  The flattening of [parseChapters].  [parseChapters] returns when the
    selector text of every TOC item is a selector; when it returns, every
    chapter object is in [this.chapters] exactly once, and a chapter comes
    before its children. *)
Theorem flattening_lists_each_chapter_once
    (load : string → list node) (css : string → option selector)
    (idFromRef : option string → string)
    (addTitleToContent : string → string → string)
    (html : string) (documentTitle : string) :
  (selectors_read css idFromRef (tocList (load html)) →
   ∃ b st,
     parseChapters load css idFromRef addTitleToContent documentTitle (mkState html [])
     = Ok b st) ∧
  ∀ b st,
    parseChapters load css idFromRef addTitleToContent documentTitle (mkState html [])
    = Ok b st →
    NoDup (book_chapters b) ∧
    (∀ a, a ∈ book_chapters b ↔ is_Some (heap st !! a)) ∧
    (∀ i j p k cp,
       book_chapters b !! i = Some p → book_chapters b !! j = Some k →
       heap st !! p = Some cp → k ∈ children cp → i < j).
Proof.
  split; [apply parseChapters_returns|].
  intros b st Hrun.
  apply Carried.parseChapters_run in Hrun as (b0 & st0 & Hcol & Hset).
  destruct (Carried.collectChapters_shape load css idFromRef addTitleToContent html
              documentTitle b0 st0 Hcol) as [Hb Hs].
  pose proof (LoadedOutline.book_chapters_all idFromRef (fun _ f => f) (load html)
                documentTitle) as Hall.
  cbv zeta in Hall. fold (Carried.loaded load idFromRef html documentTitle) in Hall.
  rewrite Hall, <- (Forall2_length _ _ _ Hs) in Hb.
  rewrite Carried.setTitlesId_run in Hset. injection Hset as <- <-.
  cbn [book_chapters heap]. rewrite Hb, Carried.retitled_all.
  split; [apply NoDup_seq|]. split.
  - intros a. rewrite elem_of_seq, lookup_lt_is_Some, length_fmap. lia.
  - intros i j p k cp Hi Hj Hp Hk.
    apply lookup_seq in Hi as [Ei _]. apply lookup_seq in Hj as [Ej _].
    rewrite list_lookup_fmap in Hp.
    destruct (heap st0 !! p) as [cp0|] eqn:Hp0; [|done].
    cbn in Hp. injection Hp as <-.
    destruct (Carried.same_shape_lookup _ _ _ _ Hs Hp0) as (f & Hap).
    pose proof (LoadedOutline.collectChapters_post idFromRef (fun _ f => f) (load html)
                  documentTitle) as [_ _ Hseg _ _ _ _ _].
    fold (Carried.loaded load idFromRef html documentTitle) in Hseg.
    destruct (HeapFacts.so_children _ _ _ Hseg p _ k (Nat.le_0_l _) Hap Hk) as [Hlt _].
    cbn in Ei, Ej. lia.
Qed.

Lemma flattening_lists_each_chapter_once_witness :
  ∃ b st,
    parseChapters read id_css idAfterHash keepContent "Doc"
      (mkState Outline.nested_page []) = Ok b st ∧
    book_chapters b = [0; 1; 2] ∧
    NoDup (book_chapters b).
Proof.
  assert (E : ∃ rd st, parseChapters read id_css idAfterHash keepContent "Doc"
                         (mkState Outline.nested_page [])
                       = Ok (mkBook rd [0; 1; 2]) st)
    by (eexists _, _; vm_compute; reflexivity).
  destruct E as (rd & st & E).
  exists (mkBook rd [0; 1; 2]), st. split; [exact E|]. split; [reflexivity|].
  exact (proj1 (proj2 (flattening_lists_each_chapter_once read id_css idAfterHash
                         keepContent Outline.nested_page "Doc") _ _ E)).
Defined.

(** The chapters [g] of heap [h] follow the TOC items [items]: one chapter
    an item, in the order of the items; a chapter has the type, the anchor
    and the title [extractTOCTitleInfo] reads off its item, and its
    children follow the items below its item.  All of them are at the
    addresses [lo] and above. *)
Inductive mirrors (idFromRef : option string → string) (lo : nat) (h : list Chapter)
    : list node → list addr → Prop :=
| mirrors_nil : mirrors idFromRef lo h [] []
| mirrors_cons li items k g ck :
    lo ≤ k → h !! k = Some ck →
    type ck = info_type (extractTOCTitleInfo idFromRef [li]) →
    titleId ck = info_titleId (extractTOCTitleInfo idFromRef [li]) →
    title ck = info_title (extractTOCTitleInfo idFromRef [li]) →
    mirrors idFromRef lo h (TocMirror.subitems li) (children ck) →
    mirrors idFromRef lo h items g →
    mirrors idFromRef lo h (li :: items) (k :: g).

Lemma mirrors_carried idFromRef lo h ah items g :
  Carried.same_shape h ah →
  TocMirror.mirrors idFromRef lo ah items g → mirrors idFromRef lo h items g.
Proof.
  intros Hs. induction 1 as [|li items k g ack Hlo Hk Ht Hi Htl _ IHsub _ IH];
    [constructor|].
  destruct (same_shape_lookup_r _ _ _ _ Hs Hk) as (ck & f & Hck & ->).
  by econstructor.
Qed.

(** X16.  The chapters [parseList] returns follow the items of the list it was
    given.  [parseList] returns when the selector text of every item is a
    selector; when it returns, there is one chapter an item, in the order
    of the items; each chapter has the type (the class of the item's span),
    the anchor ([idFromRef] of the link's reference) and the title (the
    link's text) that [extractTOCTitleInfo] reads off its item, and its
    children follow, in the same way, the items of the lists below its
    item.  All these chapters are new objects. *)
Theorem outline_follows_toc
    (load : string → list node) (css : string → option selector)
    (idFromRef : option string → string) (ul : list node) (lvl : nat) (st : state) :
  (selectors_read css idFromRef ul →
   ∃ g st', parseList load css idFromRef ul lvl None st = Ok g st') ∧
  ∀ g st',
    parseList load css idFromRef ul lvl None st = Ok g st' →
    mirrors idFromRef (length (heap st)) (heap st') (children_sel (SelTag "li") ul) g.
Proof.
  split; [apply Carried.parseList_returns|].
  intros g st' Hrun.
  set (ast := InMemory.mkState [] (map (fun c => Refinement.forget c []) (heap st))).
  pose proof (Carried.parseList_shape load css idFromRef ul lvl None st ast
                (Carried.same_shape_start _)) as Hs.
  rewrite Hrun in Hs. destruct Hs as [-> Hs].
  pose proof (TocMirror.follows_toc_loaded idFromRef ul lvl ast) as Hm.
  cbv zeta in Hm. unfold ast in Hm at 1. cbn [InMemory.heap] in Hm.
  rewrite length_map in Hm. by eapply mirrors_carried.
Qed.

Lemma outline_follows_toc_witness :
  ∃ st',
    parseList read id_css idAfterHash (tocList (read Outline.nested_page)) 0 None
      (mkState (outerHTML (body (read Outline.nested_page))) []) = Ok [0; 2] st' ∧
    length (children_sel (SelTag "li") (tocList (read Outline.nested_page))) = 2 ∧
    mirrors idAfterHash 0 (heap st')
            (children_sel (SelTag "li") (tocList (read Outline.nested_page))) [0; 2].
Proof.
  assert (E : ∃ st', parseList read id_css idAfterHash
                       (tocList (read Outline.nested_page)) 0 None
                       (mkState (outerHTML (body (read Outline.nested_page))) [])
                     = Ok [0; 2] st') by (eexists; vm_compute; reflexivity).
  destruct E as (st' & E). exists st'. split; [exact E|]. split; [reflexivity|].
  exact (proj2 (outline_follows_toc read id_css idAfterHash
                  (tocList (read Outline.nested_page)) 0
                  (mkState (outerHTML (body (read Outline.nested_page))) [])) _ _ E).
Defined.

End Shape.

(** ** More about the extracted contents *)

Module Contents.
Import Dom DomFacts ReparseFacts ReadBack Sample SampleFacts Converter.

Lemma same_shape_anchors h ah :
  Carried.same_shape h ah → map InMemory.titleId ah = map titleId h.
Proof.
  induction 1 as [|c ac h ah (f & -> & _) _ IH]; [done|]. cbn [map]. by rewrite IH.
Qed.

Lemma retitled_anchors load (h : list Chapter) :
  map titleId (Carried.retitle load <$> h) = map titleId h.
Proof. induction h as [|c h IH]; [done|]. cbn. by rewrite <- IH. Qed.

(** X7.  With pairwise distinct ids in the document body, the texts read back as
    written and the anchors read as id tests, [parseChapters] returns, and
    for every chapter: either nothing was extracted and its content is the
    empty text, or what was extracted is read as one element, which carries
    the chapter's anchor id, and the final content is the serialization of a
    document that differs from that element in id attributes only. *)
Theorem chapter_content_one_element_at_most
    (load : string → list node) (css : string → option selector)
    (idFromRef : option string → string)
    (addTitleToContent : string → string → string)
    (html : string) (documentTitle : string) :
  reads_back load (body (load html)) →
  anchors_read css idFromRef (tocList (load html)) →
  NoDup (ids_all (body (load html))) →
  ∃ b0 st0 b st,
    collectChapters load css idFromRef addTitleToContent documentTitle (mkState html [])
      = Ok b0 st0 ∧
    parseChapters load css idFromRef addTitleToContent documentTitle (mkState html [])
      = Ok b st ∧
    ∀ a c, heap st !! a = Some c →
      ∃ c0, heap st0 !! a = Some c0 ∧
        ((load (content c0) = [] ∧ content c = "") ∨
         ∃ t attrs ks doc',
           load (content c0) = [Elem t attrs ks] ∧
           assoc "id" attrs = Some (titleId c) ∧
           content c = outerHTML doc' ∧
           map TitleIds.strip_ids doc' = [TitleIds.strip_ids (Elem t attrs ks)]).
Proof.
  intros Hload Hcss Hnd.
  destruct (Carried.parseChapters_full load css idFromRef addTitleToContent html
              documentTitle Hload Hcss) as (st0 & Hcol & Hfull & Hrun).
  eexists _, st0, _, _. split; [exact Hcol|]. split; [exact Hrun|]. cbn [heap].
  intros a c Ha. rewrite list_lookup_fmap in Ha.
  destruct (heap st0 !! a) as [c0|] eqn:Ha0; [|done].
  cbn in Ha. injection Ha as <-. exists c0. split; [done|].
  destruct (Carried.content_loaded load idFromRef html documentTitle Hload st0 a c0
              Hfull Ha0) as (f & E & Haf & HE & Hl & HEf & _).
  destruct (OutlineShape.collected_shape idFromRef (fun _ f => f) (load html) documentTitle)
    as [[Hct _] _ _].
  fold (Carried.loaded load idFromRef html documentTitle) in Hct.
  destruct (Hct a _ (Nat.le_0_l _) Haf) as (d & Hd & Hcd).
  cbn [InMemory.content InMemory.titleId Refinement.forget] in Hcd.
  assert (Hattr : Forall (fun m => attr "id" m = Some (titleId c0)) f).
  { rewrite Hcd. apply OutlineShape.select_all_id_attr. }
  assert (Hlen : length f ≤ 1).
  { rewrite Hcd. etrans; [apply ExtractFacts.select_all_id_count|].
    apply ExtractFacts.NoDup_occ. by eapply sublist_NoDup. }
  unfold Carried.retitle. cbn [content set_content titleId]. rewrite Hl, HEf.
  destruct f as [|m0 [|m1 rest]]; [by left| |cbn in Hlen; lia].
  right. apply Forall_cons in Hattr as [Hm0 _].
  destruct m0 as [| |t attrs ks]; try done.
  exists t, attrs, (reparse ks), (setIds [Elem t attrs (reparse ks)]).
  split; [done|]. split; [exact Hm0|]. split; [done|].
  apply TitleIds.strip_setIds.
Qed.

Lemma chapter_content_one_element_at_most_witness :
  ∃ b st c,
    parseChapters read id_css idAfterHash keepContent "Doc"
      (mkState Outline.nested_page []) = Ok b st ∧
    heap st !! 1 = Some c ∧ titleId c = "s1" ∧
    content c = html_text "<div id='s1'>B</div>".
Proof.
  assert (Hnd : NoDup (ids_all (body (read Outline.nested_page)))).
  { apply (bool_decide_unpack _). vm_compute. exact I. }
  destruct (chapter_content_one_element_at_most read id_css idAfterHash keepContent
              Outline.nested_page "Doc" Outline.nested_page_reads_back
              Outline.nested_page_anchors Hnd)
    as (b0 & st0 & b & st & _ & Hrun & _).
  exists b, st. rewrite Hrun. vm_compute in Hrun.
  apply (f_equal (fun r => match r with Ok _ s => s | Throw _ s => s end)) in Hrun.
  subst st. eexists. split; [reflexivity|]. split; [reflexivity|].
  split; reflexivity.
Defined.

(** X8.  What is left in [this._html] when [parseChapters] is through is, read
    back, the document body (the document without its TOC container)
    without the elements that carry the anchor id of a chapter: nothing
    else is taken out, nothing is added or moved.  In particular the TOC
    container is not part of it.  The readme's content is made from it. *)
Theorem front_matter_is_pruned_body
    (load : string → list node) (css : string → option selector)
    (idFromRef : option string → string)
    (addTitleToContent : string → string → string)
    (html : string) (documentTitle : string) :
  reads_back load (body (load html)) →
  anchors_read css idFromRef (tocList (load html)) →
  ∃ b st,
    parseChapters load css idFromRef addTitleToContent documentTitle (mkState html [])
      = Ok b st ∧
    load (_html st)
      = reparse (OutlineShape.prune (map titleId (heap st)) (body (load html))) ∧
    select_all (SelTagClass "div" "toc") (load (_html st)) = [] ∧
    readme_content (book_readme b)
      = outerHTML (setIds (load (addTitleToContent documentTitle (_html st)))).
Proof.
  intros Hload Hcss.
  destruct (Carried.parseChapters_full load css idFromRef addTitleToContent html
              documentTitle Hload Hcss) as (st0 & Hcol & Hfull & Hrun).
  eexists _, _. split; [exact Hrun|].
  cbn [_html heap book_readme readme_content].
  destruct (OutlineShape.collected_shape idFromRef (fun _ f => f) (load html) documentTitle)
    as [_ _ Hht].
  change (OutlineShape.collected idFromRef (fun _ f => f) (load html) documentTitle)
    with (Carried.loaded load idFromRef html documentTitle) in Hht.
  cbn [InMemory.heap InMemory._html length] in Hht.
  unfold OutlineShape.anchors in Hht. rewrite drop_0 in Hht.
  rewrite (same_shape_anchors _ _ (Carried.full_shape _ _ _ Hfull)) in Hht.
  destruct Hfull as [Hh _].
  assert (E : load (_html st0)
              = reparse (OutlineShape.prune (map titleId (heap st0)) (body (load html)))).
  { rewrite (Carried.stands_for_load load _ Hload _ _ Hh). by rewrite Hht. }
  rewrite retitled_anchors. split; [exact E|]. split; [|done].
  rewrite E, select_all_reparse, OutlineShape.select_prune; [done|].
  apply ExtractFacts.select_detach_all.
Qed.

Lemma front_matter_is_pruned_body_witness :
  ∃ b st,
    parseChapters read id_css idAfterHash keepContent "Doc"
      (mkState Outline.nested_page []) = Ok b st ∧
    _html st = "<p>leftover</p>" ∧
    map titleId (heap st) = ["c1"; "s1"; "c2"] ∧
    read (_html st)
      = reparse (OutlineShape.prune ["c1"; "s1"; "c2"] (body (read Outline.nested_page))).
Proof.
  destruct (front_matter_is_pruned_body read id_css idAfterHash keepContent
              Outline.nested_page "Doc" Outline.nested_page_reads_back
              Outline.nested_page_anchors)
    as (b & st & Hrun & Hleft & _ & _).
  exists b, st. split; [exact Hrun|].
  vm_compute in Hrun.
  apply (f_equal (fun r => match r with Ok _ s => s | Throw _ s => s end)) in Hrun.
  subst st. split; [reflexivity|]. split; [reflexivity|]. exact Hleft.
Defined.

(** [<div id="c1">A</div><p>leftover</p>] under a TOC that lists the anchor
    [c1] twice. *)
Definition repeated_anchor_page : string :=
  html_text
    ("<div class='toc'><ul class='toc'>" +:+
     "<li><span class='chapter'><a href='#c1'>First</a></span></li>" +:+
     "<li><span class='chapter'><a href='#c1'>Again</a></span></li>" +:+
     "</ul></div>" +:+
     "<div id='c1'>A</div><p>leftover</p>").

Lemma repeated_anchor_page_reads_back :
  reads_back read (body (read repeated_anchor_page)).
Proof.
  apply (reads_back_by_cases _ _ (documents_of (body (read repeated_anchor_page))));
    vm_compute; reflexivity.
Qed.

Lemma repeated_anchor_page_anchors :
  anchors_read id_css idAfterHash (tocList (read repeated_anchor_page)).
Proof. apply anchors_read_by_cases. vm_compute. reflexivity. Qed.

(** X17.  Chapters do not share an extracted element.  When the texts are read
    back as written and the anchors as id tests, [parseChapters] returns,
    and of two chapters with the same anchor one at least ends with the
    empty content: the first extraction for the anchor took every element
    that carried it. *)
Theorem same_anchor_one_content
    (load : string → list node) (css : string → option selector)
    (idFromRef : option string → string)
    (addTitleToContent : string → string → string)
    (html : string) (documentTitle : string) :
  reads_back load (body (load html)) →
  anchors_read css idFromRef (tocList (load html)) →
  ∃ b st,
    parseChapters load css idFromRef addTitleToContent documentTitle (mkState html [])
      = Ok b st ∧
    ∀ x y cx cy,
      heap st !! x = Some cx → heap st !! y = Some cy →
      x ≠ y → titleId cx = titleId cy →
      content cx = "" ∨ content cy = "".
Proof.
  intros Hload Hcss.
  destruct (Carried.parseChapters_full load css idFromRef addTitleToContent html
              documentTitle Hload Hcss) as (st0 & Hcol & Hfull & Hrun).
  eexists _, _. split; [exact Hrun|]. cbn [heap].
  intros x y cx cy Hx Hy Hne Ht. rewrite list_lookup_fmap in Hx, Hy.
  destruct (heap st0 !! x) as [cx0|] eqn:Hx0; [|done].
  destruct (heap st0 !! y) as [cy0|] eqn:Hy0; [|done].
  cbn in Hx, Hy. injection Hx as <-. injection Hy as <-.
  destruct (Carried.content_loaded load idFromRef html documentTitle Hload st0 x cx0
              Hfull Hx0) as (fx & Ex & Hax & _ & Hlx & HEx & _).
  destruct (Carried.content_loaded load idFromRef html documentTitle Hload st0 y cy0
              Hfull Hy0) as (fy & Ey & Hay & _ & Hly & HEy & _).
  assert (Hex : Anchors.exclusive 0 (Carried.loaded load idFromRef html documentTitle).2).
  { unfold Carried.loaded. rewrite LoadedOutline.collectChapters_state.
    unfold InMemory.parseList.
    apply (Anchors.parseList_fuel_exclusive idFromRef _ (tocList (load html)) 0 None
             (InMemory.mkState (body (load html)) [])).
    by intros p [=]. }
  unfold Carried.retitle. cbn [content set_content].
  destruct (Hex x y _ _ (Nat.le_0_l _) (Nat.le_0_l _) Hne Hax Hay Ht) as [E|E];
    cbn [InMemory.content Refinement.forget] in E; subst.
  - left. by rewrite Hlx, HEx.
  - right. by rewrite Hly, HEy.
Qed.

Lemma same_anchor_one_content_witness :
  ∃ b st c0 c1,
    parseChapters read id_css idAfterHash keepContent "Doc"
      (mkState repeated_anchor_page []) = Ok b st ∧
    heap st !! 0 = Some c0 ∧ heap st !! 1 = Some c1 ∧
    titleId c0 = "c1" ∧ titleId c1 = "c1" ∧
    content c0 = html_text "<div id='c1'>A</div>" ∧ content c1 = "".
Proof.
  destruct (same_anchor_one_content read id_css idAfterHash keepContent
              repeated_anchor_page "Doc" repeated_anchor_page_reads_back
              repeated_anchor_page_anchors)
    as (b & st & Hrun & Hone).
  exists b, st. rewrite Hrun. vm_compute in Hrun.
  apply (f_equal (fun r => match r with Ok _ s => s | Throw _ s => s end)) in Hrun.
  subst st. eexists _, _. split; [reflexivity|]. split; [reflexivity|].
  split; [reflexivity|]. split; [reflexivity|]. split; [reflexivity|].
  split; [reflexivity|].
  destruct (Hone 0 1 _ _ eq_refl eq_refl ltac:(lia) eq_refl) as [H|H];
    [discriminate H|exact H].
Defined.

(** [<div id="x">A</div><p>mid</p><div id="x">B</div>] under a TOC that
    lists the anchor [x]: an id carried by two elements. *)
Definition repeated_id_page : string :=
  html_text
    ("<div class='toc'><ul class='toc'>" +:+
     "<li><span class='chapter'><a href='#x'>X</a></span></li>" +:+
     "</ul></div>" +:+
     "<div id='x'>A</div><p>mid</p><div id='x'>B</div>").

Lemma repeated_id_page_reads_back :
  reads_back read (body (read repeated_id_page)).
Proof.
  apply (reads_back_by_cases _ _ (documents_of (body (read repeated_id_page))));
    vm_compute; reflexivity.
Qed.

Lemma repeated_id_page_anchors :
  anchors_read id_css idAfterHash (tocList (read repeated_id_page)).
Proof. apply anchors_read_by_cases. vm_compute. reflexivity. Qed.

(** X18.  Whatever the ids of the document are, when the texts are read back as
    written and the anchors as id tests, no node of the document body is
    lost when the chapters are collected: counted with multiplicity, every
    node is in what is left for the readme or in the content of a chapter.
    (With ids that repeat, a node can be there more than once: an element
    is extracted with the elements nested in it, and a nested one that
    carries the same id is extracted on its own as well.) *)
Theorem no_node_is_lost
    (load : string → list node) (css : string → option selector)
    (idFromRef : option string → string)
    (addTitleToContent : string → string → string)
    (html : string) (documentTitle : string) :
  reads_back load (body (load html)) →
  anchors_read css idFromRef (tocList (load html)) →
  ∃ b st,
    collectChapters load css idFromRef addTitleToContent documentTitle (mkState html [])
      = Ok b st ∧
    labels_all (body (load html)) ⊆+
      labels_all (load (_html st)) ++
      flat_map (Outline.chapter_labels load (heap st)) (book_chapters b).
Proof.
  intros Hload Hcss.
  destruct (Carried.collectChapters_full load css idFromRef addTitleToContent html
              documentTitle Hload Hcss) as (st & Hrun & Hfull).
  eexists _, st. split; [exact Hrun|]. cbn [book_chapters].
  pose proof (Conservation.no_node_lost_loaded idFromRef (fun _ f => f) (load html)
                documentTitle) as Hsub.
  cbv zeta in Hsub. fold (Carried.loaded load idFromRef html documentTitle) in Hsub.
  pose proof (LoadedOutline.book_chapters_all idFromRef (fun _ f => f) (load html)
                documentTitle) as Hall.
  cbv zeta in Hall. fold (Carried.loaded load idFromRef html documentTitle) in Hall.
  rewrite Hall in Hsub.
  pose proof (Carried.full_shape _ _ _ Hfull) as Hs.
  rewrite <- (Forall2_length _ _ _ Hs) in Hsub.
  etrans; [exact Hsub|]. destruct Hfull as [Hh Hheap].
  rewrite (Carried.stands_for_labels load _ Hload _ _ Hh).
  apply submseteq_skips_l. apply Permutation_submseteq. apply Permutation_refl'.
  apply HeapFacts.flat_map_ext_elem. intros a _.
  unfold LoadedOutline.chapter_labels, Outline.chapter_labels.
  destruct (heap st !! a) as [c|] eqn:Hc.
  - destruct (Forall2_lookup_l _ _ _ _ _ Hheap Hc) as (ac & Hac & f & -> & Hf).
    rewrite Hac. cbn [InMemory.content Refinement.forget].
    symmetry. by apply (Carried.stands_for_labels load _ Hload).
  - apply lookup_ge_None in Hc. rewrite (Forall2_length _ _ _ Hheap) in Hc.
    apply lookup_ge_None in Hc. by rewrite Hc.
Qed.

Lemma no_node_is_lost_witness :
  ∃ b st,
    collectChapters read id_css idAfterHash keepContent "Doc"
      (mkState repeated_id_page []) = Ok b st ∧
    _html st = "<p>mid</p>" ∧
    map content (heap st) = [html_text "<div id='x'>A</div><div id='x'>B</div>"] ∧
    labels_all (body (read repeated_id_page)) ⊆+
      labels_all (read (_html st)) ++
      flat_map (Outline.chapter_labels read (heap st)) (book_chapters b).
Proof.
  destruct (no_node_is_lost read id_css idAfterHash keepContent repeated_id_page "Doc"
              repeated_id_page_reads_back repeated_id_page_anchors)
    as (b & st & Hrun & Hsub).
  exists b, st. split; [exact Hrun|].
  vm_compute in Hrun.
  apply (f_equal (fun r => match r with Ok _ s => s | Throw _ s => s end)) in Hrun.
  split; [by subst st|]. split; [by subst st|]. exact Hsub.
Defined.

End Contents.
